(** * Circles bouncing off lines: a verification of the geometry and physics core

    The development embeds [circles-bouncing-off-lines.js] function by
    function.  The program computes on JavaScript numbers, which are IEEE 754
    binary64 floating-point numbers; its control flow does not depend on how
    the numbers are represented.  The embedding is therefore written once,
    over an interface of the arithmetic operations the program uses, and read
    twice:

    - on [double], the binary64 numbers of the kernel with their rounding,
      their infinities, their signed zeros and their [NaN], as the program
      runs; [Math.cos] and [Math.sin], which ECMAScript leaves to the engine
      up to a few fixed values, are a parameter;
    - on [ideal], the real numbers extended with [NaN], the exact arithmetic
      in which the specification reasons.

    A theorem stated for every [Number] holds of both.  What the program
    computes only up to rounding, the speed after a bounce and the distance
    between the ends of a line, is bounded on [double] from the rounding
    specification of the binary64 operations.  The drawing code and the
    browser's frame clock are not part of the model. *)

From Stdlib Require Import Floats.
From Stdlib Require Import Reals Lra List ZArith Bool Lia QArith Qreals.
Import ListNotations.
Close Scope Q_scope.

(** ** JavaScript numbers *)

(** The operations on numbers that the program uses.  [lit q] is the numeric
    literal that denotes the decimal number [q]; [Math_sqrt], [Math_cos] and
    [Math_sin] are the three functions of the [Math] object that are called. *)
Class Number : Type := {
  num : Type;
  lit : Q -> num;
  add : num -> num -> num;
  sub : num -> num -> num;
  mul : num -> num -> num;
  div : num -> num -> num;
  neg : num -> num;
  ltb : num -> num -> bool;
  leb : num -> num -> bool;
  Math_sqrt : num -> num;
  Math_cos : num -> num;
  Math_sin : num -> num
}.

Definition gtb {N : Number} (a b : num) : bool := ltb b a.
Definition geb {N : Number} (a b : num) : bool := leb b a.

Declare Scope js_scope.
Delimit Scope js_scope with js.

Notation "a + b" := (add a b) : js_scope.
Notation "a - b" := (sub a b) : js_scope.
Notation "a * b" := (mul a b) : js_scope.
Notation "a / b" := (div a b) : js_scope.
Notation "- a" := (neg a) : js_scope.
Notation "a <? b" := (ltb a b) (at level 70) : js_scope.
Notation "a <=? b" := (leb a b) (at level 70) : js_scope.
Notation "a >? b" := (gtb a b) (at level 70) : js_scope.
Notation "a >=? b" := (geb a b) (at level 70) : js_scope.

(** The functions of JavaScript's [Math] object that the program calls. *)
Module Math.
Abbreviation sqrt := Math_sqrt.
Abbreviation cos := Math_cos.
Abbreviation sin := Math_sin.
End Math.

(** ** The data of the simulation *)

(** A point or a vector: the object [{ x: ..., y: ... }], with coordinates
    in [A].  [start] and [createNewCircleIfDue] hand a new object literal to
    every call of [makeLine] and [makeCircle], and [makeCircle] makes the
    velocity itself: no two bodies or lines share a center or a velocity, so
    the in-place updates of the program are modelled on values. *)
Record VecOf (A : Type) : Type := vec { x : A; y : A }.

Arguments vec {A} _ _.
Arguments x {A} _.
Arguments y {A} _.

Abbreviation Vec := (VecOf num).

(** The object returned by [makeCircle]; its [draw] method is rendering and is
    left out. *)
Module Circle.
Record over (A : Type) : Type :=
  make { center : VecOf A; velocity : VecOf A; radius : A }.
Arguments make {A} _ _ _.
Arguments center {A} _.
Arguments velocity {A} _.
Arguments radius {A} _.
Abbreviation t := (over num).
End Circle.

(** The object returned by [makeLine], without its [draw] method. *)
Module Line.
Record over (A : Type) : Type :=
  make { center : VecOf A; len : A; angle : A; rotateSpeed : A }.
Arguments make {A} _ _ _ _.
Arguments center {A} _.
Arguments len {A} _.
Arguments angle {A} _.
Arguments rotateSpeed {A} _.
Abbreviation t := (over num).
End Line.

(** The [world] object of [start].  Times are the integer milliseconds of
    [Date.getTime].  A body is pushed on the array once, when it is made, so
    the array holds every body object once. *)
Module World.
Record over (A : Type) : Type :=
  make { circles : list (Circle.over A);
         lines : list (Line.over A);
         dimensions : VecOf A;
         timeLastCircleMade : Z }.
Arguments make {A} _ _ _ _.
Arguments circles {A} _.
Arguments lines {A} _.
Arguments dimensions {A} _.
Arguments timeLastCircleMade {A} _.
Abbreviation t := (over num).
End World.

(** ** Trigonometry functions *)

Module trig.
Section trig.
Context {N : Number}.

Definition distance (point1 point2 : Vec) : num :=
  let dx := (x point1 - x point2)%js in
  let dy := (y point1 - y point2)%js in
  Math.sqrt (dx * dx + dy * dy)%js.

Definition magnitude (vector : Vec) : num :=
  Math.sqrt (x vector * x vector + y vector * y vector)%js.

Definition unitVector (vector : Vec) : Vec :=
  {| x := (x vector / magnitude vector)%js;
     y := (y vector / magnitude vector)%js |}.

Definition dotProduct (vector1 vector2 : Vec) : num :=
  (x vector1 * x vector2 + y vector1 * y vector2)%js.

Definition vectorBetween (startPoint endPoint : Vec) : Vec :=
  {| x := (x endPoint - x startPoint)%js;
     y := (y endPoint - y startPoint)%js |}.

Definition lineEndPoints (line : Line.t) : Vec * Vec :=
  let angleRadians := (Line.angle line * lit 0.01745)%js in
  let lineUnitVector :=
    unitVector {| x := Math.cos angleRadians; y := Math.sin angleRadians |} in
  let endOffsetFromCenterVector :=
    {| x := (x lineUnitVector * Line.len line / lit 2)%js;
       y := (y lineUnitVector * Line.len line / lit 2)%js |} in
  ({| x := (x (Line.center line) + x endOffsetFromCenterVector)%js;
      y := (y (Line.center line) + y endOffsetFromCenterVector)%js |},
   {| x := (x (Line.center line) - x endOffsetFromCenterVector)%js;
      y := (y (Line.center line) - y endOffsetFromCenterVector)%js |}).

Definition pointOnLineClosestToCircle (circle : Circle.t) (line : Line.t) : Vec :=
  let lineEndPoint1 := fst (lineEndPoints line) in
  let lineEndPoint2 := snd (lineEndPoints line) in
  let lineUnitVector := unitVector (vectorBetween lineEndPoint1 lineEndPoint2) in
  let lineEndToCircleVector := vectorBetween lineEndPoint1 (Circle.center circle) in
  let projection := dotProduct lineEndToCircleVector lineUnitVector in
  if (projection <=? lit 0)%js then lineEndPoint1
  else if (projection >=? Line.len line)%js then lineEndPoint2
  else {| x := (x lineEndPoint1 + x lineUnitVector * projection)%js;
          y := (y lineEndPoint1 + y lineUnitVector * projection)%js |}.

Definition isLineIntersectingCircle (circle : Circle.t) (line : Line.t) : bool :=
  let closest := pointOnLineClosestToCircle circle line in
  let circleToLineDistance := distance (Circle.center circle) closest in
  (circleToLineDistance <? Circle.radius circle)%js.

End trig.
End trig.

(** ** Results of code that loops or indexes an array

    [OutOfFuel]: the [while] loop of [physics.bounceCircle] was still running
    when the fuel ran out.  [TypeError]: a property of [undefined] was read,
    which is what [world.circles[i].center] does for an index out of range. *)

Inductive result (A : Type) : Type :=
| Done : A -> result A
| OutOfFuel : result A
| TypeError : result A.

Arguments Done {A} _.
Arguments OutOfFuel {A}.
Arguments TypeError {A}.

Definition bind {A B : Type} (r : result A) (k : A -> result B) : result B :=
  match r with
  | Done a => k a
  | OutOfFuel => OutOfFuel
  | TypeError => TypeError
  end.

Notation "v <- r ;; k" := (bind r (fun v => k))
  (at level 61, r at next level, right associativity).

(** ** Physics functions *)

Module physics.
Section physics.
Context {N : Number}.

Definition applyGravity (circle : Circle.t) : Circle.t :=
  {| Circle.center := Circle.center circle;
     Circle.velocity :=
       {| x := x (Circle.velocity circle);
          y := (y (Circle.velocity circle) + lit 0.06)%js |};
     Circle.radius := Circle.radius circle |}.

Definition moveCircle (circle : Circle.t) : Circle.t :=
  {| Circle.center :=
       {| x := (x (Circle.center circle) + x (Circle.velocity circle))%js;
          y := (y (Circle.center circle) + y (Circle.velocity circle))%js |};
     Circle.velocity := Circle.velocity circle;
     Circle.radius := Circle.radius circle |}.

Definition bounceLineNormal (circle : Circle.t) (line : Line.t) : Vec :=
  let circleToClosestPointOnLineVector :=
    trig.vectorBetween
      (trig.pointOnLineClosestToCircle circle line)
      (Circle.center circle) in
  trig.unitVector circleToClosestPointOnLineVector.

(** The loop [while (trig.isLineIntersectingCircle(circle, line))
    physics.moveCircle(circle)] that ends [bounceCircle]. *)
Fixpoint moveUntilClear (fuel : nat) (circle : Circle.t) (line : Line.t)
  : result Circle.t :=
  match fuel with
  | O => OutOfFuel
  | S fuel' =>
      if trig.isLineIntersectingCircle circle line
      then moveUntilClear fuel' (moveCircle circle) line
      else Done circle
  end.

(** The velocity of [circle] after the two assignments
    [circle.velocity.x -= 2 * dot * bounceLineNormal.x] and
    [circle.velocity.y -= 2 * dot * bounceLineNormal.y]. *)
Definition reflectVelocity (circle : Circle.t) (line : Line.t) : Circle.t :=
  let bounceLineNormal := bounceLineNormal circle line in
  let dot := trig.dotProduct (Circle.velocity circle) bounceLineNormal in
  {| Circle.center := Circle.center circle;
     Circle.velocity :=
       {| x := (x (Circle.velocity circle) - lit 2 * dot * x bounceLineNormal)%js;
          y := (y (Circle.velocity circle) - lit 2 * dot * y bounceLineNormal)%js |};
     Circle.radius := Circle.radius circle |}.

Definition bounceCircle (fuel : nat) (circle : Circle.t) (line : Line.t)
  : result Circle.t :=
  moveUntilClear fuel (reflectVelocity circle line) line.

End physics.
End physics.

(** ** The top-level functions that run the simulation *)

(** The array operations of [updateCircles].  The circle objects are mutated
    in place, so the array slot [i] holds the updated circle: [store] writes it
    back.  [splice i] is [world.circles.splice(i, 1)]. *)
Fixpoint store {A : Type} (i : nat) (a : A) (l : list A) : list A :=
  match l, i with
  | [], _ => []
  | _ :: rest, O => a :: rest
  | b :: rest, S i' => b :: store i' a rest
  end.

Definition splice {A : Type} (i : nat) (l : list A) : list A :=
  firstn i l ++ skipn (S i) l.

Section TopLevel.
Context {N : Number}.

Definition makeCircle (center : Vec) : Circle.t :=
  {| Circle.center := center;
     Circle.velocity := {| x := lit 0; y := lit 0 |};
     Circle.radius := lit 5 |}.

Definition makeLine (center : Vec) : Line.t :=
  {| Line.center := center;
     Line.len := lit 70;
     Line.angle := lit 0;
     Line.rotateSpeed := lit 0.5 |}.

Definition isCircleInWorld (circle : Circle.t) (worldDimensions : Vec) : bool :=
  (x (Circle.center circle) >? - Circle.radius circle)%js &&
  (x (Circle.center circle) <? x worldDimensions + Circle.radius circle)%js &&
  (y (Circle.center circle) >? - Circle.radius circle)%js &&
  (y (Circle.center circle) <? y worldDimensions + Circle.radius circle)%js.

(** The inner loop of [updateCircles]: [for (var j = 0; j < world.lines.length; j++)]. *)
Fixpoint bounceOffLines (fuel : nat) (circle : Circle.t) (lines : list Line.t)
  : result Circle.t :=
  match lines with
  | [] => Done circle
  | line :: rest =>
      if trig.isLineIntersectingCircle circle line
      then circle' <- physics.bounceCircle fuel circle line ;;
           bounceOffLines fuel circle' rest
      else bounceOffLines fuel circle rest
  end.

(** The outer loop, [for (var i = world.circles.length - 1; i >= 0; i--)], with
    [n] standing for [i + 1]. *)
Fixpoint updateCirclesFrom (fuel : nat) (n : nat) (world : World.t)
  : result World.t :=
  match n with
  | O => Done world
  | S i =>
      match nth_error (World.circles world) i with
      | None => TypeError
      | Some circle =>
          circle <- bounceOffLines fuel circle (World.lines world) ;;
          let circle := physics.applyGravity circle in
          let circle := physics.moveCircle circle in
          let circles := store i circle (World.circles world) in
          let circles :=
            if negb (isCircleInWorld circle (World.dimensions world))
            then splice i circles
            else circles in
          updateCirclesFrom fuel i
            {| World.circles := circles;
               World.lines := World.lines world;
               World.dimensions := World.dimensions world;
               World.timeLastCircleMade := World.timeLastCircleMade world |}
      end
  end.

Definition updateCircles (fuel : nat) (world : World.t) : result World.t :=
  updateCirclesFrom fuel (length (World.circles world)) world.

(** [now] is the value of [new Date().getTime()]. *)
Definition createNewCircleIfDue (now : Z) (world : World.t) : World.t :=
  if (now - World.timeLastCircleMade world >? 400)%Z
  then {| World.circles :=
            World.circles world ++
            [makeCircle {| x := (x (World.dimensions world) / lit 2)%js;
                           y := (- lit 5)%js |}];
          World.lines := World.lines world;
          World.dimensions := World.dimensions world;
          World.timeLastCircleMade := now |}
  else world.

Definition rotateLine (line : Line.t) : Line.t :=
  {| Line.center := Line.center line;
     Line.len := Line.len line;
     Line.angle := (Line.angle line + Line.rotateSpeed line)%js;
     Line.rotateSpeed := Line.rotateSpeed line |}.

Definition updateLines (world : World.t) : World.t :=
  {| World.circles := World.circles world;
     World.lines := map rotateLine (World.lines world);
     World.dimensions := World.dimensions world;
     World.timeLastCircleMade := World.timeLastCircleMade world |}.

Definition update (fuel : nat) (now : Z) (world : World.t) : result World.t :=
  world <- updateCircles fuel world ;;
  let world := createNewCircleIfDue now world in
  Done (updateLines world).

(** The simulation that [tick] runs, without the drawing: one [update] per
    frame, [nows] being the readings of the clock at the successive frames. *)
Fixpoint ticks (fuel : nat) (nows : list Z) (world : World.t) : result World.t :=
  match nows with
  | [] => Done world
  | now :: later =>
      world <- update fuel now world ;;
      ticks fuel later world
  end.

(** The world that [start] builds, for a canvas of the given size. *)
Definition initialWorld (canvas : Vec) : World.t :=
  {| World.circles := [];
     World.lines :=
       [ makeLine {| x := lit 100; y := lit 100 |};
         makeLine {| x := lit 200; y := lit 100 |};
         makeLine {| x := lit 150; y := lit 150 |};
         makeLine {| x := lit 100; y := lit 200 |};
         makeLine {| x := lit 220; y := lit 200 |} ];
     World.dimensions := canvas;
     World.timeLastCircleMade := 0 |}.

End TopLevel.

(** ** The two arithmetics *)

(** *** IEEE 754 binary64, the numbers of the program

    A number is a binary64 floating-point number of the kernel.  A decimal
    literal denotes the binary64 number nearest to it, which is the correctly
    rounded quotient of its numerator by its denominator, both integers that
    binary64 represents exactly.  Comparisons with [NaN] are false.

    ECMAScript leaves [Math.cos] and [Math.sin] to the engine
    ("implementation-approximated"), fixing only their values at the zeros,
    [NaN] and the infinities; an [Engine] is a pair of functions with the
    values at the zeros. *)

Class Engine : Type := {
  engine_cos : float -> float;
  engine_sin : float -> float;
  cos_of_zero : engine_cos 0%float = 1%float;
  cos_of_minus_zero : engine_cos (-0)%float = 1%float;
  sin_of_zero : engine_sin 0%float = 0%float;
  sin_of_minus_zero : engine_sin (-0)%float = (-0)%float
}.

Definition of_Z (z : Z) : float := SF2Prim (binary_normalize prec emax z 0 false).

Definition double_lit (q : Q) : float :=
  PrimFloat.div (of_Z (Qnum q)) (of_Z (Zpos (Qden q))).

Definition double {E : Engine} : Number :=
  {| num := float;
     lit := double_lit;
     add := PrimFloat.add;
     sub := PrimFloat.sub;
     mul := PrimFloat.mul;
     div := PrimFloat.div;
     neg := PrimFloat.opp;
     ltb := PrimFloat.ltb;
     leb := PrimFloat.leb;
     Math_sqrt := PrimFloat.sqrt;
     Math_cos := engine_cos;
     Math_sin := engine_sin |}.

(** An engine to run the program on: exact at the zeros, as ECMAScript
    demands, and a truncated Taylor series elsewhere.  The theorems hold for
    every engine; this one serves where a statement is evaluated, always on
    lines at the angle 0. *)
Module Taylor.
Local Open Scope float_scope.

Definition cos (t : float) : float :=
  let s := t * t in
  1 - s * (0.5 - s * (double_lit (1 # 24) - s * (double_lit (1 # 720)
        - s * (double_lit (1 # 40320) - s * double_lit (1 # 3628800))))).

Definition sin (t : float) : float :=
  let s := t * t in
  t * (1 - s * (double_lit (1 # 6) - s * (double_lit (1 # 120)
        - s * (double_lit (1 # 5040) - s * double_lit (1 # 362880))))).

End Taylor.

Definition taylor : Engine :=
  {| engine_cos := Taylor.cos;
     engine_sin := Taylor.sin;
     cos_of_zero := eq_refl;
     cos_of_minus_zero := eq_refl;
     sin_of_zero := eq_refl;
     sin_of_minus_zero := eq_refl |}.

(** *** Exact arithmetic, the numbers of the specification

    A number is a real number or [NaN].  Nothing is rounded and nothing
    overflows; [0 / 0] is [NaN], [NaN] is absorbing and every comparison with
    [NaN] is false, as in binary64.  A non-zero dividend over a zero divisor
    would be an infinity, which this arithmetic has no value for: it is
    [NaN] here.  A literal denotes the real number it is written as (an
    integer when it is one). *)
Module Ideal.

Inductive num : Type :=
| NaN : num
| Num : R -> num.

Definition lift2 (f : R -> R -> R) (a b : num) : num :=
  match a, b with
  | Num u, Num v => Num (f u v)
  | _, _ => NaN
  end.

Definition add : num -> num -> num := lift2 Rplus.
Definition sub : num -> num -> num := lift2 Rminus.
Definition mul : num -> num -> num := lift2 Rmult.

Definition neg (a : num) : num :=
  match a with
  | Num u => Num (- u)
  | NaN => NaN
  end.

Definition div (a b : num) : num :=
  match a, b with
  | Num u, Num v => if Req_dec_T v 0 then NaN else Num (u / v)
  | _, _ => NaN
  end.

Definition ltb (a b : num) : bool :=
  match a, b with
  | Num u, Num v => if Rlt_dec u v then true else false
  | _, _ => false
  end.

Definition leb (a b : num) : bool :=
  match a, b with
  | Num u, Num v => if Rle_dec u v then true else false
  | _, _ => false
  end.

Definition sqrt (a : num) : num :=
  match a with
  | Num u => if Rlt_dec u 0 then NaN else Num (R_sqrt.sqrt u)
  | NaN => NaN
  end.

Definition cos (a : num) : num :=
  match a with
  | Num u => Num (Rtrigo_def.cos u)
  | NaN => NaN
  end.

Definition sin (a : num) : num :=
  match a with
  | Num u => Num (Rtrigo_def.sin u)
  | NaN => NaN
  end.

End Ideal.

Abbreviation NaN := Ideal.NaN.
Abbreviation Num := Ideal.Num.

Definition ideal : Number :=
  {| num := Ideal.num;
     lit := fun q => Ideal.Num (match Qden q with xH => IZR (Qnum q) | _ => Q2R q end);
     add := Ideal.add;
     sub := Ideal.sub;
     mul := Ideal.mul;
     div := Ideal.div;
     neg := Ideal.neg;
     ltb := Ideal.ltb;
     leb := Ideal.leb;
     Math_sqrt := Ideal.sqrt;
     Math_cos := Ideal.cos;
     Math_sin := Ideal.sin |}.

(** *** Vocabulary on exact numbers *)

(** A point with real coordinates. *)
Definition point (a b : R) : VecOf Ideal.num := vec (Num a) (Num b).

(** The heading of a line at [a] degrees, as [trig.lineEndPoints] computes it
    in exact arithmetic. *)
Definition headingX (a : R) : R := cos (a * 0.01745).
Definition headingY (a : R) : R := sin (a * 0.01745).

(** ** Vocabulary of the statements *)

Section Vocabulary.
Context {N : Number}.

(** The local variables [lineUnitVector] and [projection] of
    [trig.pointOnLineClosestToCircle] in the words of the specification: the
    unit vector along the segment from its first end to its second, and the
    scalar projection on it of the vector from the first end to the center
    of the circle. *)
Definition lineUnitVector (line : Line.t) : Vec :=
  trig.unitVector
    (trig.vectorBetween (fst (trig.lineEndPoints line)) (snd (trig.lineEndPoints line))).

Definition projection (circle : Circle.t) (line : Line.t) : num :=
  trig.dotProduct
    (trig.vectorBetween (fst (trig.lineEndPoints line)) (Circle.center circle))
    (lineUnitVector line).

(** The arguments that the three calls of [trig.unitVector] receive: the
    heading in [trig.lineEndPoints], the vector from end to end in
    [trig.pointOnLineClosestToCircle], and the local variable
    [circleToClosestPointOnLineVector] of [physics.bounceLineNormal]. *)
Definition headingVector (line : Line.t) : Vec :=
  {| x := Math.cos (Line.angle line * lit 0.01745)%js;
     y := Math.sin (Line.angle line * lit 0.01745)%js |}.

Definition lineVector (line : Line.t) : Vec :=
  trig.vectorBetween (fst (trig.lineEndPoints line)) (snd (trig.lineEndPoints line)).

Definition circleToClosestPointOnLineVector (circle : Circle.t) (line : Line.t) : Vec :=
  trig.vectorBetween
    (trig.pointOnLineClosestToCircle circle line)
    (Circle.center circle).

(** The reflection of a velocity in a normal in the words of the
    specification: [velocity -= 2 * dot * normal] with
    [dot = dotProduct(velocity, normal)]. *)
Definition reflected (velocity normal : Vec) : Vec :=
  {| x := (x velocity - lit 2 * (x velocity * x normal + y velocity * y normal) * x normal)%js;
     y := (y velocity - lit 2 * (x velocity * x normal + y velocity * y normal) * y normal)%js |}.

(** The step of one body in the words of the specification, written without
    the functions of the program that it specifies.  [collide]: test the
    body against one segment and bounce it off on a hit.  [updateCircle]:
    collide with every segment in the order of the list, then add the
    gravity constant to the vertical velocity, then add the velocity to the
    center. *)
Definition collide (fuel : nat) (body : result Circle.t) (line : Line.t)
  : result Circle.t :=
  circle <- body ;;
  if trig.isLineIntersectingCircle circle line
  then physics.bounceCircle fuel circle line
  else Done circle.

Definition updateCircle (fuel : nat) (lines : list Line.t) (circle : Circle.t)
  : result Circle.t :=
  circle <- fold_left (collide fuel) lines (Done circle) ;;
  let vx := x (Circle.velocity circle) in
  let vy := (y (Circle.velocity circle) + lit 0.06)%js in
  Done {| Circle.center :=
            {| x := (x (Circle.center circle) + vx)%js;
               y := (y (Circle.center circle) + vy)%js |};
          Circle.velocity := {| x := vx; y := vy |};
          Circle.radius := Circle.radius circle |}.

(** The step of all bodies in the words of the specification: every body is
    stepped once, the last of the list first, and a stepped body stays in the
    list exactly when it is still in the world. *)
Fixpoint stepCircles (fuel : nat) (lines : list Line.t) (dimensions : Vec)
  (circles : list Circle.t) : result (list Circle.t) :=
  match circles with
  | [] => Done []
  | circle :: rest =>
      rest' <- stepCircles fuel lines dimensions rest ;;
      circle' <- updateCircle fuel lines circle ;;
      Done (if isCircleInWorld circle' dimensions then circle' :: rest' else rest')
  end.

(** One step of a body that meets no line: gravity, then motion. *)
Definition fall (circle : Circle.t) : Circle.t :=
  physics.moveCircle (physics.applyGravity circle).

(** A line after [n] calls of [updateLines]. *)
Definition turned (n : nat) (line : Line.t) : Line.t :=
  Nat.iter n rotateLine line.

End Vocabulary.

(** ** Vocabulary of the rounding analysis

    The real number that a binary64 number denotes, the unit roundoff and
    the smallest errors of binary64, and what it means for a real number to
    be the rounding of another. *)

Section RoundingVocabulary.
Local Open Scope R_scope.

(** The power of two of an integer exponent. *)
Definition bpow (e : Z) : R := powerRZ 2 e.

(** The real number [m * 2^e], and the real number that a number of
    [SpecFloat] denotes; infinities and [NaN] denote 0 and are told apart by
    [is_finite_SF]. *)
Definition F2R (m e : Z) : R := IZR m * bpow e.

Definition SF2R (f : spec_float) : R :=
  match f with
  | S754_finite s m e => F2R (cond_Zopp s (Zpos m)) e
  | _ => 0
  end.

Definition is_finite_SF (f : spec_float) : bool :=
  match f with
  | S754_finite _ _ _ | S754_zero _ => true
  | _ => false
  end.

(** The exponent of the binary64 numbers just below [2^e]. *)
Definition fexp64 (e : Z) : Z := fexp prec emax e.

(** [t] lies in the unit interval that starts at [m], at the place that the
    location says: on [m], in the lower half, in the middle or in the upper
    half. *)
Definition inbetween_int (m : Z) (l : location) (t : R) : Prop :=
  match l with
  | loc_Exact => t = IZR m
  | loc_Inexact Lt => IZR m < t < IZR m + / 2
  | loc_Inexact Eq => t = IZR m + / 2
  | loc_Inexact Gt => IZR m + / 2 < t < IZR m + 1
  end.

(** The unit roundoff of binary64 and half its smallest positive number. *)
Definition u64 : R := bpow (-53).
Definition eta64 : R := bpow (-1075).

(** The error of a result: at most the unit roundoff times the exact value,
    or at most [eta64]; in the range of the normal numbers it is the
    former. *)
Definition rounded (x r : R) : Prop :=
  Rabs (r - x) <= u64 * Rabs x + eta64 /\
  (bpow (-1022) <= Rabs x -> Rabs (r - x) <= u64 * Rabs x) /\
  (0 <= x -> 0 <= r) /\ (x <= 0 -> r <= 0).

(** The error of a sum is relative: a sum in the range of the subnormal
    numbers is exact. *)
Definition rounded_sum (x r : R) : Prop :=
  Rabs (r - x) <= u64 * Rabs x /\ (0 <= x -> 0 <= r) /\ (x <= 0 -> r <= 0).

(** What the result of a comparison says of two real numbers. *)
Definition ordered (c : comparison) (a b : R) : Prop :=
  match c with
  | Lt => a < b
  | Eq => a = b
  | Gt => b < a
  end.

(** The real number that a binary64 number denotes, and the binary64
    numbers that are neither infinite nor [NaN]. *)
Definition B2R (f : float) : R := SF2R (Prim2SF f).

Definition finite (f : float) : Prop := is_finite_SF (Prim2SF f) = true.

(** The square root of eight times [eta64]. *)
Definition tau64 : R := bpow (-536).

(** The Euclidean norm of a vector of real numbers. *)
Definition norm2 (a b : R) : R := sqrt (a * a + b * b).

(** The Euclidean norm of a vector of binary64 numbers, computed exactly,
    and a vector whose two coordinates are finite numbers. *)
Definition norm (v : VecOf float) : R := norm2 (B2R (x v)) (B2R (y v)).

Definition finiteVec (v : VecOf float) : Prop := finite (x v) /\ finite (y v).

(** The power of two just above a finite number that is not zero: the
    number of digits of its mantissa plus its exponent. *)
Definition binade (f : float) : option Z :=
  match Prim2SF f with
  | S754_finite _ m e => Some (Zdigits2 (Zpos m) + e)%Z
  | _ => None
  end.

End RoundingVocabulary.

(** * Properties that hold in every arithmetic *)

Arguments trig.unitVector : simpl never.
Arguments trig.magnitude : simpl never.
Arguments trig.distance : simpl never.
Arguments trig.lineEndPoints : simpl never.
Arguments trig.pointOnLineClosestToCircle : simpl never.
Arguments trig.isLineIntersectingCircle : simpl never.
Arguments physics.moveCircle : simpl never.
Arguments physics.reflectVelocity : simpl never.

Lemma nth_error_middle {A : Type} (pre suf : list A) (a : A) :
  nth_error (pre ++ a :: suf) (length pre) = Some a.
Proof. induction pre as [| b pre IH]; simpl; auto. Qed.

Lemma store_middle {A : Type} (pre suf : list A) (a b : A) :
  store (length pre) b (pre ++ a :: suf) = pre ++ b :: suf.
Proof. induction pre as [| c pre IH]; simpl; [| rewrite IH]; reflexivity. Qed.

Lemma splice_middle {A : Type} (pre suf : list A) (a : A) :
  splice (length pre) (pre ++ a :: suf) = pre ++ suf.
Proof.
  unfold splice. induction pre as [| c pre IH].
  - reflexivity.
  - cbn [length firstn skipn app]. f_equal. exact IH.
Qed.

Lemma bind_Done {A : Type} (r : result A) : (v <- r ;; Done v) = r.
Proof. destruct r; reflexivity. Qed.

Lemma bind_assoc {A B C : Type} (r : result A) (f : A -> result B) (g : B -> result C) :
  (w <- (v <- r ;; f v) ;; g w) = (v <- r ;; w <- f v ;; g w).
Proof. destruct r; reflexivity. Qed.

Lemma Forall2_same_length {A B : Type} (P : A -> B -> Prop) (l : list A) (l' : list B) :
  Forall2 P l l' -> length l = length l'.
Proof. induction 1; simpl; congruence. Qed.

Lemma Forall2_right_has_left {A B : Type} (P : A -> B -> Prop) (l : list A) (l' : list B) :
  Forall2 P l l' -> forall b, In b l' -> exists a, In a l /\ P a b.
Proof.
  induction 1 as [| a b l l' Hab _ IH]; intros c Hin; simpl in Hin.
  - contradiction.
  - destruct Hin as [<- | Hin].
    + exists a. simpl. auto.
    + destruct (IH c Hin) as [a' [Ha' Hp]]. exists a'. simpl. auto.
Qed.

Section EveryArithmetic.
Context {N : Number}.

(** ** The closest point on a segment (C1) *)

Lemma pointOnLineClosestToCircle_eq (circle : Circle.t) (line : Line.t) :
  trig.pointOnLineClosestToCircle circle line =
  if (projection circle line <=? lit 0)%js then fst (trig.lineEndPoints line)
  else if (projection circle line >=? Line.len line)%js then snd (trig.lineEndPoints line)
  else {| x := (x (fst (trig.lineEndPoints line)) +
                x (lineUnitVector line) * projection circle line)%js;
          y := (y (fst (trig.lineEndPoints line)) +
                y (lineUnitVector line) * projection circle line)%js |}.
Proof. reflexivity. Qed.

(** ** The loop that clears the line *)

Lemma moveCircle_velocity (circle : Circle.t) :
  Circle.velocity (physics.moveCircle circle) = Circle.velocity circle.
Proof. reflexivity. Qed.

Lemma moveCircle_radius (circle : Circle.t) :
  Circle.radius (physics.moveCircle circle) = Circle.radius circle.
Proof. reflexivity. Qed.

(** When the loop ends, the circle it returns is clear of the line and has the
    velocity and the radius it started with. *)
Lemma moveUntilClear_Done (fuel : nat) :
  forall (circle circle' : Circle.t) (line : Line.t),
    physics.moveUntilClear fuel circle line = Done circle' ->
    trig.isLineIntersectingCircle circle' line = false /\
    Circle.velocity circle' = Circle.velocity circle /\
    Circle.radius circle' = Circle.radius circle.
Proof.
  induction fuel as [| fuel IH]; intros circle circle' line H; simpl in H.
  - discriminate.
  - destruct (trig.isLineIntersectingCircle circle line) eqn:Hi.
    + apply IH in H. rewrite moveCircle_velocity, moveCircle_radius in H.
      exact H.
    + injection H as <-. auto.
Qed.

(** The loop never reads out of an array. *)
Lemma moveUntilClear_no_TypeError (fuel : nat) :
  forall (circle : Circle.t) (line : Line.t),
    physics.moveUntilClear fuel circle line <> TypeError.
Proof.
  induction fuel as [| fuel IH]; intros circle line; simpl.
  - discriminate.
  - destruct (trig.isLineIntersectingCircle circle line);
      [apply IH | discriminate].
Qed.




Lemma moveUntilClear_fewest_moves (fuel : nat) :
  forall (circle circle' : Circle.t) (line : Line.t),
    physics.moveUntilClear fuel circle line = Done circle' ->
    exists k : nat,
      (k < fuel)%nat /\
      circle' = Nat.iter k physics.moveCircle circle /\
      forall j : nat,
        (j < k)%nat ->
        trig.isLineIntersectingCircle (Nat.iter j physics.moveCircle circle) line = true.
Proof.
  induction fuel as [| fuel IH]; intros circle circle' line H;
    cbn [physics.moveUntilClear] in H.
  - discriminate.
  - destruct (trig.isLineIntersectingCircle circle line) eqn:Hi.
    + destruct (IH _ _ _ H) as [k [Hk [Hc Hj]]].
      exists (S k). split; [lia |]. split.
      * rewrite Nat.iter_succ_r. exact Hc.
      * intros [| j] Hlt; [exact Hi |].
        rewrite Nat.iter_succ_r. apply Hj. lia.
    + injection H as <-. exists 0%nat. split; [lia |]. split; [reflexivity |].
      intros j Hlt. lia.
Qed.

(** ** The step of the world: the loop over the bodies *)

(** The inner loop of [updateCircles] tests the body against each line in
    turn and bounces it off the ones it hits. *)
Lemma bounceOffLines_fold (fuel : nat) (lines : list Line.t) :
  forall circle : Circle.t,
    bounceOffLines fuel circle lines = fold_left (collide fuel) lines (Done circle).
Proof.
  assert (forall (ls : list Line.t) (r : result Circle.t),
             r = OutOfFuel \/ r = TypeError ->
             fold_left (collide fuel) ls r = r) as Hstop.
  { induction ls as [| line rest IH]; intros r Hr; [reflexivity |].
    cbn [fold_left]. destruct Hr as [-> | ->]; cbn [collide bind]; apply IH; auto. }
  induction lines as [| line rest IH]; intros circle; [reflexivity |].
  cbn [bounceOffLines fold_left]. unfold collide at 2. cbn [bind].
  destruct (trig.isLineIntersectingCircle circle line); [| apply IH].
  destruct (physics.bounceCircle fuel circle line) as [circle' | |];
    cbn [bind]; [apply IH | |]; symmetry; apply Hstop; auto.
Qed.

(** Gravity, then motion, is the step that [updateCircle] spells out. *)
Lemma updateCircle_eq (fuel : nat) (lines : list Line.t) (circle : Circle.t) :
  updateCircle fuel lines circle =
  (circle <- bounceOffLines fuel circle lines ;;
   Done (physics.moveCircle (physics.applyGravity circle))).
Proof.
  unfold updateCircle. rewrite bounceOffLines_fold. reflexivity.
Qed.

Section WorldStep.

Variables (fuel : nat) (lines : list Line.t) (dimensions : Vec) (time : Z).

(** The bodies are stepped from the last to the first. *)
Lemma stepCircles_app (front back : list Circle.t) :
  stepCircles fuel lines dimensions (front ++ back) =
  (back' <- stepCircles fuel lines dimensions back ;;
   front' <- stepCircles fuel lines dimensions front ;;
   Done (front' ++ back')).
Proof.
  induction front as [| circle front IH]; cbn [app stepCircles].
  - cbn [bind]. rewrite bind_Done. reflexivity.
  - rewrite IH.
    destruct (stepCircles fuel lines dimensions back) as [back' | |]; cbn [bind];
      try reflexivity.
    destruct (stepCircles fuel lines dimensions front) as [front' | |]; cbn [bind];
      try reflexivity.
    destruct (updateCircle fuel lines circle) as [circle' | |]; cbn [bind];
      try reflexivity.
    destruct (isCircleInWorld circle' dimensions); reflexivity.
Qed.

(** The invariant of the outer loop: when [n] bodies are left to step, the
    bodies behind them are already in their final state, those removed have
    left the array, and the [n] bodies in front are untouched. *)
Lemma updateCirclesFrom_stepCircles (todo : list Circle.t) :
  forall done : list Circle.t,
    updateCirclesFrom fuel (length todo)
      (World.make (todo ++ done) lines dimensions time) =
    (todo' <- stepCircles fuel lines dimensions todo ;;
     Done (World.make (todo' ++ done) lines dimensions time)).
Proof.
  induction todo as [| circle todo IH] using rev_ind; intros done.
  - reflexivity.
  - rewrite length_app, Nat.add_1_r, <- app_assoc. cbn [app].
    cbn [updateCirclesFrom World.circles World.lines World.dimensions
         World.timeLastCircleMade].
    rewrite nth_error_middle, stepCircles_app.
    cbn [stepCircles]. rewrite updateCircle_eq, !bind_assoc.
    destruct (bounceOffLines fuel circle lines) as [bounced | |]; cbn [bind];
      try reflexivity.
    rewrite store_middle.
    destruct (isCircleInWorld
                (physics.moveCircle (physics.applyGravity bounced)) dimensions);
      cbn [negb bind].
    + rewrite IH.
      destruct (stepCircles fuel lines dimensions todo) as [todo' | |]; cbn [bind];
        try reflexivity.
      rewrite <- app_assoc. reflexivity.
    + rewrite splice_middle, IH.
      destruct (stepCircles fuel lines dimensions todo) as [todo' | |]; cbn [bind];
        try reflexivity.
      rewrite app_nil_r. reflexivity.
Qed.

End WorldStep.

Lemma stepCircles_Done (fuel : nat) (lines : list Line.t) (dimensions : Vec) :
  forall circles circles' : list Circle.t,
    stepCircles fuel lines dimensions circles = Done circles' ->
    exists updated : list Circle.t,
      Forall2 (fun circle circle' => updateCircle fuel lines circle = Done circle')
              circles updated /\
      circles' = filter (fun circle' => isCircleInWorld circle' dimensions) updated.
Proof.
  induction circles as [| circle rest IH]; intros circles' H; cbn [stepCircles] in H.
  - injection H as <-. exists []. split; [constructor | reflexivity].
  - destruct (stepCircles fuel lines dimensions rest) as [rest' | |];
      try discriminate.
    destruct (IH rest' eq_refl) as [updated [Hall Hrest]].
    cbn [bind] in H.
    destruct (updateCircle fuel lines circle) as [circle' | |] eqn:Hc;
      try discriminate.
    cbn [bind] in H. injection H as <-.
    exists (circle' :: updated). split; [constructor; assumption |].
    cbn [filter]. rewrite <- Hrest. reflexivity.
Qed.

Lemma updateCircles_stepCircles (fuel : nat) (world : World.t) :
  updateCircles fuel world =
  (circles' <- stepCircles fuel (World.lines world) (World.dimensions world)
                 (World.circles world) ;;
   Done (World.make circles' (World.lines world) (World.dimensions world)
           (World.timeLastCircleMade world))).
Proof.
  destruct world as [circles lines dimensions time]. unfold updateCircles.
  cbn [World.circles World.lines World.dimensions World.timeLastCircleMade].
  pose proof (updateCirclesFrom_stepCircles fuel lines dimensions time circles [])
    as H.
  rewrite app_nil_r in H. rewrite H.
  destruct (stepCircles fuel lines dimensions circles) as [circles' | |];
    cbn [bind]; try reflexivity.
  rewrite app_nil_r. reflexivity.
Qed.

Lemma updateCircles_Done (fuel : nat) (world world' : World.t) :
  updateCircles fuel world = Done world' ->
  exists updated : list Circle.t,
    Forall2 (fun circle circle' =>
               updateCircle fuel (World.lines world) circle = Done circle')
            (World.circles world) updated /\
    World.circles world' =
    filter (fun circle' => isCircleInWorld circle' (World.dimensions world)) updated /\
    World.lines world' = World.lines world /\
    World.dimensions world' = World.dimensions world /\
    World.timeLastCircleMade world' = World.timeLastCircleMade world.
Proof.
  rewrite updateCircles_stepCircles. intros H.
  destruct (stepCircles fuel (World.lines world) (World.dimensions world)
              (World.circles world)) as [circles' | |] eqn:Hs;
    try discriminate.
  cbn [bind] in H. injection H as <-.
  destruct (stepCircles_Done _ _ _ _ _ Hs) as [updated [Hall Hf]].
  exists updated. cbn [World.circles World.lines World.dimensions
                       World.timeLastCircleMade]. auto.
Qed.

(** The loop never reads [world.circles[i]] out of range: no run ends in a
    [TypeError]. *)
Lemma bounceOffLines_no_TypeError (fuel : nat) (lines : list Line.t) :
  forall circle : Circle.t, bounceOffLines fuel circle lines <> TypeError.
Proof.
  induction lines as [| line rest IH]; intros circle; cbn [bounceOffLines].
  - discriminate.
  - destruct (trig.isLineIntersectingCircle circle line); [| apply IH].
    unfold physics.bounceCircle.
    pose proof (moveUntilClear_no_TypeError fuel
                  (physics.reflectVelocity circle line) line) as Hm.
    destruct (physics.moveUntilClear fuel (physics.reflectVelocity circle line) line);
      cbn [bind]; [apply IH | discriminate | contradiction].
Qed.

Lemma stepCircles_no_TypeError (fuel : nat) (lines : list Line.t) (dimensions : Vec) :
  forall circles : list Circle.t,
    stepCircles fuel lines dimensions circles <> TypeError.
Proof.
  induction circles as [| circle rest IH]; cbn [stepCircles]; [discriminate |].
  destruct (stepCircles fuel lines dimensions rest) as [rest' | |]; cbn [bind];
    [| discriminate | contradiction].
  rewrite updateCircle_eq.
  pose proof (bounceOffLines_no_TypeError fuel lines circle) as Hb.
  destruct (bounceOffLines fuel circle lines); cbn [bind];
    [discriminate | discriminate | contradiction].
Qed.

Lemma updateCircles_no_TypeError (fuel : nat) (world : World.t) :
  updateCircles fuel world <> TypeError.
Proof.
  rewrite updateCircles_stepCircles.
  pose proof (stepCircles_no_TypeError fuel (World.lines world)
                (World.dimensions world) (World.circles world)) as Hs.
  destruct (stepCircles fuel (World.lines world) (World.dimensions world)
              (World.circles world)); cbn [bind];
    [discriminate | discriminate | contradiction].
Qed.


(** ** Post-condition of a bounce (C5) *)

(** C5.  Whenever [physics.bounceCircle] returns, the circle it returns does
    not intersect the line it bounced off. *)
Theorem bounceCircle_clears_line
  (fuel : nat) (circle circle' : Circle.t) (line : Line.t) :
  physics.bounceCircle fuel circle line = Done circle' ->
  trig.isLineIntersectingCircle circle' line = false.
Proof.
  unfold physics.bounceCircle. intros H.
  apply moveUntilClear_Done in H. apply H.
Qed.

(** ** The velocity after a bounce *)

Lemma reflectVelocity_reflected (circle : Circle.t) (line : Line.t) :
  physics.reflectVelocity circle line =
  {| Circle.center := Circle.center circle;
     Circle.velocity :=
       reflected (Circle.velocity circle) (physics.bounceLineNormal circle line);
     Circle.radius := Circle.radius circle |}.
Proof. reflexivity. Qed.

(** A circle that [physics.bounceCircle] returns has the velocity
    [v - 2 (v . n) n], computed in the arithmetic of the program from the
    velocity [v] it came with and the normal [n] of the contact; the loop
    that follows the reflection leaves the velocity as it is. *)
Lemma bounceCircle_reflects_the_velocity
  (fuel : nat) (circle circle' : Circle.t) (line : Line.t) :
  physics.bounceCircle fuel circle line = Done circle' ->
  Circle.velocity circle' =
  reflected (Circle.velocity circle) (physics.bounceLineNormal circle line).
Proof.
  unfold physics.bounceCircle. intros H.
  apply moveUntilClear_Done in H. destruct H as [_ [H _]].
  rewrite H, reflectVelocity_reflected. reflexivity.
Qed.

(** ** When the loop that clears the line ends (C4) *)


(** ** The step of the world (C7) *)

(** C7.  [updateCircles], which walks the array from its last index down and
    splices out the bodies that left the world, computes the step of all
    bodies of the specification: every body is stepped exactly once by
    [updateCircle] (test and bounce against every line in the order of the
    list, then the gravity constant added to the vertical velocity, then
    the velocity added to the center), then tested against the world, and a
    removal changes nothing for the bodies still to come.  When it returns,
    the bodies of the new world are the stepped bodies that are in the world,
    in their order. *)
Theorem updateCircles_steps_each_circle_once :
  (forall (fuel : nat) (world : World.t),
      updateCircles fuel world =
      (circles' <- stepCircles fuel (World.lines world) (World.dimensions world)
                     (World.circles world) ;;
       Done (World.make circles' (World.lines world) (World.dimensions world)
               (World.timeLastCircleMade world)))) /\
  (forall (fuel : nat) (world world' : World.t),
      updateCircles fuel world = Done world' ->
      exists updated : list Circle.t,
        Forall2 (fun circle circle' =>
                   updateCircle fuel (World.lines world) circle = Done circle')
                (World.circles world) updated /\
        World.circles world' =
        filter (fun circle' => isCircleInWorld circle' (World.dimensions world))
               updated).
Proof.
  split; [exact updateCircles_stepCircles |].
  intros fuel world world' H.
  destruct (updateCircles_Done fuel world world' H) as [updated [Hall [Hf _]]].
  exists updated. auto.
Qed.

(** ** The fields that no step changes (C9) *)

Lemma bounceCircle_radius (fuel : nat) (circle circle' : Circle.t) (line : Line.t) :
  physics.bounceCircle fuel circle line = Done circle' ->
  Circle.radius circle' = Circle.radius circle.
Proof.
  unfold physics.bounceCircle. intros H.
  apply moveUntilClear_Done in H. destruct H as [_ [_ Hr]]. exact Hr.
Qed.

Lemma bounceOffLines_radius (fuel : nat) (lines : list Line.t) :
  forall circle circle' : Circle.t,
    bounceOffLines fuel circle lines = Done circle' ->
    Circle.radius circle' = Circle.radius circle.
Proof.
  induction lines as [| line rest IH]; intros circle circle' H;
    cbn [bounceOffLines] in H.
  - injection H as <-. reflexivity.
  - destruct (trig.isLineIntersectingCircle circle line); [| apply IH, H].
    destruct (physics.bounceCircle fuel circle line) as [bounced | |] eqn:Hb;
      try discriminate.
    cbn [bind] in H. apply IH in H. apply bounceCircle_radius in Hb. congruence.
Qed.

Lemma updateCircle_radius (fuel : nat) (lines : list Line.t) (circle circle' : Circle.t) :
  updateCircle fuel lines circle = Done circle' ->
  Circle.radius circle' = Circle.radius circle.
Proof.
  rewrite updateCircle_eq. intros H.
  destruct (bounceOffLines fuel circle lines) as [bounced | |] eqn:Hb;
    try discriminate.
  cbn [bind] in H. injection H as <-. apply bounceOffLines_radius in Hb. exact Hb.
Qed.

Lemma rotateLine_Forall2 (lines : list Line.t) :
  Forall2
    (fun line line' =>
       Line.center line' = Line.center line /\
       Line.len line' = Line.len line /\
       Line.rotateSpeed line' = Line.rotateSpeed line /\
       Line.angle line' = (Line.angle line + Line.rotateSpeed line)%js)
    lines (map rotateLine lines).
Proof.
  induction lines as [| line rest IH]; simpl; constructor; auto.
Qed.

(** C9.  Gravity, motion and a bounce leave the radius of a body as it is,
    and one [update] of the world leaves the center, the length and the
    rotation speed of every line as they are, adding the rotation speed to
    the angle; every body of the new world has the radius of a body of the
    old world, unless it is the body that [createNewCircleIfDue] has just
    made.  What changes is the center and the velocity of a body and the
    angle of a line. *)
Theorem structural_fields_preserved :
  (forall circle : Circle.t,
      Circle.radius (physics.applyGravity circle) = Circle.radius circle) /\
  (forall circle : Circle.t,
      Circle.radius (physics.moveCircle circle) = Circle.radius circle) /\
  (forall (fuel : nat) (circle circle' : Circle.t) (line : Line.t),
      physics.bounceCircle fuel circle line = Done circle' ->
      Circle.radius circle' = Circle.radius circle) /\
  (forall (fuel : nat) (now : Z) (world world' : World.t),
      update fuel now world = Done world' ->
      Forall2
        (fun line line' =>
           Line.center line' = Line.center line /\
           Line.len line' = Line.len line /\
           Line.rotateSpeed line' = Line.rotateSpeed line /\
           Line.angle line' = (Line.angle line + Line.rotateSpeed line)%js)
        (World.lines world) (World.lines world') /\
      Forall
        (fun circle' =>
           (exists circle, In circle (World.circles world) /\
                           Circle.radius circle' = Circle.radius circle) \/
           circle' = makeCircle {| x := (x (World.dimensions world) / lit 2)%js;
                                   y := (- lit 5)%js |})
        (World.circles world')).
Proof.
  split; [reflexivity |].
  split; [reflexivity |].
  split; [exact bounceCircle_radius |].
  intros fuel now world world' H. unfold update in H.
  destruct (updateCircles fuel world) as [world1 | |] eqn:H1; try discriminate.
  cbn [bind] in H. injection H as <-.
  destruct (updateCircles_Done fuel world world1 H1)
    as [updated [Hall [Hf [Hl [Hd _]]]]].
  assert (forall circle', In circle' (World.circles world1) ->
            exists circle, In circle (World.circles world) /\
                           Circle.radius circle' = Circle.radius circle) as Hold.
  { intros circle' Hin. rewrite Hf in Hin. apply filter_In in Hin.
    destruct (Forall2_right_has_left _ _ _ Hall circle' (proj1 Hin))
      as [circle [Hc Hu]].
    exists circle. split; [exact Hc | exact (updateCircle_radius _ _ _ _ Hu)]. }
  unfold createNewCircleIfDue.
  destruct (now - World.timeLastCircleMade world1 >? 400)%Z;
    cbn [updateLines World.lines World.circles]; rewrite Hl;
    (split; [apply rotateLine_Forall2 |]); apply Forall_forall;
    intros circle' Hin.
  - apply in_app_or in Hin. destruct Hin as [Hin | [<- | []]].
    + left. apply Hold, Hin.
    + right. rewrite Hd. reflexivity.
  - left. apply Hold, Hin.
Qed.

(** ** The step of the world, continued *)

(** X10.  [updateCircles] never reads the array of bodies out of range,
    and when it returns it has changed nothing but the bodies: the lines, the
    dimensions and the time of the last creation are as before, and there
    are no more bodies than before. *)
Theorem updateCircles_safe_and_framed (fuel : nat) (world : World.t) :
  updateCircles fuel world <> TypeError /\
  forall world' : World.t,
    updateCircles fuel world = Done world' ->
    World.lines world' = World.lines world /\
    World.dimensions world' = World.dimensions world /\
    World.timeLastCircleMade world' = World.timeLastCircleMade world /\
    (length (World.circles world') <= length (World.circles world))%nat.
Proof.
  split; [apply updateCircles_no_TypeError |].
  intros world' H.
  destruct (updateCircles_Done fuel world world' H)
    as [updated [Hall [Hf [Hl [Hd Ht]]]]].
  repeat split; try assumption.
  rewrite Hf, (Forall2_same_length _ _ _ Hall). apply filter_length_le.
Qed.

(** X11.  [createNewCircleIfDue] makes a body only when more than 400
    milliseconds have passed since the last one was made, then puts it behind
    the others and records the time; otherwise the world stays as it is.
    Called again at the same time it does nothing more. *)
Theorem createNewCircleIfDue_spacing (now : Z) (world : World.t) :
  ((now - World.timeLastCircleMade world <= 400)%Z ->
   createNewCircleIfDue now world = world) /\
  ((now - World.timeLastCircleMade world > 400)%Z ->
   World.circles (createNewCircleIfDue now world) =
   World.circles world ++
   [makeCircle {| x := (x (World.dimensions world) / lit 2)%js;
                  y := (- lit 5)%js |}] /\
   World.timeLastCircleMade (createNewCircleIfDue now world) = now) /\
  createNewCircleIfDue now (createNewCircleIfDue now world) =
  createNewCircleIfDue now world.
Proof.
  unfold createNewCircleIfDue.
  destruct (now - World.timeLastCircleMade world >? 400)%Z eqn:Hdue.
  - apply Z.gtb_lt in Hdue. repeat split; try lia.
    cbn [World.timeLastCircleMade].
    replace (now - now >? 400)%Z with false
      by (symmetry; rewrite Z.gtb_ltb; apply Z.ltb_ge; lia).
    reflexivity.
  - assert (now - World.timeLastCircleMade world <= 400)%Z as Hle.
    { destruct (Z.gtb_spec (now - World.timeLastCircleMade world) 400);
        [discriminate | assumption]. }
    repeat split; try lia. rewrite Hdue. reflexivity.
Qed.

(** ** Bodies that meet no line *)

(** X15.  A body that intersects none of the lines is stepped by gravity
    and motion alone, and the step needs no turn of the loop of
    [physics.bounceCircle]: it returns with any fuel. *)
Theorem updateCircle_free (fuel : nat) (lines : list Line.t) (circle : Circle.t) :
  Forall (fun line => trig.isLineIntersectingCircle circle line = false) lines ->
  updateCircle fuel lines circle = Done (fall circle).
Proof.
  intros Hfree. rewrite updateCircle_eq.
  assert (bounceOffLines fuel circle lines = Done circle) as ->; [| reflexivity].
  induction Hfree as [| line rest Hline _ IH]; cbn [bounceOffLines]; [reflexivity |].
  rewrite Hline. exact IH.
Qed.

(** ** The loop of a bounce makes the fewest moves *)

(** X17.  The circle that [physics.bounceCircle] returns is the circle with
    the reflected velocity moved a number of times, and that number is the
    least one that clears the line: after every smaller number of moves the
    circle still intersects it. *)
Theorem bounceCircle_fewest_moves
  (fuel : nat) (circle circle' : Circle.t) (line : Line.t) :
  physics.bounceCircle fuel circle line = Done circle' ->
  exists k : nat,
    (k < fuel)%nat /\
    circle' = Nat.iter k physics.moveCircle (physics.reflectVelocity circle line) /\
    trig.isLineIntersectingCircle circle' line = false /\
    forall j : nat,
      (j < k)%nat ->
      trig.isLineIntersectingCircle
        (Nat.iter j physics.moveCircle (physics.reflectVelocity circle line)) line = true.
Proof.
  unfold physics.bounceCircle. intros H.
  destruct (moveUntilClear_fewest_moves _ _ _ _ H) as [k [Hk [Hc Hj]]].
  apply moveUntilClear_Done in H.
  exists k. repeat split; try assumption. apply H.
Qed.

(** ** The frames of the simulation *)

Lemma update_Done (fuel : nat) (now : Z) (world world' : World.t) :
  update fuel now world = Done world' ->
  World.lines world' = map rotateLine (World.lines world) /\
  World.dimensions world' = World.dimensions world /\
  (length (World.circles world') <= length (World.circles world) + 1)%nat.
Proof.
  unfold update. intros H.
  destruct (updateCircles fuel world) as [world1 | |] eqn:H1; try discriminate.
  cbn [bind] in H. injection H as <-.
  destruct (updateCircles_Done fuel world world1 H1)
    as [updated [Hall [Hf [Hl [Hd _]]]]].
  assert (length (World.circles world1) <= length (World.circles world))%nat as Hlen.
  { rewrite Hf, (Forall2_same_length _ _ _ Hall). apply filter_length_le. }
  unfold createNewCircleIfDue.
  destruct (now - World.timeLastCircleMade world1 >? 400)%Z;
    cbn [updateLines World.lines World.circles World.dimensions];
    rewrite Hl, Hd; repeat split; try reflexivity.
  - rewrite length_app. simpl. lia.
  - lia.
Qed.

Lemma turned_succ (n : nat) (line : Line.t) :
  turned (S n) line = turned n (rotateLine line).
Proof. unfold turned. apply Nat.iter_succ_r. Qed.

Lemma turned_fields (n : nat) (line : Line.t) :
  Line.center (turned n line) = Line.center line /\
  Line.len (turned n line) = Line.len line /\
  Line.rotateSpeed (turned n line) = Line.rotateSpeed line /\
  Line.angle (turned (S n) line) =
  (Line.angle (turned n line) + Line.rotateSpeed line)%js.
Proof.
  assert (forall k : nat,
             Line.center (turned k line) = Line.center line /\
             Line.len (turned k line) = Line.len line /\
             Line.rotateSpeed (turned k line) = Line.rotateSpeed line) as H.
  { induction k as [| k IH]; [repeat split |].
    unfold turned in *. rewrite Nat.iter_succ. exact IH. }
  destruct (H n) as [Hc [Hl Hr]]. repeat split; try assumption.
  unfold turned in *. rewrite Nat.iter_succ. unfold rotateLine at 1.
  cbn [Line.angle]. rewrite Hr. reflexivity.
Qed.

(** X14.  After any number of frames the world has the lines it started
    with, each turned once per frame: the center, the length and the rotation
    speed are as at the start, and every frame has added the rotation speed
    to the angle, with the addition of the arithmetic and without wrapping.
    The dimensions are as at the start and at most one body per frame has
    been added. *)
Theorem ticks_turn_the_lines (fuel : nat) (nows : list Z) :
  forall world world' : World.t,
    ticks fuel nows world = Done world' ->
    World.lines world' = map (turned (length nows)) (World.lines world) /\
    World.dimensions world' = World.dimensions world /\
    (length (World.circles world') <=
     length (World.circles world) + length nows)%nat /\
    forall (n : nat) (line : Line.t),
      Line.center (turned n line) = Line.center line /\
      Line.len (turned n line) = Line.len line /\
      Line.rotateSpeed (turned n line) = Line.rotateSpeed line /\
      Line.angle (turned (S n) line) =
      (Line.angle (turned n line) + Line.rotateSpeed line)%js.
Proof.
  induction nows as [| now later IH]; intros world world' H; cbn [ticks] in H.
  - injection H as <-. repeat split; try (simpl; lia); try apply turned_fields.
    simpl. symmetry. apply map_id.
  - destruct (update fuel now world) as [world1 | |] eqn:H1; try discriminate.
    cbn [bind] in H.
    destruct (update_Done fuel now world world1 H1) as [Hl [Hd Hlen]].
    destruct (IH world1 world' H) as [Hl' [Hd' [Hlen' _]]].
    split; [| split; [| split]].
    + rewrite Hl', Hl, map_map. apply map_ext. intros line.
      cbn [length]. symmetry. apply turned_succ.
    + congruence.
    + cbn [length]. lia.
    + apply turned_fields.
Qed.

(** ** Hitting the end of a line *)


End EveryArithmetic.

(** * Properties of the program on binary64 numbers *)

(** ** Binary64 arithmetic: [NaN], and a number minus itself *)

Section Binary64.
Local Open Scope float_scope.

Lemma Prim2SF_nan : Prim2SF nan = S754_nan.
Proof. reflexivity. Qed.

Lemma add_nan_l (a : float) : nan + a = nan.
Proof. apply Prim2SF_inj. rewrite add_spec. reflexivity. Qed.

Lemma add_nan_r (a : float) : a + nan = nan.
Proof.
  apply Prim2SF_inj. rewrite add_spec, Prim2SF_nan.
  destruct (Prim2SF a); reflexivity.
Qed.

Lemma sub_nan_l (a : float) : nan - a = nan.
Proof. apply Prim2SF_inj. rewrite sub_spec. reflexivity. Qed.

Lemma sub_nan_r (a : float) : a - nan = nan.
Proof.
  apply Prim2SF_inj. rewrite sub_spec, Prim2SF_nan.
  destruct (Prim2SF a); reflexivity.
Qed.

Lemma mul_nan_l (a : float) : nan * a = nan.
Proof. apply Prim2SF_inj. rewrite mul_spec. reflexivity. Qed.

Lemma mul_nan_r (a : float) : a * nan = nan.
Proof.
  apply Prim2SF_inj. rewrite mul_spec, Prim2SF_nan.
  destruct (Prim2SF a); reflexivity.
Qed.

Lemma div_nan_l (a : float) : nan / a = nan.
Proof. apply Prim2SF_inj. rewrite div_spec. reflexivity. Qed.

Lemma div_nan_r (a : float) : a / nan = nan.
Proof.
  apply Prim2SF_inj. rewrite div_spec, Prim2SF_nan.
  destruct (Prim2SF a); reflexivity.
Qed.

Lemma ltb_nan_l (a : float) : (nan <? a) = false.
Proof. rewrite ltb_spec. reflexivity. Qed.

Lemma ltb_nan_r (a : float) : (a <? nan) = false.
Proof.
  rewrite ltb_spec, Prim2SF_nan. destruct (Prim2SF a); reflexivity.
Qed.

Lemma leb_nan_l (a : float) : (nan <=? a) = false.
Proof. rewrite leb_spec. reflexivity. Qed.

Lemma leb_nan_r (a : float) : (a <=? nan) = false.
Proof.
  rewrite leb_spec, Prim2SF_nan. destruct (Prim2SF a); reflexivity.
Qed.

(** No number is below itself. *)
Lemma ltb_irrefl (a : float) : (a <? a) = false.
Proof.
  rewrite ltb_spec. unfold SFltb, SFcompare.
  destruct (Prim2SF a) as [s | s | | s m e];
    try reflexivity; try (destruct s; reflexivity).
  change (IntDef.Z.compare e e) with (Z.compare e e).
  change (PosDef.Pos.compare_cont Eq m m) with (Pos.compare_cont Eq m m).
  rewrite Z.compare_refl, Pos.compare_cont_refl. destruct s; reflexivity.
Qed.

(** A number minus itself is zero, or [NaN] when the number is an infinity or
    [NaN]. *)
Lemma sub_diag (a : float) : a - a = 0 \/ a - a = nan.
Proof.
  destruct (Prim2SF a) as [s | s | | s m e] eqn:Ha.
  - left. apply Prim2SF_inj. rewrite sub_spec, Ha. destruct s; reflexivity.
  - right. apply Prim2SF_inj. rewrite sub_spec, Ha. destruct s; reflexivity.
  - right. apply Prim2SF_inj. rewrite sub_spec, Ha. reflexivity.
  - left. apply Prim2SF_inj. rewrite sub_spec, Ha.
    unfold SF64sub, SFsub. rewrite Z.sub_diag. reflexivity.
Qed.

End Binary64.

(** ** The program on binary64 numbers, for every engine *)

Section EveryEngine.
Context {E : Engine}.
#[local] Existing Instance double.
Local Open Scope float_scope.

(** Reduces the operations of [double] to those of the kernel. *)
Ltac to_float :=
  cbn [num lit add sub mul div neg ltb leb Math_sqrt Math_cos Math_sin double
       x y fst snd Circle.center Circle.velocity Circle.radius
       Line.center Line.len Line.angle Line.rotateSpeed] in *.

(** [trig.unitVector] on a vector whose coordinates are zero or [NaN]: the
    quotients are [0 / 0] or have a [NaN] operand. *)
Lemma unitVector_zero_or_NaN (a b : float) :
  a = 0 \/ a = nan -> b = 0 \/ b = nan ->
  trig.unitVector (vec a b) = vec nan nan.
Proof.
  intros [-> | ->] [-> | ->]; reflexivity.
Qed.

Lemma unitVector_of_no_difference (p : Vec) :
  trig.unitVector (trig.vectorBetween p p) = vec nan nan.
Proof.
  unfold trig.vectorBetween. to_float.
  apply unitVector_zero_or_NaN; apply sub_diag.
Qed.

Lemma distance_from_NaN (q : Vec) : trig.distance (vec nan nan) q = nan.
Proof.
  unfold trig.distance. to_float.
  rewrite !sub_nan_l, !mul_nan_l, add_nan_l. reflexivity.
Qed.

Lemma isLineIntersectingCircle_NaN_center (v : Vec) (r : float) (line : Line.t) :
  trig.isLineIntersectingCircle (Circle.make (vec nan nan) v r) line = false.
Proof.
  unfold trig.isLineIntersectingCircle. to_float.
  rewrite distance_from_NaN. apply ltb_nan_l.
Qed.

Lemma reflected_in_NaN (v : Vec) : reflected v (vec nan nan) = vec nan nan.
Proof.
  unfold reflected. to_float.
  rewrite !mul_nan_r, !sub_nan_r. reflexivity.
Qed.

Lemma bounceOffLines_NaN_center (fuel : nat) (v : Vec) (r : float) (lines : list Line.t) :
  bounceOffLines fuel (Circle.make (vec nan nan) v r) lines =
  Done (Circle.make (vec nan nan) v r).
Proof.
  induction lines as [| line rest IH]; cbn [bounceOffLines]; [reflexivity |].
  rewrite isLineIntersectingCircle_NaN_center. exact IH.
Qed.

(** ** The calls of [trig.unitVector] (C6) *)

Lemma bounceLineNormal_at_the_closest_point (circle : Circle.t) (line : Line.t) :
  trig.pointOnLineClosestToCircle circle line = Circle.center circle ->
  physics.bounceLineNormal circle line = vec nan nan /\
  Circle.velocity (physics.reflectVelocity circle line) = vec nan nan.
Proof.
  intros Hq.
  assert (physics.bounceLineNormal circle line = vec nan nan) as Hn.
  { unfold physics.bounceLineNormal. rewrite Hq.
    apply unitVector_of_no_difference. }
  split; [exact Hn |].
  rewrite reflectVelocity_reflected. cbn [Circle.velocity].
  rewrite Hn. apply reflected_in_NaN.
Qed.

(** C6 (amended).  No call site of [trig.unitVector] tests its argument, and
    on the zero vector it returns [0 / 0] twice, the vector of two [NaN].
    [physics.bounceLineNormal] passes it the vector from the closest point
    to the center of the body: whenever the closest point is the center
    itself the normal and then the reflected velocity are [NaN].
    [trig.pointOnLineClosestToCircle] passes it the vector from end to end:
    whenever the two ends coincide, as they do in binary64 for a short line
    far from the origin, the unit vector along the line is [NaN].  The
    velocity of the body is never an argument: the normal does not depend
    on it. *)
Theorem unitVector_call_sites :
  trig.unitVector (vec 0 0) = vec nan nan /\
  (forall (circle : Circle.t) (line : Line.t),
      physics.bounceLineNormal circle line =
      trig.unitVector (circleToClosestPointOnLineVector circle line)) /\
  (forall (circle : Circle.t) (line : Line.t),
      trig.pointOnLineClosestToCircle circle line = Circle.center circle ->
      physics.bounceLineNormal circle line = vec nan nan /\
      Circle.velocity (physics.reflectVelocity circle line) = vec nan nan) /\
  (forall line : Line.t,
      lineUnitVector line = trig.unitVector (lineVector line)) /\
  (forall line : Line.t,
      fst (trig.lineEndPoints line) = snd (trig.lineEndPoints line) ->
      lineUnitVector line = vec nan nan) /\
  (forall (circle : Circle.t) (velocity : Vec) (line : Line.t),
      physics.bounceLineNormal
        (Circle.make (Circle.center circle) velocity (Circle.radius circle)) line =
      physics.bounceLineNormal circle line).
Proof.
  split; [reflexivity |].
  split; [reflexivity |].
  split; [exact bounceLineNormal_at_the_closest_point |].
  split; [reflexivity |].
  split.
  - intros line H. unfold lineUnitVector. rewrite H.
    apply unitVector_of_no_difference.
  - reflexivity.
Qed.

(** ** A body whose closest point is its center *)

(** X13.  When the closest point that the program computes is the center of
    the body and the body intersects the line, the bounce destroys the body:
    the normal is [0 / 0], the velocity and then the center become [NaN], the
    loop ends after one move, and the step of the bodies removes the body
    from the world. *)
Theorem body_centered_on_line_is_lost
  (circle : Circle.t) (line : Line.t) (others : list Line.t) (dimensions : Vec)
  (fuel : nat) :
  trig.pointOnLineClosestToCircle circle line = Circle.center circle ->
  trig.isLineIntersectingCircle circle line = true ->
  physics.bounceCircle (S (S fuel)) circle line =
  Done (Circle.make (vec nan nan) (vec nan nan) (Circle.radius circle)) /\
  stepCircles (S (S fuel)) (line :: others) dimensions [circle] = Done [].
Proof.
  intros Hq Hi.
  destruct (bounceLineNormal_at_the_closest_point circle line Hq) as [_ Hv].
  assert (physics.reflectVelocity circle line =
          Circle.make (Circle.center circle) (vec nan nan) (Circle.radius circle))
    as Hr.
  { rewrite reflectVelocity_reflected in Hv |- *. cbn [Circle.velocity] in Hv.
    rewrite Hv. reflexivity. }
  assert (physics.bounceCircle (S (S fuel)) circle line =
          Done (Circle.make (vec nan nan) (vec nan nan) (Circle.radius circle)))
    as Hb.
  { unfold physics.bounceCircle. rewrite Hr. cbn [physics.moveUntilClear].
    change (trig.isLineIntersectingCircle
              (Circle.make (Circle.center circle) (vec nan nan) (Circle.radius circle))
              line)
      with (trig.isLineIntersectingCircle circle line).
    rewrite Hi. unfold physics.moveCircle. to_float. rewrite !add_nan_r.
    rewrite isLineIntersectingCircle_NaN_center. reflexivity. }
  split; [exact Hb |].
  cbn [stepCircles bind]. rewrite updateCircle_eq. cbn [bounceOffLines].
  rewrite Hi, Hb. cbn [bind]. rewrite bounceOffLines_NaN_center. cbn [bind].
  unfold isCircleInWorld, physics.moveCircle, physics.applyGravity, gtb.
  to_float. rewrite !add_nan_l, ltb_nan_r. reflexivity.
Qed.

(** ** A line at the angle 0

    The engine computes the cosine and the sine of [0 * 0.01745], which is
    zero: their values are those that ECMAScript fixes, the heading is
    [(1, 0)] exactly, and everything the program computes on such a line is
    the same for every engine. *)

Lemma lineEndPoints_angle_0 (center : Vec) (len rotateSpeed : float) :
  trig.lineEndPoints (Line.make center len 0 rotateSpeed) =
  (vec (x center + 1 * len / 2) (y center + 0 * len / 2),
   vec (x center - 1 * len / 2) (y center - 0 * len / 2)).
Proof.
  unfold trig.lineEndPoints. to_float.
  change (0 * double_lit 0.01745) with 0.
  rewrite cos_of_zero, sin_of_zero. reflexivity.
Qed.

(** X23.  The ends of each line of the initial world, which are horizontal
    and of length 70, are computed at a distance of exactly 70, whatever the
    engine. *)
Theorem lineEndPoints_of_the_initial_lines (canvas : Vec) (line : Line.t) :
  In line (World.lines (initialWorld canvas)) ->
  trig.distance (fst (trig.lineEndPoints line)) (snd (trig.lineEndPoints line)) =
  Line.len line.
Proof.
  cbn [initialWorld World.lines map In]. unfold makeLine. to_float.
  change (double_lit 0) with 0.
  intros H; repeat (destruct H as [<- | H]; [rewrite lineEndPoints_angle_0; vm_compute; reflexivity |]).
  destruct H.
Qed.

End EveryEngine.

Section EngineIndependence.
Variables E1 E2 : Engine.
Variables (center : VecOf float) (len rotateSpeed : float).

Local Abbreviation line := (Line.make center len 0%float rotateSpeed).

Lemma lineEndPoints_same :
  @trig.lineEndPoints (@double E1) line = @trig.lineEndPoints (@double E2) line.
Proof.
  rewrite (@lineEndPoints_angle_0 E1), (@lineEndPoints_angle_0 E2). reflexivity.
Qed.

Lemma pointOnLineClosestToCircle_same (circle : Circle.over float) :
  @trig.pointOnLineClosestToCircle (@double E1) circle line =
  @trig.pointOnLineClosestToCircle (@double E2) circle line.
Proof.
  unfold trig.pointOnLineClosestToCircle. rewrite lineEndPoints_same. reflexivity.
Qed.

Lemma isLineIntersectingCircle_same (circle : Circle.over float) :
  @trig.isLineIntersectingCircle (@double E1) circle line =
  @trig.isLineIntersectingCircle (@double E2) circle line.
Proof.
  unfold trig.isLineIntersectingCircle.
  rewrite pointOnLineClosestToCircle_same. reflexivity.
Qed.

Lemma reflectVelocity_same (circle : Circle.over float) :
  @physics.reflectVelocity (@double E1) circle line =
  @physics.reflectVelocity (@double E2) circle line.
Proof.
  unfold physics.reflectVelocity, physics.bounceLineNormal.
  rewrite pointOnLineClosestToCircle_same. reflexivity.
Qed.

Lemma moveUntilClear_same (fuel : nat) :
  forall circle : Circle.over float,
    @physics.moveUntilClear (@double E1) fuel circle line =
    @physics.moveUntilClear (@double E2) fuel circle line.
Proof.
  induction fuel as [| fuel IH]; intros circle; [reflexivity |].
  cbn [physics.moveUntilClear]. rewrite isLineIntersectingCircle_same.
  destruct (@trig.isLineIntersectingCircle (@double E2) circle line);
    [| reflexivity].
  change (@physics.moveCircle (@double E1) circle)
    with (@physics.moveCircle (@double E2) circle).
  apply IH.
Qed.

Lemma bounceCircle_same (fuel : nat) (circle : Circle.over float) :
  @physics.bounceCircle (@double E1) fuel circle line =
  @physics.bounceCircle (@double E2) fuel circle line.
Proof.
  unfold physics.bounceCircle. rewrite reflectVelocity_same.
  apply moveUntilClear_same.
Qed.

End EngineIndependence.
(** * Rounding in binary64

    The operations of binary64 are specified by [SpecFloat]: the exact result
    is rounded to the nearest number, ties to even.  This part derives from
    that specification the error of each operation. *)

Section Powers.
Local Open Scope R_scope.

Lemma bpow_pos (e : Z) : 0 < bpow e.
Proof. apply powerRZ_lt. lra. Qed.

Lemma bpow_add (a b : Z) : bpow (a + b) = bpow a * bpow b.
Proof. apply powerRZ_add. lra. Qed.

Lemma bpow_0 : bpow 0 = 1.
Proof. reflexivity. Qed.

Lemma bpow_1 : bpow 1 = 2.
Proof. unfold bpow. simpl. lra. Qed.

Lemma bpow_succ (e : Z) : bpow (e + 1) = 2 * bpow e.
Proof. rewrite bpow_add, bpow_1. lra. Qed.

Lemma bpow_pred (e : Z) : bpow (e - 1) = / 2 * bpow e.
Proof.
  replace e with ((e - 1) + 1)%Z at 2 by lia. rewrite bpow_succ. lra.
Qed.

Lemma bpow_opp (e : Z) : bpow (- e) = / bpow e.
Proof. apply powerRZ_neg'. Qed.

Lemma bpow_IZR (n : Z) : (0 <= n)%Z -> bpow n = IZR (2 ^ n).
Proof.
  intros Hn. destruct n as [| p | p]; [reflexivity | | lia].
  unfold bpow. rewrite <- Zpower_pos_powerRZ. reflexivity.
Qed.

Lemma bpow_ge_1 (n : Z) : (0 <= n)%Z -> 1 <= bpow n.
Proof.
  intros Hn. rewrite bpow_IZR by exact Hn. apply IZR_le.
  assert (0 < 2 ^ n)%Z by (apply Z.pow_pos_nonneg; lia). lia.
Qed.

Lemma bpow_le (a b : Z) : (a <= b)%Z -> bpow a <= bpow b.
Proof.
  intros H. replace b with (a + (b - a))%Z by lia. rewrite bpow_add.
  pose proof (bpow_pos a). pose proof (bpow_ge_1 (b - a) ltac:(lia)). nra.
Qed.

Lemma bpow_lt (a b : Z) : (a < b)%Z -> bpow a < bpow b.
Proof.
  intros H. replace b with ((a + 1) + (b - a - 1))%Z by lia.
  rewrite bpow_add, bpow_succ.
  pose proof (bpow_pos a). pose proof (bpow_ge_1 (b - a - 1) ltac:(lia)). nra.
Qed.

Lemma bpow_lt_inv (a b : Z) : bpow a < bpow b -> (a < b)%Z.
Proof.
  intros H. destruct (Z_lt_le_dec a b) as [Hlt | Hle]; [exact Hlt |].
  apply bpow_le in Hle. lra.
Qed.

Lemma bpow_le_inv (a b : Z) : bpow a <= bpow b -> (a <= b)%Z.
Proof.
  intros H. destruct (Z_lt_le_dec b a) as [Hlt | Hle]; [| exact Hle].
  apply bpow_lt in Hlt. lra.
Qed.

Lemma Rabs_le_inv (a b : R) : Rabs a <= b -> - b <= a <= b.
Proof. unfold Rabs. destruct (Rcase_abs a); lra. Qed.

End Powers.

Section Digits.
Local Open Scope Z_scope.

Lemma digits2_pos_size (p : positive) : digits2_pos p = Pos.size p.
Proof. induction p; simpl; congruence. Qed.

Lemma Zdigits2_bounds (m : Z) :
  0 < m -> 2 ^ (Zdigits2 m - 1) <= m < 2 ^ Zdigits2 m.
Proof.
  destruct m as [| p | p]; try lia. intros _. cbn [Zdigits2].
  rewrite digits2_pos_size. split.
  - pose proof (Pos.size_le p) as H.
    assert (2 ^ Z.pos (Pos.size p) <= Z.pos p~0) as H'.
    { rewrite <- Pos2Z.inj_pow. apply Pos2Z.pos_le_pos. exact H. }
    replace (Z.pos (Pos.size p)) with ((Z.pos (Pos.size p) - 1) + 1) in H' by lia.
    rewrite Z.pow_add_r in H' by lia. lia.
  - pose proof (Pos.size_gt p) as H.
    rewrite <- Pos2Z.inj_pow. apply Pos2Z.pos_lt_pos. exact H.
Qed.

Lemma Zdigits2_nonneg (m : Z) : 0 <= Zdigits2 m.
Proof. destruct m; simpl; lia. Qed.

Lemma Zdigits2_pos (m : Z) : 0 < m -> 0 < Zdigits2 m.
Proof. destruct m; simpl; lia. Qed.

Lemma Zdigits2_unique (m k : Z) :
  2 ^ (k - 1) <= m < 2 ^ k -> 0 < m -> Zdigits2 m = k.
Proof.
  intros [Hlo Hhi] Hm. pose proof (Zdigits2_bounds m Hm) as [Hlo' Hhi'].
  pose proof (Zdigits2_pos m Hm) as Hd.
  assert (0 < k) as Hk.
  { destruct (Z_lt_le_dec 0 k); [assumption |].
    destruct (Z.eq_dec k 0) as [-> | ]; [simpl in Hhi; lia |].
    rewrite Z.pow_neg_r in Hhi by lia. lia. }
  destruct (Z_lt_le_dec (Zdigits2 m) k) as [H1 | H1].
  - assert (2 ^ Zdigits2 m <= 2 ^ (k - 1)) by (apply Z.pow_le_mono_r; lia). lia.
  - destruct (Z_lt_le_dec k (Zdigits2 m)) as [H2 | H2]; [| lia].
    assert (2 ^ k <= 2 ^ (Zdigits2 m - 1)) by (apply Z.pow_le_mono_r; lia). lia.
Qed.

Lemma Zdigits2_le (m n : Z) : 0 <= m <= n -> Zdigits2 m <= Zdigits2 n.
Proof.
  intros [Hm Hmn].
  destruct (Z.eq_dec m 0) as [-> | Hm0]; [apply Zdigits2_nonneg |].
  pose proof (Zdigits2_bounds m ltac:(lia)) as [Hlo _].
  pose proof (Zdigits2_bounds n ltac:(lia)) as [_ Hhi].
  destruct (Z_lt_le_dec (Zdigits2 n) (Zdigits2 m)) as [H | H]; [| exact H].
  assert (2 ^ Zdigits2 n <= 2 ^ (Zdigits2 m - 1)).
  { apply Z.pow_le_mono_r; [lia |]. lia. }
  lia.
Qed.

Lemma Zdigits2_ge (m k : Z) : 0 <= k -> 2 ^ k <= m -> k + 1 <= Zdigits2 m.
Proof.
  intros Hk H.
  assert (0 < m) as Hm by (pose proof (Z.pow_pos_nonneg 2 k); lia).
  pose proof (Zdigits2_bounds m Hm) as [_ Hhi].
  destruct (Z_lt_le_dec (Zdigits2 m) (k + 1)) as [Hlt | Hle]; [| exact Hle].
  assert (2 ^ Zdigits2 m <= 2 ^ k).
  { apply Z.pow_le_mono_r; [lia |]. lia. }
  lia.
Qed.

End Digits.

Section RoundingCore.
Local Open Scope R_scope.

Lemma fexp64_eq (e : Z) : fexp64 e = Z.max (e - 53) (-1074).
Proof. reflexivity. Qed.

Lemma inbetween_int_bounds (m : Z) (l : location) (t : R) :
  inbetween_int m l t -> IZR m <= t < IZR m + 1.
Proof. destruct l as [| []]; simpl; lra. Qed.

Lemma loc_of_shr_record_of_loc (m : Z) (l : location) :
  loc_of_shr_record (shr_record_of_loc m l) = l /\
  shr_m (shr_record_of_loc m l) = m.
Proof. destruct l as [| []]; split; reflexivity. Qed.

Lemma IZR_xO (p : positive) : IZR (Zpos p~0) = 2 * IZR (Zpos p).
Proof. change (Zpos p~0) with (2 * Zpos p)%Z. rewrite mult_IZR. reflexivity. Qed.

Lemma IZR_xI (p : positive) : IZR (Zpos p~1) = 2 * IZR (Zpos p) + 1.
Proof.
  change (Zpos p~1) with (2 * Zpos p + 1)%Z. rewrite plus_IZR, mult_IZR. reflexivity.
Qed.

Lemma shr_1_correct (mrs : shr_record) (t : R) :
  (0 <= shr_m mrs)%Z ->
  inbetween_int (shr_m mrs) (loc_of_shr_record mrs) t ->
  (0 <= shr_m (shr_1 mrs))%Z /\
  inbetween_int (shr_m (shr_1 mrs)) (loc_of_shr_record (shr_1 mrs)) (t / 2).
Proof.
  destruct mrs as [m r s]. cbn [shr_m]. intros Hm H.
  destruct m as [| p | p]; [| | lia].
  - destruct r, s; cbn in *; split; try lia; lra.
  - destruct p as [p | p |]; destruct r, s; cbn [shr_1 orb shr_m loc_of_shr_record inbetween_int] in *;
      try rewrite IZR_xO in H; try rewrite IZR_xI in H;
      (split; [lia | lra]).
Qed.

Lemma iter_pos_shr_1_correct (p : positive) :
  forall (mrs : shr_record) (t : R),
    (0 <= shr_m mrs)%Z ->
    inbetween_int (shr_m mrs) (loc_of_shr_record mrs) t ->
    (0 <= shr_m (SpecFloat.iter_pos shr_1 p mrs))%Z /\
    inbetween_int (shr_m (SpecFloat.iter_pos shr_1 p mrs))
                  (loc_of_shr_record (SpecFloat.iter_pos shr_1 p mrs)) (t / bpow (Zpos p)).
Proof.
  induction p as [p IH | p IH |]; intros mrs t Hm H; cbn [SpecFloat.iter_pos].
  - destruct (shr_1_correct mrs t Hm H) as [H1 H2].
    destruct (IH _ _ H1 H2) as [H3 H4].
    destruct (IH _ _ H3 H4) as [H5 H6].
    split; [exact H5 |].
    replace (t / bpow (Zpos p~1)) with (t / 2 / bpow (Zpos p) / bpow (Zpos p)); [exact H6 |].
    replace (Z.pos p~1) with (Zpos p + Zpos p + 1)%Z by lia.
    rewrite !bpow_add, bpow_1. pose proof (bpow_pos (Zpos p)). field. lra.
  - destruct (IH _ _ Hm H) as [H3 H4].
    destruct (IH _ _ H3 H4) as [H5 H6].
    split; [exact H5 |].
    replace (t / bpow (Zpos p~0)) with (t / bpow (Zpos p) / bpow (Zpos p)); [exact H6 |].
    replace (Z.pos p~0) with (Zpos p + Zpos p)%Z by lia.
    rewrite !bpow_add. pose proof (bpow_pos (Zpos p)). field. lra.
  - destruct (shr_1_correct mrs t Hm H) as [H1 H2].
    split; [exact H1 |]. rewrite bpow_1. exact H2.
Qed.

End RoundingCore.

Section RoundingSteps.
Local Open Scope R_scope.

Lemma shr_fexp_correct (mx ex : Z) (lx : location) (t : R) :
  (0 <= mx)%Z -> inbetween_int mx lx t ->
  (ex <= fexp64 (Zdigits2 mx + ex))%Z ->
  snd (shr_fexp prec emax mx ex lx) = fexp64 (Zdigits2 mx + ex) /\
  (0 <= shr_m (fst (shr_fexp prec emax mx ex lx)))%Z /\
  inbetween_int (shr_m (fst (shr_fexp prec emax mx ex lx)))
                (loc_of_shr_record (fst (shr_fexp prec emax mx ex lx)))
                (t * bpow ex / bpow (fexp64 (Zdigits2 mx + ex))).
Proof.
  intros Hm Ht He. unfold shr_fexp. fold (fexp64 (Zdigits2 mx + ex)).
  set (e' := fexp64 (Zdigits2 mx + ex)) in *.
  destruct (loc_of_shr_record_of_loc mx lx) as [Hl Hs].
  unfold shr.
  destruct (e' - ex)%Z as [| p | p] eqn:Hn; cbn [fst snd].
  - assert (e' = ex) as -> by lia. rewrite Hl, Hs.
    split; [reflexivity |]. split; [exact Hm |].
    replace (t * bpow ex / bpow ex) with t; [exact Ht |].
    pose proof (bpow_pos ex). field. lra.
  - split; [lia |].
    replace (t * bpow ex / bpow e') with (t / bpow (Zpos p)).
    + apply iter_pos_shr_1_correct; [rewrite Hs; exact Hm |].
      rewrite Hl, Hs. exact Ht.
    + replace e' with (ex + Zpos p)%Z by lia. rewrite bpow_add.
      pose proof (bpow_pos ex). pose proof (bpow_pos (Zpos p)). field. lra.
  - lia.
Qed.

Lemma round_nearest_even_correct (m : Z) (l : location) (t : R) :
  inbetween_int m l t ->
  (m <= round_nearest_even m l <= m + 1)%Z /\
  Rabs (IZR (round_nearest_even m l) - t) <= / 2 /\
  (l = loc_Exact -> round_nearest_even m l = m).
Proof.
  intros H. destruct l as [| []]; cbn [round_nearest_even inbetween_int] in *.
  - split; [lia |]. split; [| reflexivity]. rewrite H. rewrite Rminus_diag, Rabs_R0. lra.
  - destruct (Z.even m); (split; [lia |]); (split; [| discriminate]);
      try rewrite plus_IZR; rewrite H; apply Rabs_le; lra.
  - split; [lia |]. split; [| discriminate]. apply Rabs_le; lra.
  - split; [lia |]. split; [| discriminate]. rewrite plus_IZR. apply Rabs_le; lra.
Qed.

End RoundingSteps.

Section RoundingAssembly.
Local Open Scope R_scope.

Lemma fexp64_spec (e : Z) :
  (fexp64 e = e - 53 /\ -1074 <= e - 53)%Z \/ (fexp64 e = -1074 /\ e - 53 <= -1074)%Z.
Proof. rewrite fexp64_eq. lia. Qed.

Lemma IZR_pow2 (k : Z) : (0 <= k)%Z -> IZR (2 ^ k) = bpow k.
Proof. intros H. symmetry. apply bpow_IZR. exact H. Qed.

(** A positive integer with [d] binary digits lies between [2^(d-1)] and [2^d]. *)
Lemma Zdigits2_bpow (m : Z) :
  (0 < m)%Z -> bpow (Zdigits2 m - 1) <= IZR m /\ IZR m + 1 <= bpow (Zdigits2 m).
Proof.
  intros Hm. pose proof (Zdigits2_bounds m Hm) as [Hlo Hhi].
  pose proof (Zdigits2_pos m Hm) as Hd.
  rewrite !bpow_IZR by lia. split.
  - apply IZR_le. exact Hlo.
  - rewrite <- plus_IZR. apply IZR_le. lia.
Qed.

Lemma digits_of_scaled (mx m' n : Z) (t : R) :
  (0 <= mx)%Z -> IZR mx <= t < IZR mx + 1 ->
  (0 <= n)%Z -> (0 <= m')%Z ->
  IZR m' <= t / bpow n < IZR m' + 1 ->
  ((n < Zdigits2 mx)%Z -> Zdigits2 m' = (Zdigits2 mx - n)%Z /\ (0 < m')%Z) /\
  ((Zdigits2 mx <= n)%Z -> m' = 0%Z).
Proof.
  intros Hmx Ht Hn Hm' Ht'.
  pose proof (bpow_pos n) as Hbn.
  assert (t = t / bpow n * bpow n) as Htt by (field; lra).
  destruct (Z.eq_dec mx 0) as [-> | Hmx0].
  - cbn [Zdigits2]. split; [lia |]. intros _.
    pose proof (bpow_ge_1 n Hn).
    assert (t / bpow n < 1) as Hlt.
    { apply Rmult_lt_reg_r with (bpow n); [lra |]. rewrite <- Htt. simpl in Ht. lra. }
    assert (IZR m' < 1) as H1 by lra.
    apply lt_IZR in H1. lia.
  - destruct (Zdigits2_bpow mx ltac:(lia)) as [Hlo Hhi].
    set (d := Zdigits2 mx) in *.
    assert (bpow (d - 1 - n) <= t / bpow n) as Hlo'.
    { apply Rmult_le_reg_r with (bpow n); [lra |].
      rewrite <- Htt, <- bpow_add. replace (d - 1 - n + n)%Z with (d - 1)%Z by lia. lra. }
    assert (t / bpow n < bpow (d - n)) as Hhi'.
    { apply Rmult_lt_reg_r with (bpow n); [lra |].
      rewrite <- Htt, <- bpow_add. replace (d - n + n)%Z with d by lia. lra. }
    split.
    + intros Hnd.
      assert (IZR m' < IZR (2 ^ (d - n))) as H1
          by (rewrite IZR_pow2 by lia; lra).
      assert (IZR (2 ^ (d - n - 1)) < IZR (m' + 1)) as H2.
      { rewrite IZR_pow2 by lia. rewrite plus_IZR.
        replace (d - n - 1)%Z with (d - 1 - n)%Z by lia. lra. }
      apply lt_IZR in H1. apply lt_IZR in H2.
      assert (0 < 2 ^ (d - n - 1))%Z by (apply Z.pow_pos_nonneg; lia).
      split; [| lia]. apply Zdigits2_unique; lia.
    + intros Hdn.
      assert (bpow (d - n) <= 1).
      { change 1 with (bpow 0). apply bpow_le. lia. }
      assert (IZR m' < 1) as H1 by lra.
      apply lt_IZR in H1. lia.
Qed.

Lemma Zdigits2_succ (m : Z) : (0 <= m)%Z -> (Zdigits2 (m + 1) <= Zdigits2 m + 1)%Z.
Proof.
  intros Hm. destruct (Z.eq_dec m 0) as [-> | H0]; [simpl; lia |].
  pose proof (Zdigits2_bounds m ltac:(lia)) as [_ Hhi].
  pose proof (Zdigits2_bounds (m + 1) ltac:(lia)) as [Hlo _].
  pose proof (Zdigits2_pos m ltac:(lia)).
  destruct (Z_lt_le_dec (Zdigits2 m + 1) (Zdigits2 (m + 1))) as [H1 | H1]; [| exact H1].
  assert (2 ^ (Zdigits2 m + 1) <= 2 ^ (Zdigits2 (m + 1) - 1))%Z as Hp
    by (apply Z.pow_le_mono_r; lia).
  rewrite Z.pow_add_r in Hp by lia. lia.
Qed.

(** An integer of the next number of digits that is one more is a power of
    two. *)
Lemma Zdigits2_succ_even (m : Z) :
  (0 < m)%Z -> Zdigits2 (m + 1) = (Zdigits2 m + 1)%Z -> Z.even (m + 1) = true.
Proof.
  intros Hm H.
  pose proof (Zdigits2_bounds m Hm) as [_ Hhi].
  pose proof (Zdigits2_bounds (m + 1) ltac:(lia)) as [Hlo _].
  pose proof (Zdigits2_pos m Hm) as Hd.
  rewrite H in Hlo. replace (Zdigits2 m + 1 - 1)%Z with (Zdigits2 m) in Hlo by lia.
  assert (m + 1 = 2 ^ Zdigits2 m)%Z as -> by lia.
  replace (Zdigits2 m) with (1 + (Zdigits2 m - 1))%Z by lia.
  rewrite Z.pow_add_r by lia. rewrite Z.even_mul. reflexivity.
Qed.

Lemma shr_fexp_exact (m e : Z) :
  (0 <= m)%Z ->
  (fexp64 (Zdigits2 m + e) <= e + 1)%Z ->
  (fexp64 (Zdigits2 m + e) = e + 1 -> Z.even m = true)%Z ->
  (0 <= shr_m (fst (shr_fexp prec emax m e loc_Exact)))%Z /\
  F2R (shr_m (fst (shr_fexp prec emax m e loc_Exact)))
      (snd (shr_fexp prec emax m e loc_Exact)) = F2R m e /\
  snd (shr_fexp prec emax m e loc_Exact) = Z.max e (fexp64 (Zdigits2 m + e)).
Proof.
  intros Hm Hle Heven. unfold shr_fexp. fold (fexp64 (Zdigits2 m + e)).
  set (e' := fexp64 (Zdigits2 m + e)) in *. unfold shr.
  destruct (e' - e)%Z as [| p | p] eqn:Hn; cbn [fst snd shr_record_of_loc shr_m].
  - split; [exact Hm |]. split; [reflexivity | lia].
  - assert (p = 1%positive) as -> by lia.
    assert (Z.even m = true) as Hev by (apply Heven; lia).
    cbn [SpecFloat.iter_pos].
    replace (Z.max e e') with (e + 1)%Z by lia.
    destruct m as [| [q | q |] | q]; try discriminate Hev; try lia;
      cbn [shr_1 orb shr_m].
    + split; [lia |]. split; [| reflexivity]. unfold F2R. simpl. lra.
    + split; [lia |]. split; [| reflexivity]. unfold F2R.
      rewrite IZR_xO, bpow_succ. lra.
  - split; [exact Hm |]. split; [reflexivity | lia].
Qed.

End RoundingAssembly.

Section RoundingMain.
Local Open Scope R_scope.

Lemma round_integer (m k : Z) (l : location) :
  inbetween_int m l (IZR k) -> round_nearest_even m l = k.
Proof.
  destruct l as [| []]; cbn [inbetween_int round_nearest_even]; intros H.
  - apply eq_IZR in H. lia.
  - assert (IZR (2 * k) = IZR (2 * m + 1)) as H1
        by (rewrite plus_IZR, !mult_IZR; lra).
    apply eq_IZR in H1. lia.
  - destruct H as [H1 H2]. apply lt_IZR in H1.
    assert (IZR k < IZR (m + 1)) as H3 by (rewrite plus_IZR; lra).
    apply lt_IZR in H3. lia.
  - destruct H as [H1 H2].
    assert (IZR m < IZR k) as H3 by lra. apply lt_IZR in H3.
    assert (IZR k < IZR (m + 1)) as H4 by (rewrite plus_IZR; lra).
    apply lt_IZR in H4. lia.
Qed.

Lemma F2R_digits_lt (m e k : Z) :
  (0 < m)%Z -> F2R m e < bpow k -> (Zdigits2 m + e <= k)%Z.
Proof.
  intros Hm H. destruct (Zdigits2_bpow m Hm) as [Hlo _].
  assert (bpow (Zdigits2 m - 1 + e) < bpow k) as Hlt.
  { rewrite bpow_add. unfold F2R in H. pose proof (bpow_pos e). nra. }
  apply bpow_lt_inv in Hlt. lia.
Qed.

Lemma binary_round_aux_correct (s : bool) (mx ex : Z) (lx : location) (t : R) :
  (0 <= mx)%Z -> inbetween_int mx lx t ->
  (ex <= fexp64 (Zdigits2 mx + ex))%Z ->
  t * bpow ex <= bpow 1023 ->
  exists r : R,
    0 <= r /\
    is_finite_SF (binary_round_aux prec emax s mx ex lx) = true /\
    SF2R (binary_round_aux prec emax s mx ex lx) = (if s then - r else r) /\
    Rabs (r - t * bpow ex) <= / 2 * bpow (fexp64 (Zdigits2 mx + ex)) /\
    (forall k : Z,
        t * bpow ex = IZR k * bpow (fexp64 (Zdigits2 mx + ex)) -> r = t * bpow ex).
Proof.
  intros Hmx Ht He Hov.
  destruct (shr_fexp_correct mx ex lx t Hmx Ht He) as [He' [Hm' Hin]].
  pose proof (inbetween_int_bounds _ _ _ Ht) as Htb.
  pose proof (bpow_pos ex) as Hbex.
  set (e' := fexp64 (Zdigits2 mx + ex)) in *.
  pose proof (bpow_pos e') as Hbe'.
  unfold binary_round_aux.
  destruct (shr_fexp prec emax mx ex lx) as [mrs' e1]. cbn [fst snd] in *. subst e1.
  set (m' := shr_m mrs') in *. set (l' := loc_of_shr_record mrs') in *.
  set (t' := t * bpow ex / bpow e') in *.
  assert (t * bpow ex = t' * bpow e') as Hx by (unfold t'; field; lra).
  destruct (round_nearest_even_correct m' l' t' Hin) as [Hm'' [Herr _]].
  pose proof (inbetween_int_bounds _ _ _ Hin) as Htb'.
  assert (e' >= -1074)%Z as Hemin by (unfold e'; rewrite fexp64_eq; lia).
  (* the digits of the shifted mantissa *)
  assert (t' = t / bpow (e' - ex)) as Ht'n.
  { unfold t'. replace e' with (ex + (e' - ex))%Z at 1 by lia.
    rewrite bpow_add. pose proof (bpow_pos (e' - ex)). field. lra. }
  rewrite Ht'n in Htb'.
  destruct (digits_of_scaled mx m' (e' - ex) t Hmx Htb ltac:(lia) Hm' Htb')
    as [Hdig1 Hdig2].
  rewrite <- Ht'n in Htb'.
  assert (fexp64 (Zdigits2 m' + e') <= e')%Z as HC.
  { destruct (Z_lt_le_dec (e' - ex) (Zdigits2 mx)) as [Hlt | Hle].
    - destruct (Hdig1 Hlt) as [-> _].
      replace (Zdigits2 mx - (e' - ex) + e')%Z with (Zdigits2 mx + ex)%Z by lia.
      fold e'. lia.
    - rewrite (Hdig2 Hle). cbn [Zdigits2]. rewrite fexp64_eq. lia. }
  set (m'' := round_nearest_even m' l') in *.
  assert (Zdigits2 m'' <= Zdigits2 m' + 1)%Z as Hd''.
  { destruct (Z.eq_dec m'' m') as [-> | Hne]; [lia |].
    replace m'' with (m' + 1)%Z by lia. apply Zdigits2_succ. exact Hm'. }
  assert (Zdigits2 m' <= Zdigits2 m'')%Z as Hd''lo by (apply Zdigits2_le; lia).
  assert (fexp64 (Zdigits2 m'' + e') <= e' + 1)%Z as HD1.
  { rewrite fexp64_eq in HC |- *. lia. }
  assert (fexp64 (Zdigits2 m'' + e') = e' + 1 -> Z.even m'' = true)%Z as HD2.
  { intros Heq.
    assert (Zdigits2 m'' = Zdigits2 m' + 1)%Z as Hdd
      by (rewrite fexp64_eq in HC, Heq; lia).
    assert (m'' = m' + 1)%Z as Hmm.
    { destruct (Z.eq_dec m'' m') as [Hsame | Hne]; [rewrite Hsame in Hdd; lia | lia]. }
    destruct (Z.eq_dec m' 0) as [Hz | Hnz].
    - rewrite Hmm, Hz in Heq. change (Zdigits2 (0 + 1)) with 1%Z in Heq.
      rewrite fexp64_eq in Heq. lia.
    - rewrite Hmm. apply Zdigits2_succ_even; [lia |]. rewrite <- Hmm. exact Hdd. }
  destruct (shr_fexp_exact m'' e' ltac:(lia) HD1 HD2) as [Hm3 [Hval He3]].
  destruct (shr_fexp prec emax m'' e' loc_Exact) as [mrs'' e'']. cbn [fst snd] in *.
  (* the rounded value and its error *)
  assert (Rabs (F2R m'' e' - t * bpow ex) <= / 2 * bpow e') as Hbound.
  { rewrite Hx. unfold F2R. rewrite <- Rmult_minus_distr_r, Rabs_mult.
    rewrite (Rabs_pos_eq (bpow e')) by lra. nra. }
  assert (0 <= F2R m'' e') as Hpos.
  { unfold F2R. assert (0 <= IZR m'') by (apply IZR_le; lia). nra. }
  exists (F2R m'' e'). split; [exact Hpos |].
  assert (is_finite_SF
            match shr_m mrs'' with
            | 0%Z => S754_zero s
            | Z.pos m =>
                if (e'' <=? emax - prec)%Z then S754_finite s m e'' else S754_infinity s
            | Z.neg _ => S754_nan
            end = true /\
          SF2R
            match shr_m mrs'' with
            | 0%Z => S754_zero s
            | Z.pos m =>
                if (e'' <=? emax - prec)%Z then S754_finite s m e'' else S754_infinity s
            | Z.neg _ => S754_nan
            end = (if s then - F2R m'' e' else F2R m'' e')) as [Hfin Hvalue].
  { destruct (shr_m mrs'') as [| p | p] eqn:Hp; [| | lia].
    - split; [reflexivity |]. cbn [SF2R]. rewrite <- Hval. unfold F2R. simpl.
      destruct s; lra.
    - assert (e'' <= emax - prec)%Z as Hno.
      { change (emax - prec)%Z with 971%Z.
        (* the exponent of the input *)
        assert (e' <= 971)%Z as He971.
        { destruct (Z.eq_dec mx 0) as [Hz | Hnz].
          - unfold e' in *. rewrite Hz in *. cbn [Zdigits2 Z.add] in *.
            rewrite fexp64_eq in *. lia.
          - assert (F2R mx ex < bpow 1024) as Hlt.
            { unfold F2R. assert (bpow 1023 < bpow 1024) by (apply bpow_lt; lia). nra. }
            apply F2R_digits_lt in Hlt; [| lia].
            unfold e'. rewrite fexp64_eq. lia. }
        assert (0 < m'')%Z as Hm''pos.
        { destruct (Z.eq_dec m'' 0) as [Hz | Hnz]; [| lia].
          rewrite Hz in Hval. unfold F2R in Hval. simpl in Hval.
          assert (0 < IZR (Z.pos p)) by (apply IZR_lt; lia).
          pose proof (bpow_pos e''). nra. }
        assert (F2R m'' e' < bpow 1024) as Hlt.
        { assert (F2R m'' e' <= t * bpow ex + / 2 * bpow e') as H1.
          { apply Rabs_le_inv in Hbound. lra. }
          assert (bpow e' <= bpow 971) by (apply bpow_le; lia).
          assert (bpow 1024 = 2 * bpow 1023) as -> by (rewrite <- bpow_succ; reflexivity).
          assert (bpow 971 < bpow 1023) by (apply bpow_lt; lia).
          lra. }
        apply F2R_digits_lt in Hlt; [| exact Hm''pos].
        rewrite He3. rewrite fexp64_eq. lia. }
      apply Z.leb_le in Hno. rewrite Hno.
      split; [reflexivity |]. cbn [SF2R]. rewrite <- Hval, <- Hp.
      destruct s; cbn [cond_Zopp]; [| reflexivity].
      unfold F2R. rewrite opp_IZR. lra. }
  split; [exact Hfin |]. split; [exact Hvalue |]. split; [exact Hbound |].
  intros k Hk.
  assert (t' = IZR k) as Htk.
  { apply Rmult_eq_reg_r with (bpow e'); [| lra]. rewrite <- Hx. exact Hk. }
  rewrite Htk in Hin. apply round_integer in Hin. fold m'' in Hin.
  rewrite Hin. unfold F2R. rewrite Hx, Htk. reflexivity.
Qed.

End RoundingMain.

Section Operations.
Local Open Scope R_scope.

Lemma u64_pos : 0 < u64.
Proof. apply bpow_pos. Qed.

Lemma eta64_pos : 0 < eta64.
Proof. apply bpow_pos. Qed.

Lemma half_ulp_bound (mx ex : Z) (t : R) :
  (0 <= mx)%Z -> IZR mx <= t ->
  (ex <= fexp64 (Zdigits2 mx + ex))%Z ->
  / 2 * bpow (fexp64 (Zdigits2 mx + ex)) <= u64 * (t * bpow ex) \/
  fexp64 (Zdigits2 mx + ex) = (-1074)%Z.
Proof.
  intros Hmx Ht He.
  destruct (fexp64_spec (Zdigits2 mx + ex)) as [[Hf Hge] | [Hf _]]; [left | right; exact Hf].
  destruct (Z.eq_dec mx 0) as [Hz | Hnz].
  - rewrite Hz in *. cbn [Zdigits2 Z.add] in *. lia.
  - destruct (Zdigits2_bpow mx ltac:(lia)) as [Hlo _].
    rewrite Hf, <- bpow_pred. unfold u64.
    replace (Zdigits2 mx + ex - 53 - 1)%Z with (-53 + (Zdigits2 mx - 1 + ex))%Z by lia.
    rewrite !bpow_add.
    pose proof (bpow_pos (-53)). pose proof (bpow_pos ex).
    apply Rmult_le_compat_l; [lra |]. apply Rmult_le_compat_r; lra.
Qed.

(** What validity says of a finite number: its mantissa has at most 53
    digits, exactly 53 unless its exponent is the least one, and its
    exponent is at most 971. *)
Lemma valid_finite (s : bool) (m : positive) (e : Z) :
  valid_binary (S754_finite s m e) = true ->
  (fexp64 (Zdigits2 (Zpos m) + e) = e /\ e <= 971)%Z.
Proof.
  unfold valid_binary, SpecFloat.valid_binary, bounded, canonical_mantissa.
  intros H. apply andb_prop in H. destruct H as [H1 H2].
  apply Z.eqb_eq in H1. apply Z.leb_le in H2. split; [exact H1 | exact H2].
Qed.

Lemma SF2R_finite_abs (s : bool) (m : positive) (e : Z) :
  Rabs (SF2R (S754_finite s m e)) = F2R (Zpos m) e.
Proof.
  cbn [SF2R]. unfold F2R. pose proof (bpow_pos e).
  assert (0 < IZR (Zpos m)) by (apply IZR_lt; lia).
  destruct s; cbn [cond_Zopp].
  - change (Z.opp (Zpos m)) with (Zneg m).
    replace (IZR (Zneg m)) with (- IZR (Zpos m)) by (rewrite <- opp_IZR; reflexivity).
    rewrite Rabs_left by nra. lra.
  - rewrite Rabs_pos_eq by nra. reflexivity.
Qed.

Lemma SF2R_finite_nonzero (s : bool) (m : positive) (e : Z) :
  SF2R (S754_finite s m e) <> 0.
Proof.
  intros H. pose proof (SF2R_finite_abs s m e) as Ha. rewrite H, Rabs_R0 in Ha.
  unfold F2R in Ha. pose proof (bpow_pos e).
  assert (0 < IZR (Zpos m)) by (apply IZR_lt; lia). nra.
Qed.

Lemma SF2R_finite_sign (s : bool) (m : positive) (e : Z) :
  SF2R (S754_finite s m e) = (if s then - F2R (Zpos m) e else F2R (Zpos m) e).
Proof.
  cbn [SF2R]. unfold F2R. destruct s; cbn [cond_Zopp]; [| reflexivity].
  change (Z.opp (Zpos m)) with (Zneg m).
  replace (IZR (Zneg m)) with (- IZR (Zpos m)) by (rewrite <- opp_IZR; reflexivity).
  lra.
Qed.

Lemma Zdigits2_mul (a b : Z) :
  (0 < a)%Z -> (0 < b)%Z -> (Zdigits2 a + Zdigits2 b - 1 <= Zdigits2 (a * b))%Z.
Proof.
  intros Ha Hb.
  pose proof (Zdigits2_bounds a Ha) as [Ha1 _].
  pose proof (Zdigits2_bounds b Hb) as [Hb1 _].
  pose proof (Zdigits2_pos a Ha). pose proof (Zdigits2_pos b Hb).
  assert (2 ^ (Zdigits2 a - 1 + (Zdigits2 b - 1)) <= a * b)%Z as H1.
  { rewrite Z.pow_add_r by lia.
    assert (0 < 2 ^ (Zdigits2 a - 1))%Z by (apply Z.pow_pos_nonneg; lia).
    assert (0 < 2 ^ (Zdigits2 b - 1))%Z by (apply Z.pow_pos_nonneg; lia).
    nia. }
  apply Zdigits2_ge in H1; lia.
Qed.

Lemma rounded_of_core (s : bool) (mx ex : Z) (t r : R) :
  (0 <= mx)%Z -> IZR mx <= t ->
  (ex <= fexp64 (Zdigits2 mx + ex))%Z ->
  0 <= r ->
  Rabs (r - t * bpow ex) <= / 2 * bpow (fexp64 (Zdigits2 mx + ex)) ->
  (t * bpow ex = 0 -> r = 0) ->
  rounded (if s then - (t * bpow ex) else t * bpow ex) (if s then - r else r).
Proof.
  intros Hmx Ht He Hr Herr Hzero.
  pose proof (bpow_pos ex) as Hbex.
  assert (0 <= IZR mx) as Hmx' by (apply IZR_le; lia).
  assert (0 <= t * bpow ex) as Hx by nra.
  set (x := t * bpow ex) in *.
  unfold rounded.
  assert (Rabs ((if s then - r else r) - (if s then - x else x)) = Rabs (r - x)) as ->.
  { destruct s; [| reflexivity].
    replace (- r - - x) with (- (r - x)) by lra. apply Rabs_Ropp. }
  assert (Rabs (if s then - x else x) = x) as ->.
  { destruct s; [rewrite Rabs_Ropp |]; apply Rabs_pos_eq; exact Hx. }
  pose proof u64_pos. pose proof eta64_pos.
  assert (eta64 = u64 * bpow (-1022)) as Heta.
  { unfold eta64, u64. rewrite <- bpow_add. reflexivity. }
  assert (/ 2 * bpow (-1074) = eta64) as Heta'.
  { unfold eta64. rewrite <- bpow_pred. reflexivity. }
  split; [| split; [| split]].
  - destruct (half_ulp_bound mx ex t Hmx Ht He) as [Hb | Hb].
    + fold x in Hb. lra.
    + rewrite Hb in Herr. nra.
  - intros Hnorm. destruct (half_ulp_bound mx ex t Hmx Ht He) as [Hb | Hb].
    + fold x in Hb. lra.
    + rewrite Hb in Herr. nra.
  - destruct s; intros Hsign; [| exact Hr].
    assert (x = 0) as Hx0 by lra. rewrite (Hzero Hx0). lra.
  - destruct s; intros Hsign; [lra |].
    assert (x = 0) as Hx0 by lra. rewrite (Hzero Hx0). lra.
Qed.

End Operations.

Section Multiplication.
Local Open Scope R_scope.

Lemma rounded_refl (x : R) : rounded x x.
Proof.
  unfold rounded. rewrite Rminus_diag, Rabs_R0.
  pose proof u64_pos. pose proof eta64_pos. pose proof (Rabs_pos x).
  repeat split; try nra; auto.
Qed.

Lemma binary_round_aux_rounded (s : bool) (mx ex : Z) (lx : location) (t : R) :
  (0 <= mx)%Z -> inbetween_int mx lx t ->
  (ex <= fexp64 (Zdigits2 mx + ex))%Z ->
  t * bpow ex <= bpow 1023 ->
  is_finite_SF (binary_round_aux prec emax s mx ex lx) = true /\
  rounded (if s then - (t * bpow ex) else t * bpow ex)
          (SF2R (binary_round_aux prec emax s mx ex lx)) /\
  (forall k : Z,
      t * bpow ex = IZR k * bpow (fexp64 (Zdigits2 mx + ex)) ->
      SF2R (binary_round_aux prec emax s mx ex lx) =
      (if s then - (t * bpow ex) else t * bpow ex)).
Proof.
  intros Hmx Ht He Hov.
  destruct (binary_round_aux_correct s mx ex lx t Hmx Ht He Hov)
    as [r [Hr [Hfin [Hval [Herr Hexact]]]]].
  split; [exact Hfin |]. rewrite Hval. split.
  - apply (rounded_of_core s mx ex t r); try assumption.
    + apply (inbetween_int_bounds _ _ _ Ht).
    + intros H0. rewrite <- H0. apply (Hexact 0%Z). rewrite H0. lra.
  - intros k Hk. rewrite (Hexact k Hk). reflexivity.
Qed.

Lemma SFmul_rounded (x y : spec_float) :
  valid_binary x = true -> valid_binary y = true ->
  is_finite_SF x = true -> is_finite_SF y = true ->
  Rabs (SF2R x * SF2R y) <= bpow 1023 ->
  is_finite_SF (SF64mul x y) = true /\
  rounded (SF2R x * SF2R y) (SF2R (SF64mul x y)).
Proof.
  intros Vx Vy Fx Fy Hov.
  destruct x as [sx | sx | | sx mx ex]; try discriminate Fx;
    destruct y as [sy | sy | | sy my ey]; try discriminate Fy;
    try (split; [reflexivity |];
         cbn [SF64mul SFmul]; cbn [SF2R]; rewrite ?Rmult_0_l, ?Rmult_0_r;
         apply rounded_refl).
  unfold SF64mul. cbn [SFmul].
  destruct (valid_finite _ _ _ Vx) as [Cx Bx].
  destruct (valid_finite _ _ _ Vy) as [Cy By].
  assert (SF2R (S754_finite sx mx ex) * SF2R (S754_finite sy my ey) =
          (if xorb sx sy
           then - (IZR (Zpos (mx * my)) * bpow (ex + ey))
           else IZR (Zpos (mx * my)) * bpow (ex + ey))) as Hprod.
  { rewrite !SF2R_finite_sign. unfold F2R. rewrite Pos2Z.inj_mul, mult_IZR, bpow_add.
    destruct sx, sy; cbn [xorb]; ring. }
  rewrite Hprod in *.
  assert (Rabs (if xorb sx sy
                then - (IZR (Zpos (mx * my)) * bpow (ex + ey))
                else IZR (Zpos (mx * my)) * bpow (ex + ey)) =
          IZR (Zpos (mx * my)) * bpow (ex + ey)) as Habs.
  { pose proof (bpow_pos (ex + ey)).
    assert (0 < IZR (Zpos (mx * my))) by (apply IZR_lt; lia).
    destruct (xorb sx sy); [rewrite Rabs_Ropp |]; apply Rabs_pos_eq; nra. }
  rewrite Habs in Hov.
  assert (ex + ey <= fexp64 (Zdigits2 (Zpos (mx * my)) + (ex + ey)))%Z as He.
  { pose proof (Zdigits2_mul (Zpos mx) (Zpos my) ltac:(lia) ltac:(lia)) as Hd.
    rewrite <- Pos2Z.inj_mul in Hd.
    pose proof (Zdigits2_pos (Zpos mx) ltac:(lia)).
    pose proof (Zdigits2_pos (Zpos my) ltac:(lia)).
    rewrite fexp64_eq in *. lia. }
  destruct (binary_round_aux_rounded (xorb sx sy) (Zpos (mx * my)) (ex + ey) loc_Exact
              (IZR (Zpos (mx * my))) ltac:(lia) eq_refl He Hov) as [Hfin [Hr _]].
  split; assumption.
Qed.

End Multiplication.

Section Addition.
Local Open Scope R_scope.

Lemma Pos_iter_xO (d m : positive) :
  Zpos (Pos.iter xO m d) = (Zpos m * 2 ^ Zpos d)%Z.
Proof.
  induction d as [| d IH] using Pos.peano_ind.
  - cbn [Pos.iter]. lia.
  - rewrite Pos.iter_succ, Pos2Z.inj_succ, Z.pow_succ_r by lia.
    rewrite Pos2Z.inj_xO, IH. lia.
Qed.

Lemma shl_align_correct (mx : positive) (ex ex' : Z) :
  F2R (Zpos (fst (shl_align mx ex ex'))) (snd (shl_align mx ex ex')) = F2R (Zpos mx) ex /\
  snd (shl_align mx ex ex') = Z.min ex ex' /\
  (Zdigits2 (Zpos (fst (shl_align mx ex ex'))) + snd (shl_align mx ex ex') =
   Zdigits2 (Zpos mx) + ex)%Z.
Proof.
  unfold shl_align. destruct (ex' - ex)%Z as [| d | d] eqn:Hd; cbn [fst snd].
  - split; [reflexivity |]. split; lia.
  - split; [reflexivity |]. split; lia.
  - assert (ex = ex' + Zpos d)%Z as Hex by lia.
    assert (0 < 2 ^ Zpos d)%Z as Hpow by (apply Z.pow_pos_nonneg; lia).
    split; [| split; [lia |]].
    + unfold F2R. rewrite Pos_iter_xO, mult_IZR, Hex, bpow_add.
      rewrite <- (bpow_IZR (Zpos d)) by lia. ring.
    + rewrite Pos_iter_xO.
      pose proof (Zdigits2_bounds (Zpos mx) ltac:(lia)) as [Hlo Hhi].
      pose proof (Zdigits2_pos (Zpos mx) ltac:(lia)) as Hdp.
      rewrite (Zdigits2_unique (Zpos mx * 2 ^ Zpos d) (Zdigits2 (Zpos mx) + Zpos d)).
      * lia.
      * replace (Zdigits2 (Z.pos mx) + Z.pos d - 1)%Z
          with (Zdigits2 (Z.pos mx) - 1 + Zpos d)%Z by lia.
        rewrite !Z.pow_add_r by lia. nia.
      * nia.
Qed.

Lemma rounded_sum_refl (x : R) : rounded_sum x x.
Proof.
  unfold rounded_sum. rewrite Rminus_diag, Rabs_R0.
  pose proof u64_pos. pose proof (Rabs_pos x).
  repeat split; try nra; auto.
Qed.

Lemma binary_round_rounded (s : bool) (m : positive) (e : Z) :
  (-1074 <= e)%Z ->
  F2R (Zpos m) e <= bpow 1023 ->
  is_finite_SF (binary_round prec emax s m e) = true /\
  rounded_sum (if s then - F2R (Zpos m) e else F2R (Zpos m) e)
              (SF2R (binary_round prec emax s m e)).
Proof.
  intros He Hov. unfold binary_round.
  fold (Zdigits2 (Zpos m)). fold (fexp64 (Zdigits2 (Zpos m) + e)).
  destruct (shl_align_correct m e (fexp64 (Zdigits2 (Zpos m) + e))) as [Hv [Hs Hd]].
  destruct (shl_align m e (fexp64 (Zdigits2 (Zpos m) + e))) as [mz ez].
  cbn [fst snd] in *.
  set (f := fexp64 (Zdigits2 (Zpos m) + e)) in *.
  assert (fexp64 (Zdigits2 (Zpos mz) + ez) = f) as Hf by (unfold f; rewrite Hd; reflexivity).
  assert (ez <= fexp64 (Zdigits2 (Zpos mz) + ez))%Z as Hle by (rewrite Hf; lia).
  assert (IZR (Zpos mz) * bpow ez <= bpow 1023) as Hov' by (fold (F2R (Zpos mz) ez); lra).
  destruct (binary_round_aux_correct s (Zpos mz) ez loc_Exact (IZR (Zpos mz))
              ltac:(lia) eq_refl Hle Hov') as [r [Hr [Hfin [Hval [Herr Hexact]]]]].
  split; [exact Hfin |]. rewrite Hval, <- Hv. unfold F2R.
  set (x := IZR (Zpos mz) * bpow ez) in *.
  assert (0 < x) as Hx.
  { unfold x. pose proof (bpow_pos ez).
    assert (0 < IZR (Zpos mz)) by (apply IZR_lt; lia). nra. }
  assert (Rabs (r - x) <= u64 * x) as Hrel.
  { destruct (half_ulp_bound (Zpos mz) ez (IZR (Zpos mz)) ltac:(lia) (Rle_refl _) Hle)
      as [Hb | Hb].
    - fold x in Hb. lra.
    - assert (ez = f) as Hez by (rewrite Hf in Hb; lia).
      rewrite (Hexact (Zpos mz)); [| rewrite Hf, <- Hez; reflexivity].
      rewrite Rminus_diag, Rabs_R0. pose proof u64_pos. nra. }
  unfold rounded_sum.
  assert (Rabs ((if s then - r else r) - (if s then - x else x)) = Rabs (r - x)) as ->.
  { destruct s; [| reflexivity].
    replace (- r - - x) with (- (r - x)) by lra. apply Rabs_Ropp. }
  assert (Rabs (if s then - x else x) = x) as ->.
  { destruct s; [rewrite Rabs_Ropp |]; apply Rabs_pos_eq; lra. }
  split; [exact Hrel |].
  destruct s; split; intros; lra.
Qed.

Lemma binary_normalize_rounded (M e : Z) :
  (-1074 <= e)%Z ->
  Rabs (F2R M e) <= bpow 1023 ->
  is_finite_SF (binary_normalize prec emax M e false) = true /\
  rounded_sum (F2R M e) (SF2R (binary_normalize prec emax M e false)).
Proof.
  intros He Hov. destruct M as [| m | m]; cbn [binary_normalize].
  - split; [reflexivity |]. cbn [SF2R]. unfold F2R. rewrite Rmult_0_l.
    apply rounded_sum_refl.
  - assert (0 <= F2R (Zpos m) e) as Hpos.
    { unfold F2R. pose proof (bpow_pos e).
      assert (0 < IZR (Zpos m)) by (apply IZR_lt; lia). nra. }
    rewrite Rabs_pos_eq in Hov by exact Hpos.
    apply (binary_round_rounded false m e He Hov).
  - assert (F2R (Zneg m) e = - F2R (Zpos m) e) as Hneg.
    { unfold F2R. change (Zneg m) with (- Zpos m)%Z. rewrite opp_IZR. ring. }
    rewrite Hneg in *. rewrite Rabs_Ropp in Hov.
    assert (0 <= F2R (Zpos m) e) as Hpos.
    { unfold F2R. pose proof (bpow_pos e).
      assert (0 < IZR (Zpos m)) by (apply IZR_lt; lia). nra. }
    rewrite Rabs_pos_eq in Hov by exact Hpos.
    apply (binary_round_rounded true m e He Hov).
Qed.

Lemma F2R_cond_Zopp (s : bool) (m : positive) (e : Z) :
  F2R (cond_Zopp s (Zpos m)) e = SF2R (S754_finite s m e).
Proof. reflexivity. Qed.

Lemma aligned_value (s : bool) (m : positive) (e e' : Z) :
  (e' <= e)%Z ->
  F2R (cond_Zopp s (Zpos (fst (shl_align m e e')))) e' = SF2R (S754_finite s m e).
Proof.
  intros Hle. destruct (shl_align_correct m e e') as [Hv [Hs _]].
  replace (Z.min e e') with e' in Hs by lia. rewrite Hs in Hv.
  rewrite SF2R_finite_sign. rewrite <- Hv. unfold F2R.
  destruct s; cbn [cond_Zopp]; [| reflexivity].
  rewrite opp_IZR. ring.
Qed.

Lemma SFadd_rounded (x y : spec_float) :
  valid_binary x = true -> valid_binary y = true ->
  is_finite_SF x = true -> is_finite_SF y = true ->
  Rabs (SF2R x + SF2R y) <= bpow 1023 ->
  is_finite_SF (SF64add x y) = true /\
  rounded_sum (SF2R x + SF2R y) (SF2R (SF64add x y)).
Proof.
  intros Vx Vy Fx Fy Hov.
  destruct x as [sx | sx | | sx mx ex]; try discriminate Fx;
    destruct y as [sy | sy | | sy my ey]; try discriminate Fy.
  - split; [destruct sx, sy; reflexivity |].
    cbn [SF2R]. rewrite Rplus_0_l.
    destruct sx, sy; cbn [SF64add SFadd SF2R]; apply rounded_sum_refl.
  - split; [reflexivity |]. cbn [SF64add SFadd]. cbn [SF2R]. rewrite Rplus_0_l.
    apply rounded_sum_refl.
  - split; [reflexivity |]. cbn [SF64add SFadd]. cbn [SF2R]. rewrite Rplus_0_r.
    apply rounded_sum_refl.
  - unfold SF64add. cbn [SFadd].
    destruct (valid_finite _ _ _ Vx) as [Cx Bx].
    destruct (valid_finite _ _ _ Vy) as [Cy By].
    set (ez := Z.min ex ey).
    assert (F2R (cond_Zopp sx (Zpos (fst (shl_align mx ex ez))) +
                 cond_Zopp sy (Zpos (fst (shl_align my ey ez)))) ez =
            SF2R (S754_finite sx mx ex) + SF2R (S754_finite sy my ey)) as Hsum.
    { unfold F2R at 1. rewrite plus_IZR, Rmult_plus_distr_r.
      fold (F2R (cond_Zopp sx (Zpos (fst (shl_align mx ex ez)))) ez).
      fold (F2R (cond_Zopp sy (Zpos (fst (shl_align my ey ez)))) ez).
      rewrite !aligned_value by (unfold ez; lia). reflexivity. }
    rewrite <- Hsum in *.
    apply binary_normalize_rounded; [| exact Hov].
    unfold ez. rewrite fexp64_eq in Cx, Cy. lia.
Qed.

Lemma SFsub_rounded (x y : spec_float) :
  valid_binary x = true -> valid_binary y = true ->
  is_finite_SF x = true -> is_finite_SF y = true ->
  Rabs (SF2R x - SF2R y) <= bpow 1023 ->
  is_finite_SF (SF64sub x y) = true /\
  rounded_sum (SF2R x - SF2R y) (SF2R (SF64sub x y)).
Proof.
  intros Vx Vy Fx Fy Hov.
  destruct x as [sx | sx | | sx mx ex]; try discriminate Fx;
    destruct y as [sy | sy | | sy my ey]; try discriminate Fy.
  - split; [destruct sx, sy; reflexivity |].
    cbn [SF2R]. rewrite Rminus_0_r.
    destruct sx, sy; cbn [SF64sub SFsub SF2R]; apply rounded_sum_refl.
  - split; [reflexivity |]. cbn [SF64sub SFsub].
    replace (SF2R (S754_zero sx) - SF2R (S754_finite sy my ey))
      with (SF2R (S754_finite (negb sy) my ey)); [apply rounded_sum_refl |].
    rewrite !SF2R_finite_sign. cbn [SF2R]. destruct sy; cbn [negb]; lra.
  - split; [reflexivity |]. cbn [SF64sub SFsub]. cbn [SF2R]. rewrite Rminus_0_r.
    apply rounded_sum_refl.
  - unfold SF64sub. cbn [SFsub].
    destruct (valid_finite _ _ _ Vx) as [Cx Bx].
    destruct (valid_finite _ _ _ Vy) as [Cy By].
    set (ez := Z.min ex ey).
    assert (F2R (cond_Zopp sx (Zpos (fst (shl_align mx ex ez))) -
                 cond_Zopp sy (Zpos (fst (shl_align my ey ez)))) ez =
            SF2R (S754_finite sx mx ex) - SF2R (S754_finite sy my ey)) as Hsum.
    { unfold F2R at 1. rewrite minus_IZR, Rmult_minus_distr_r.
      fold (F2R (cond_Zopp sx (Zpos (fst (shl_align mx ex ez)))) ez).
      fold (F2R (cond_Zopp sy (Zpos (fst (shl_align my ey ez)))) ez).
      rewrite !aligned_value by (unfold ez; lia). reflexivity. }
    rewrite <- Hsum in *.
    apply binary_normalize_rounded; [| exact Hov].
    unfold ez. rewrite fexp64_eq in Cx, Cy. lia.
Qed.

End Addition.

Section Division.
Local Open Scope R_scope.

Lemma new_location_correct (m2 q r : Z) :
  (0 < m2)%Z -> (0 <= r < m2)%Z ->
  inbetween_int q (new_location m2 r) (IZR q + IZR r / IZR m2).
Proof.
  intros Hm2 Hr.
  assert (0 < IZR m2) as Hm2' by (apply IZR_lt; lia).
  assert (0 <= IZR r) as Hr0 by (apply IZR_le; lia).
  assert (IZR r < IZR m2) as Hr1 by (apply IZR_lt; lia).
  assert (forall a : R, a * IZR m2 < IZR r -> a < IZR r / IZR m2) as Hlt.
  { intros a Ha. apply Rmult_lt_reg_r with (IZR m2); [lra |].
    replace (IZR r / IZR m2 * IZR m2) with (IZR r) by (field; lra). exact Ha. }
  assert (forall a : R, IZR r < a * IZR m2 -> IZR r / IZR m2 < a) as Hgt.
  { intros a Ha. apply Rmult_lt_reg_r with (IZR m2); [lra |].
    replace (IZR r / IZR m2 * IZR m2) with (IZR r) by (field; lra). exact Ha. }
  unfold new_location.
  destruct (IntDef.Z.even m2) eqn:Hev0.
  - unfold new_location_even.
    destruct (Z.eqb_spec r 0) as [-> | Hnz]; cbn [inbetween_int].
    + field; lra.
    + assert (0 < IZR r) as Hrpos by (apply IZR_lt; lia).
      destruct (Z.compare_spec (2 * r) m2) as [Hc | Hc | Hc]; cbn [inbetween_int].
      * replace (IZR r / IZR m2) with (/ 2); [reflexivity |].
        rewrite <- Hc, mult_IZR. field. lra.
      * apply IZR_lt in Hc. rewrite mult_IZR in Hc.
        split; [assert (0 < IZR r / IZR m2) by (apply Hlt; lra); lra |].
        assert (IZR r / IZR m2 < / 2) by (apply Hgt; lra). lra.
      * apply IZR_lt in Hc. rewrite mult_IZR in Hc.
        split; [assert (/ 2 < IZR r / IZR m2) by (apply Hlt; lra); lra |].
        assert (IZR r / IZR m2 < 1) by (apply Hgt; lra). lra.
  - unfold new_location_odd.
    assert (Z.even m2 = false) as Hev by exact Hev0.
    assert (Z.odd m2 = true) as Hodd by (rewrite <- Z.negb_even, Hev; reflexivity).
    apply Z.odd_spec in Hodd. destruct Hodd as [a Ha].
    destruct (Z.eqb_spec r 0) as [-> | Hnz]; cbn [inbetween_int].
    + field; lra.
    + assert (0 < IZR r) as Hrpos by (apply IZR_lt; lia).
      destruct (Z.compare_spec (2 * r + 1) m2) as [Hc | Hc | Hc]; cbn [inbetween_int].
      * assert (2 * r < m2)%Z as Hc' by lia.
        apply IZR_lt in Hc'. rewrite mult_IZR in Hc'.
        split; [assert (0 < IZR r / IZR m2) by (apply Hlt; lra); lra |].
        assert (IZR r / IZR m2 < / 2) by (apply Hgt; lra). lra.
      * assert (2 * r < m2)%Z as Hc' by lia.
        apply IZR_lt in Hc'. rewrite mult_IZR in Hc'.
        split; [assert (0 < IZR r / IZR m2) by (apply Hlt; lra); lra |].
        assert (IZR r / IZR m2 < / 2) by (apply Hgt; lra). lra.
      * assert (m2 < 2 * r)%Z as Hc' by lia.
        apply IZR_lt in Hc'. rewrite mult_IZR in Hc'.
        split; [assert (/ 2 < IZR r / IZR m2) by (apply Hlt; lra); lra |].
        assert (IZR r / IZR m2 < 1) by (apply Hgt; lra). lra.
Qed.

Lemma SFdiv_core_binary_correct (m1 m2 : positive) (e1 e2 : Z) :
  let q := fst (fst (SFdiv_core_binary prec emax (Zpos m1) e1 (Zpos m2) e2)) in
  let e' := snd (fst (SFdiv_core_binary prec emax (Zpos m1) e1 (Zpos m2) e2)) in
  let l := snd (SFdiv_core_binary prec emax (Zpos m1) e1 (Zpos m2) e2) in
  exists t : R,
    t * bpow e' = F2R (Zpos m1) e1 / F2R (Zpos m2) e2 /\
    (0 <= q)%Z /\
    inbetween_int q l t /\
    (e' <= fexp64 (Zdigits2 q + e'))%Z.
Proof.
  unfold SFdiv_core_binary.
  set (d1 := Zdigits2 (Zpos m1)). set (d2 := Zdigits2 (Zpos m2)).
  fold (fexp64 (d1 + e1 - (d2 + e2))).
  set (e' := Z.min (fexp64 (d1 + e1 - (d2 + e2))) (e1 - e2)).
  set (s := (e1 - e2 - e')%Z).
  assert (0 <= s)%Z as Hs by (unfold s, e'; lia).
  set (m' := match s with
             | 0%Z => Zpos m1
             | Zpos _ => Z.shiftl (Zpos m1) s
             | Zneg _ => 0%Z
             end).
  assert (m' = Zpos m1 * 2 ^ s)%Z as Hm'.
  { unfold m'. destruct s as [| p | p]; [lia | | lia].
    rewrite Z.shiftl_mul_pow2 by lia. reflexivity. }
  pose proof (Z_div_mod m' (Zpos m2) ltac:(lia)) as Hdiv.
  destruct (Z.div_eucl m' (Zpos m2)) as [q r]. destruct Hdiv as [Hqr Hr].
  cbn [fst snd].
  assert (0 < 2 ^ s)%Z as Hpow by (apply Z.pow_pos_nonneg; lia).
  assert (0 <= q)%Z as Hq by nia.
  exists (IZR q + IZR r / IZR (Zpos m2)).
  assert (0 < IZR (Zpos m2)) as Hm2 by (apply IZR_lt; lia).
  split; [| split; [exact Hq | split]].
  - unfold F2R.
    replace e1 with (s + e' + e2)%Z at 1 by (unfold s; lia).
    rewrite !bpow_add.
    assert (IZR (Zpos m1) * bpow s = IZR q * IZR (Zpos m2) + IZR r) as Hreal.
    { rewrite bpow_IZR by exact Hs. rewrite <- mult_IZR, <- Hm', Hqr.
      rewrite plus_IZR, mult_IZR. ring. }
    pose proof (bpow_pos e2). pose proof (bpow_pos e').
    replace (IZR (Zpos m1) * (bpow s * bpow e' * bpow e2))
      with ((IZR q * IZR (Zpos m2) + IZR r) * bpow e' * bpow e2)
      by (rewrite <- Hreal; ring).
    field. split; lra.
  - apply new_location_correct; lia.
  - destruct (Z_le_gt_dec e' (-1074)) as [Hlow | Hhigh].
    + rewrite fexp64_eq. lia.
    + assert (e' <= d1 + e1 - (d2 + e2) - 53)%Z as He'.
      { unfold e' in *. rewrite fexp64_eq in *. lia. }
      pose proof (Zdigits2_bounds (Zpos m1) ltac:(lia)) as [H1lo H1hi].
      pose proof (Zdigits2_bounds (Zpos m2) ltac:(lia)) as [H2lo H2hi].
      pose proof (Zdigits2_pos (Zpos m1) ltac:(lia)) as Hd1.
      pose proof (Zdigits2_pos (Zpos m2) ltac:(lia)) as Hd2.
      fold d1 in H1lo, H1hi, Hd1. fold d2 in H2lo, H2hi, Hd2.
      set (j := (d1 - 1 + s - d2)%Z).
      assert (52 <= j)%Z as Hj by (unfold j, s; lia).
      assert (2 ^ j <= q)%Z as Hqj.
      { assert (2 ^ (d1 - 1 + s) = 2 ^ j * 2 ^ d2)%Z as Hsplit.
        { rewrite <- Z.pow_add_r by lia. f_equal. unfold j. lia. }
        assert (2 ^ (d1 - 1 + s) = 2 ^ (d1 - 1) * 2 ^ s)%Z as Hsplit'
          by (rewrite <- Z.pow_add_r by lia; reflexivity).
        assert (0 < 2 ^ j)%Z by (apply Z.pow_pos_nonneg; lia).
        assert (2 ^ j * Zpos m2 <= m')%Z by nia.
        nia. }
      apply Zdigits2_ge in Hqj; [| lia].
      rewrite fexp64_eq. unfold j, s in *. lia.
Qed.

Lemma SFdiv_rounded (x y : spec_float) :
  valid_binary x = true -> valid_binary y = true ->
  is_finite_SF x = true -> is_finite_SF y = true ->
  SF2R y <> 0 ->
  Rabs (SF2R x / SF2R y) <= bpow 1023 ->
  is_finite_SF (SF64div x y) = true /\
  rounded (SF2R x / SF2R y) (SF2R (SF64div x y)).
Proof.
  intros Vx Vy Fx Fy Hy Hov.
  destruct y as [sy | sy | | sy my ey]; try discriminate Fy;
    [cbn [SF2R] in Hy; lra |].
  destruct x as [sx | sx | | sx mx ex]; try discriminate Fx.
  - split; [reflexivity |]. cbn [SF64div SFdiv]. cbn [SF2R].
    unfold Rdiv. rewrite Rmult_0_l. apply rounded_refl.
  - unfold SF64div. cbn [SFdiv].
    destruct (SFdiv_core_binary_correct mx my ex ey) as [t [Ht [Hq [Hin He]]]].
    destruct (SFdiv_core_binary prec emax (Zpos mx) ex (Zpos my) ey) as [[q e'] l].
    cbn [fst snd] in *.
    assert (0 < F2R (Zpos mx) ex) as Hpx.
    { unfold F2R. pose proof (bpow_pos ex).
      assert (0 < IZR (Zpos mx)) by (apply IZR_lt; lia). nra. }
    assert (0 < F2R (Zpos my) ey) as Hpy.
    { unfold F2R. pose proof (bpow_pos ey).
      assert (0 < IZR (Zpos my)) by (apply IZR_lt; lia). nra. }
    assert (0 < F2R (Zpos mx) ex / F2R (Zpos my) ey) as Hpq
        by (apply Rdiv_lt_0_compat; assumption).
    assert (SF2R (S754_finite sx mx ex) / SF2R (S754_finite sy my ey) =
            (if xorb sx sy then - (t * bpow e') else t * bpow e')) as Hquot.
    { rewrite Ht, !SF2R_finite_sign.
      destruct sx, sy; cbn [xorb]; field; lra. }
    rewrite Hquot in *.
    assert (t * bpow e' <= bpow 1023) as Hov'.
    { rewrite Ht in *.
      destruct (xorb sx sy); [rewrite Rabs_Ropp in Hov |];
        rewrite Rabs_pos_eq in Hov by lra; exact Hov. }
    destruct (binary_round_aux_rounded (xorb sx sy) q e' l t Hq Hin He Hov')
      as [Hfin [Hr _]].
    split; assumption.
Qed.

End Division.

Section SquareRoot.
Local Open Scope R_scope.

Lemma sqrt_bpow_double (e : Z) : sqrt (bpow (2 * e)) = bpow e.
Proof.
  replace (2 * e)%Z with (e + e)%Z by lia. rewrite bpow_add.
  apply sqrt_square. pose proof (bpow_pos e). lra.
Qed.

Lemma sqrtrem_location (m' q r : Z) :
  (0 <= q)%Z -> (m' = q * q + r)%Z -> (0 <= r <= 2 * q)%Z ->
  inbetween_int q
    (if (r =? 0)%Z then loc_Exact
     else loc_Inexact (if (r <=? q)%Z then Lt else Gt))
    (sqrt (IZR m')).
Proof.
  intros Hq Hm Hr.
  assert (0 <= IZR q) as Hq' by (apply IZR_le; lia).
  assert (IZR m' = IZR q * IZR q + IZR r) as Hm'
      by (rewrite Hm, plus_IZR, mult_IZR; reflexivity).
  assert (0 <= IZR r) as Hr0 by (apply IZR_le; lia).
  assert (IZR r <= 2 * IZR q) as Hr1.
  { rewrite <- (mult_IZR 2). apply IZR_le. lia. }
  assert (0 <= IZR m') as Hm0 by nra.
  pose proof (sqrt_pos (IZR m')) as Hs0.
  pose proof (sqrt_sqrt (IZR m') Hm0) as Hss.
  set (y := sqrt (IZR m')) in *.
  destruct (Z.eqb_spec r 0) as [Hz | Hnz]; cbn [inbetween_int].
  - rewrite Hz in Hm'. simpl in Hm'. nra.
  - assert (1 <= IZR r) as Hr2 by (apply IZR_le; lia).
    destruct (Z.leb_spec r q) as [Hle | Hgt]; cbn [inbetween_int].
    + apply IZR_le in Hle. split; nra.
    + assert (IZR q + 1 <= IZR r) as Hgt'.
      { rewrite <- plus_IZR. apply IZR_le. lia. }
      split; nra.
Qed.

Lemma SFsqrt_core_binary_correct (m : positive) (e : Z) :
  let q := fst (fst (SFsqrt_core_binary prec emax (Zpos m) e)) in
  let e' := snd (fst (SFsqrt_core_binary prec emax (Zpos m) e)) in
  let l := snd (SFsqrt_core_binary prec emax (Zpos m) e) in
  exists t : R,
    t * bpow e' = sqrt (F2R (Zpos m) e) /\
    (0 <= q)%Z /\
    inbetween_int q l t /\
    (e' <= fexp64 (Zdigits2 q + e'))%Z /\
    (Z.div2 (Zdigits2 (Zpos m) + e + 1) <= Zdigits2 q + e')%Z.
Proof.
  unfold SFsqrt_core_binary.
  set (d := Zdigits2 (Zpos m)).
  fold (fexp64 (Z.div2 (d + e + 1))).
  set (e' := Z.min (fexp64 (Z.div2 (d + e + 1))) (Z.div2 e)).
  set (s := (e - 2 * e')%Z).
  assert (0 <= s)%Z as Hs.
  { unfold s, e'. rewrite (Z.div2_div e). pose proof (Z.mul_div_le e 2 ltac:(lia)). lia. }
  set (m' := match s with
             | 0%Z => Zpos m
             | Zpos _ => Z.shiftl (Zpos m) s
             | Zneg _ => 0%Z
             end).
  assert (m' = Zpos m * 2 ^ s)%Z as Hm'.
  { unfold m'. destruct s as [| p | p]; [lia | | lia].
    rewrite Z.shiftl_mul_pow2 by lia. reflexivity. }
  assert (0 < 2 ^ s)%Z as Hpow by (apply Z.pow_pos_nonneg; lia).
  pose proof (Z.sqrtrem_spec m' ltac:(nia)) as Hspec.
  assert (0 <= fst (Z.sqrtrem m'))%Z as Hq.
  { rewrite Z.sqrtrem_sqrt. apply Z.sqrt_nonneg. }
  destruct (Z.sqrtrem m') as [q r]. cbn [fst snd] in *.
  destruct Hspec as [Hqr Hr].
  exists (sqrt (IZR m')).
  split; [| split; [exact Hq | split; [| ]]].
  - unfold F2R. replace e with (s + 2 * e')%Z at 1 by (unfold s; lia).
    rewrite bpow_add, <- Rmult_assoc.
    rewrite sqrt_mult_alt.
    + rewrite sqrt_bpow_double. f_equal. f_equal.
      rewrite Hm', mult_IZR, bpow_IZR by exact Hs. reflexivity.
    + pose proof (bpow_pos s).
      assert (0 < IZR (Zpos m)) by (apply IZR_lt; lia). nra.
  - apply sqrtrem_location; [exact Hq | exact Hqr | lia].
  - assert (Z.div2 (d + e + 1) <= Zdigits2 q + e')%Z as Hdig.
    { pose proof (Zdigits2_bounds (Zpos m) ltac:(lia)) as [Hlo _].
      pose proof (Zdigits2_pos (Zpos m) ltac:(lia)) as Hd.
      fold d in Hlo, Hd.
      set (j := ((d - 1 + s) / 2)%Z).
      assert (0 <= j)%Z as Hj by (unfold j; apply Z.div_pos; lia).
      assert (2 * j <= d - 1 + s)%Z as Hj2
          by (unfold j; apply Z.mul_div_le; lia).
      assert (2 ^ j <= q)%Z as Hqj.
      { assert (2 ^ (2 * j) <= 2 ^ (d - 1 + s))%Z as H1
            by (apply Z.pow_le_mono_r; lia).
        replace (2 * j)%Z with (j + j)%Z in H1 by lia.
        rewrite !Z.pow_add_r in H1 by lia.
        assert (0 < 2 ^ j)%Z by (apply Z.pow_pos_nonneg; lia).
        assert (0 < 2 ^ (d - 1))%Z by (apply Z.pow_pos_nonneg; lia).
        assert (2 ^ j * 2 ^ j <= m')%Z by nia.
        nia. }
      apply Zdigits2_ge in Hqj; [| exact Hj].
      rewrite Z.div2_div. unfold j, s in *.
      assert (d + e + 1 = (d - 1 + (e - 2 * e')) + (e' + 1) * 2)%Z as -> by lia.
      rewrite Z.div_add by lia. lia. }
    split; [| exact Hdig].
    assert (e' <= fexp64 (Z.div2 (d + e + 1)))%Z as He' by (unfold e'; lia).
    rewrite fexp64_eq in *. lia.
Qed.

Lemma SFsqrt_rounded (x : spec_float) :
  valid_binary x = true ->
  is_finite_SF x = true ->
  0 <= SF2R x ->
  is_finite_SF (SF64sqrt x) = true /\
  rounded_sum (sqrt (SF2R x)) (SF2R (SF64sqrt x)).
Proof.
  intros Vx Fx Hx.
  destruct x as [sx | sx | | sx mx ex]; try discriminate Fx.
  - split; [reflexivity |]. cbn [SF64sqrt SFsqrt SF2R]. rewrite sqrt_0.
    apply rounded_sum_refl.
  - assert (0 < F2R (Zpos mx) ex) as Hpx.
    { unfold F2R. pose proof (bpow_pos ex).
      assert (0 < IZR (Zpos mx)) by (apply IZR_lt; lia). nra. }
    rewrite SF2R_finite_sign in Hx.
    destruct sx; [lra |].
    rewrite SF2R_finite_sign.
    unfold SF64sqrt. cbn [SFsqrt].
    destruct (valid_finite _ _ _ Vx) as [Cx Bx].
    destruct (SFsqrt_core_binary_correct mx ex) as [t [Ht [Hq [Hin [He Hdig]]]]].
    destruct (SFsqrt_core_binary prec emax (Zpos mx) ex) as [[q e'] l].
    cbn [fst snd] in *.
    pose proof (Zdigits2_pos (Zpos mx) ltac:(lia)) as Hd.
    destruct (Zdigits2_bpow (Zpos mx) ltac:(lia)) as [Hlo Hhi].
    (* the argument lies between 2^-1074 and 2^1024 *)
    assert (bpow (-1074) <= F2R (Zpos mx) ex) as Hxlo.
    { unfold F2R. assert (1 <= IZR (Zpos mx)) by (apply IZR_le; lia).
      assert (bpow (-1074) <= bpow ex) by (apply bpow_le; rewrite fexp64_eq in Cx; lia).
      pose proof (bpow_pos (-1074)). nra. }
    assert (F2R (Zpos mx) ex <= bpow 1024) as Hxhi.
    { unfold F2R.
      assert (bpow (Zdigits2 (Zpos mx)) * bpow ex <= bpow 1024).
      { rewrite <- bpow_add. apply bpow_le. rewrite fexp64_eq in Cx. lia. }
      pose proof (bpow_pos ex). nra. }
    assert (bpow (-537) <= sqrt (F2R (Zpos mx) ex)) as Hslo.
    { rewrite <- (sqrt_bpow_double (-537)). apply sqrt_le_1_alt. exact Hxlo. }
    assert (sqrt (F2R (Zpos mx) ex) <= bpow 512) as Hshi.
    { rewrite <- (sqrt_bpow_double 512). apply sqrt_le_1_alt. exact Hxhi. }
    assert (t * bpow e' <= bpow 1023) as Hov.
    { rewrite Ht. assert (bpow 512 <= bpow 1023) by (apply bpow_le; lia). lra. }
    destruct (binary_round_aux_rounded false q e' l t Hq Hin He Hov)
      as [Hfin [[_ [Hnorm [Hp1 Hp2]]] _]].
    split; [exact Hfin |]. rewrite Ht in *.
    unfold rounded_sum. split; [| split; assumption].
    apply Hnorm.
    rewrite Rabs_pos_eq by (pose proof (bpow_pos (-537)); lra).
    assert (bpow (-1022) <= bpow (-537)) by (apply bpow_le; lia). lra.
Qed.

End SquareRoot.

Section Comparison.
Local Open Scope R_scope.

Lemma canonical_lt (m1 m2 : positive) (e1 e2 : Z) :
  (fexp64 (Zdigits2 (Zpos m1) + e1) = e1)%Z ->
  (fexp64 (Zdigits2 (Zpos m2) + e2) = e2)%Z ->
  (e1 < e2)%Z ->
  F2R (Zpos m1) e1 < F2R (Zpos m2) e2.
Proof.
  intros C1 C2 Hlt. rewrite fexp64_eq in C1, C2.
  destruct (Zdigits2_bpow (Zpos m1) ltac:(lia)) as [_ Hhi].
  destruct (Zdigits2_bpow (Zpos m2) ltac:(lia)) as [Hlo _].
  unfold F2R.
  assert (IZR (Zpos m1) * bpow e1 < bpow (Zdigits2 (Zpos m1) + e1)) as H1.
  { rewrite bpow_add. pose proof (bpow_pos e1). nra. }
  assert (bpow (Zdigits2 (Zpos m2) - 1 + e2) <= IZR (Zpos m2) * bpow e2) as H2.
  { rewrite bpow_add. pose proof (bpow_pos e2). nra. }
  assert (bpow (Zdigits2 (Zpos m1) + e1) <= bpow (Zdigits2 (Zpos m2) - 1 + e2)) as H3
      by (apply bpow_le; lia).
  lra.
Qed.

Lemma same_exponent_compare (m1 m2 : positive) (e : Z) :
  match Pos.compare_cont Eq m1 m2 with
  | Lt => F2R (Zpos m1) e < F2R (Zpos m2) e
  | Eq => F2R (Zpos m1) e = F2R (Zpos m2) e
  | Gt => F2R (Zpos m2) e < F2R (Zpos m1) e
  end.
Proof.
  change (Pos.compare_cont Eq m1 m2) with (Pos.compare m1 m2).
  unfold F2R. pose proof (bpow_pos e).
  destruct (Pos.compare_spec m1 m2) as [Heq | Hlt | Hgt].
  - rewrite Heq. reflexivity.
  - assert (IZR (Zpos m1) < IZR (Zpos m2)) by (apply IZR_lt; lia). nra.
  - assert (IZR (Zpos m2) < IZR (Zpos m1)) by (apply IZR_lt; lia). nra.
Qed.

Lemma positive_compare (m1 m2 : positive) (e1 e2 : Z) :
  (fexp64 (Zdigits2 (Zpos m1) + e1) = e1)%Z ->
  (fexp64 (Zdigits2 (Zpos m2) + e2) = e2)%Z ->
  ordered match Z.compare e1 e2 with
          | Lt => Lt
          | Gt => Gt
          | Eq => Pos.compare_cont Eq m1 m2
          end (F2R (Zpos m1) e1) (F2R (Zpos m2) e2).
Proof.
  intros C1 C2. destruct (Z.compare_spec e1 e2) as [Heq | Hlt | Hgt].
  - subst e2. pose proof (same_exponent_compare m1 m2 e1) as H.
    destruct (Pos.compare_cont Eq m1 m2); exact H.
  - apply canonical_lt; assumption.
  - cbn [ordered]. apply canonical_lt; assumption.
Qed.

Lemma SFcompare_correct (x y : spec_float) :
  valid_binary x = true -> valid_binary y = true ->
  is_finite_SF x = true -> is_finite_SF y = true ->
  exists c : comparison,
    SFcompare x y = Some c /\ ordered c (SF2R x) (SF2R y).
Proof.
  intros Vx Vy Fx Fy.
  destruct x as [sx | sx | | sx mx ex]; try discriminate Fx;
    destruct y as [sy | sy | | sy my ey]; try discriminate Fy.
  - exists Eq. split; reflexivity.
  - assert (0 < F2R (Zpos my) ey) as Hpy.
    { unfold F2R. pose proof (bpow_pos ey).
      assert (0 < IZR (Zpos my)) by (apply IZR_lt; lia). nra. }
    exists (if sy then Gt else Lt). split; [reflexivity |].
    rewrite SF2R_finite_sign. cbn [SF2R]. destruct sy; cbn [ordered]; lra.
  - assert (0 < F2R (Zpos mx) ex) as Hpx.
    { unfold F2R. pose proof (bpow_pos ex).
      assert (0 < IZR (Zpos mx)) by (apply IZR_lt; lia). nra. }
    exists (if sx then Lt else Gt). split; [reflexivity |].
    rewrite SF2R_finite_sign. cbn [SF2R]. destruct sx; cbn [ordered]; lra.
  - destruct (valid_finite _ _ _ Vx) as [Cx _].
    destruct (valid_finite _ _ _ Vy) as [Cy _].
    assert (0 < F2R (Zpos mx) ex) as Hpx.
    { unfold F2R. pose proof (bpow_pos ex).
      assert (0 < IZR (Zpos mx)) by (apply IZR_lt; lia). nra. }
    assert (0 < F2R (Zpos my) ey) as Hpy.
    { unfold F2R. pose proof (bpow_pos ey).
      assert (0 < IZR (Zpos my)) by (apply IZR_lt; lia). nra. }
    pose proof (positive_compare mx my ex ey Cx Cy) as Hc.
    rewrite !SF2R_finite_sign. cbn [SFcompare].
    destruct sx, sy.
    + eexists. split; [reflexivity |].
      change (IntDef.Z.compare ex ey) with (Z.compare ex ey).
      change (PosDef.Pos.compare_cont Eq mx my) with (Pos.compare_cont Eq mx my).
      destruct (Z.compare ex ey); [destruct (Pos.compare_cont Eq mx my) | |];
        cbn [ordered CompOpp] in *; lra.
    + exists Lt. split; [reflexivity |]. cbn [ordered]. lra.
    + exists Gt. split; [reflexivity |]. cbn [ordered]. lra.
    + eexists. split; [reflexivity |].
      change (IntDef.Z.compare ex ey) with (Z.compare ex ey).
      change (PosDef.Pos.compare_cont Eq mx my) with (Pos.compare_cont Eq mx my).
      destruct (Z.compare ex ey); [destruct (Pos.compare_cont Eq mx my) | |];
        cbn [ordered] in *; lra.
Qed.

Lemma SFltb_correct (x y : spec_float) :
  valid_binary x = true -> valid_binary y = true ->
  is_finite_SF x = true -> is_finite_SF y = true ->
  SFltb x y = true <-> SF2R x < SF2R y.
Proof.
  intros Vx Vy Fx Fy.
  destruct (SFcompare_correct x y Vx Vy Fx Fy) as [c [Hc Ho]].
  unfold SFltb. rewrite Hc.
  destruct c; cbn [ordered] in Ho; split; intros H; try discriminate; try reflexivity; lra.
Qed.

Lemma SFleb_correct (x y : spec_float) :
  valid_binary x = true -> valid_binary y = true ->
  is_finite_SF x = true -> is_finite_SF y = true ->
  SFleb x y = true <-> SF2R x <= SF2R y.
Proof.
  intros Vx Vy Fx Fy.
  destruct (SFcompare_correct x y Vx Vy Fx Fy) as [c [Hc Ho]].
  unfold SFleb. rewrite Hc.
  destruct c; cbn [ordered] in Ho; split; intros H; try discriminate; try reflexivity; lra.
Qed.

End Comparison.

(** ** The real number that a binary64 number denotes *)

Section Binary64Reals.
Local Open Scope R_scope.

Lemma mul_rounded (a b : float) :
  finite a -> finite b -> Rabs (B2R a * B2R b) <= bpow 1023 ->
  finite (a * b)%float /\ rounded (B2R a * B2R b) (B2R (a * b)%float).
Proof.
  unfold finite, B2R. intros Fa Fb Hov. rewrite mul_spec.
  apply SFmul_rounded; auto using Prim2SF_valid.
Qed.

Lemma div_rounded (a b : float) :
  finite a -> finite b -> B2R b <> 0 -> Rabs (B2R a / B2R b) <= bpow 1023 ->
  finite (a / b)%float /\ rounded (B2R a / B2R b) (B2R (a / b)%float).
Proof.
  unfold finite, B2R. intros Fa Fb Hb Hov. rewrite div_spec.
  apply SFdiv_rounded; auto using Prim2SF_valid.
Qed.

Lemma add_rounded (a b : float) :
  finite a -> finite b -> Rabs (B2R a + B2R b) <= bpow 1023 ->
  finite (a + b)%float /\ rounded_sum (B2R a + B2R b) (B2R (a + b)%float).
Proof.
  unfold finite, B2R. intros Fa Fb Hov. rewrite add_spec.
  apply SFadd_rounded; auto using Prim2SF_valid.
Qed.

Lemma sub_rounded (a b : float) :
  finite a -> finite b -> Rabs (B2R a - B2R b) <= bpow 1023 ->
  finite (a - b)%float /\ rounded_sum (B2R a - B2R b) (B2R (a - b)%float).
Proof.
  unfold finite, B2R. intros Fa Fb Hov. rewrite sub_spec.
  apply SFsub_rounded; auto using Prim2SF_valid.
Qed.

Lemma sqrt_rounded (a : float) :
  finite a -> 0 <= B2R a ->
  finite (PrimFloat.sqrt a) /\ rounded_sum (sqrt (B2R a)) (B2R (PrimFloat.sqrt a)).
Proof.
  unfold finite, B2R. intros Fa Ha. rewrite sqrt_spec.
  apply SFsqrt_rounded; auto using Prim2SF_valid.
Qed.

Lemma ltb_B2R (a b : float) :
  finite a -> finite b -> (a <? b)%float = true <-> B2R a < B2R b.
Proof.
  unfold finite, B2R. intros Fa Fb. rewrite ltb_spec.
  apply SFltb_correct; auto using Prim2SF_valid.
Qed.

Lemma leb_B2R (a b : float) :
  finite a -> finite b -> (a <=? b)%float = true <-> B2R a <= B2R b.
Proof.
  unfold finite, B2R. intros Fa Fb. rewrite leb_spec.
  apply SFleb_correct; auto using Prim2SF_valid.
Qed.

End Binary64Reals.

(** ** Error bounds for the vector operations of the program *)

Section ErrorAnalysis.
Local Open Scope R_scope.

Lemma sqrt_le_intro (s y : R) : 0 <= y -> s <= y * y -> sqrt s <= y.
Proof.
  intros Hy Hs. rewrite <- (sqrt_square y Hy). apply sqrt_le_1_alt. exact Hs.
Qed.

Lemma sqrt_ge_intro (s y : R) : 0 <= y -> y * y <= s -> y <= sqrt s.
Proof.
  intros Hy Hs. rewrite <- (sqrt_square y Hy). apply sqrt_le_1_alt. exact Hs.
Qed.

Lemma u64_small : u64 <= / 1000000000000000.
Proof.
  unfold u64. change (bpow (-53)) with (bpow (Z.opp 53)).
  rewrite bpow_opp, bpow_IZR by lia.
  change (2 ^ 53)%Z with 9007199254740992%Z. lra.
Qed.

Lemma tau64_pos : 0 < tau64.
Proof. apply bpow_pos. Qed.

Lemma tau64_square : tau64 * tau64 = 8 * eta64.
Proof.
  unfold tau64, eta64. rewrite <- bpow_add.
  replace (-536 + -536)%Z with (3 + -1075)%Z by lia. rewrite bpow_add.
  rewrite (bpow_IZR 3) by lia. reflexivity.
Qed.

Lemma tau64_small : tau64 <= u64 * bpow (-483).
Proof. unfold tau64, u64. rewrite <- bpow_add. apply bpow_le. lia. Qed.

(** The computed magnitude of a vector, from the errors of its four
    operations. *)
Lemma magnitude_real (A B AA BB S M : R) :
  Rabs (AA - A * A) <= u64 * Rabs (A * A) + eta64 -> 0 <= AA ->
  Rabs (BB - B * B) <= u64 * Rabs (B * B) + eta64 -> 0 <= BB ->
  Rabs (S - (AA + BB)) <= u64 * Rabs (AA + BB) -> 0 <= S ->
  Rabs (M - sqrt S) <= u64 * Rabs (sqrt S) ->
  Rabs (M - sqrt (A * A + B * B)) <= 3 * u64 * sqrt (A * A + B * B) + 2 * tau64.
Proof.
  intros HAA HAA0 HBB HBB0 HS HS0 HM.
  pose proof u64_pos as Hu. pose proof u64_small as Hu'.
  pose proof eta64_pos as He. pose proof tau64_pos as Ht.
  pose proof tau64_square as Htt.
  assert (0 <= A * A) as HA2 by nra. assert (0 <= B * B) as HB2 by nra.
  rewrite (Rabs_pos_eq (A * A)) in HAA by exact HA2.
  rewrite (Rabs_pos_eq (B * B)) in HBB by exact HB2.
  rewrite (Rabs_pos_eq (AA + BB)) in HS by lra.
  pose proof (sqrt_pos S) as HsS.
  rewrite (Rabs_pos_eq (sqrt S)) in HM by exact HsS.
  apply Rabs_le_inv in HAA. apply Rabs_le_inv in HBB.
  apply Rabs_le_inv in HS. apply Rabs_le_inv in HM.
  assert (AA + BB <= (A * A + B * B) * (1 + u64) + 2 * eta64) as Hsum_up by lra.
  assert ((A * A + B * B) * (1 - u64) - 2 * eta64 <= AA + BB) as Hsum_lo by lra.
  set (Q := A * A + B * B) in *.
  assert (0 <= Q) as HQ by (unfold Q; lra).
  pose proof (sqrt_pos Q) as HN0.
  pose proof (sqrt_sqrt Q HQ) as HNN.
  set (N := sqrt Q) in *.
  clearbody Q N. clear HAA HBB.
  (* the sum of the squares *)
  assert (S <= Q * (1 + u64) * (1 + u64) + 2 * eta64 * (1 + u64)) as HSup.
  { assert (u64 * (AA + BB) <= u64 * (Q * (1 + u64) + 2 * eta64))
      by (apply Rmult_le_compat_l; lra).
    lra. }
  assert (Q * (1 - u64) * (1 - u64) - 2 * eta64 <= S) as HSlo.
  { assert ((1 - u64) * (Q * (1 - u64) - 2 * eta64) <= (1 - u64) * (AA + BB))
      by (apply Rmult_le_compat_l; lra).
    assert (0 <= u64 * eta64) by nra.
    lra. }
  (* its square root *)
  assert (sqrt S <= N * (1 + u64) + tau64) as Hup.
  { apply sqrt_le_intro; [nra |].
    replace ((N * (1 + u64) + tau64) * (N * (1 + u64) + tau64))
      with (N * N * (1 + u64) * (1 + u64) + 2 * N * (1 + u64) * tau64 + tau64 * tau64)
      by ring.
    rewrite HNN, Htt.
    assert (0 <= 2 * N * (1 + u64) * tau64) by (repeat apply Rmult_le_pos; lra).
    assert (u64 * eta64 <= eta64) by nra.
    lra. }
  assert (N * (1 - u64) - tau64 <= sqrt S) as Hlo.
  { destruct (Rle_lt_dec (N * (1 - u64) - tau64) 0) as [Hneg | Hpos]; [lra |].
    apply sqrt_ge_intro; [lra |].
    replace ((N * (1 - u64) - tau64) * (N * (1 - u64) - tau64))
      with (N * N * (1 - u64) * (1 - u64) - 2 * (N * (1 - u64)) * tau64 + tau64 * tau64)
      by ring.
    rewrite HNN.
    assert (tau64 * tau64 <= (N * (1 - u64)) * tau64) by nra.
    lra. }
  clear HSup HSlo HS Hsum_up Hsum_lo HNN Htt.
  assert (u64 * sqrt S <= u64 * (N * (1 + u64) + tau64))
    by (apply Rmult_le_compat_l; lra).
  assert (0 <= u64 * N) by (apply Rmult_le_pos; lra).
  assert (0 <= (u64 * N) * (1 - u64)) by (apply Rmult_le_pos; lra).
  assert (0 <= tau64 * (1 - u64)) by (apply Rmult_le_pos; lra).
  apply Rabs_le. split; lra.
Qed.

Lemma Rabs_le_bpow_mul (a b : R) (i j k : Z) :
  Rabs a <= bpow i -> Rabs b <= bpow j -> (i + j <= k)%Z -> Rabs (a * b) <= bpow k.
Proof.
  intros Ha Hb Hk. rewrite Rabs_mult.
  assert (bpow (i + j) <= bpow k) by (apply bpow_le; exact Hk).
  rewrite bpow_add in *. pose proof (Rabs_pos a). pose proof (Rabs_pos b).
  pose proof (bpow_pos i). pose proof (bpow_pos j). nra.
Qed.

Lemma magnitude_error (a b : float) :
  finite a -> finite b ->
  Rabs (B2R a) <= bpow 500 -> Rabs (B2R b) <= bpow 500 ->
  finite (PrimFloat.sqrt (a * a + b * b))%float /\
  Rabs (B2R (PrimFloat.sqrt (a * a + b * b))%float -
        sqrt (B2R a * B2R a + B2R b * B2R b)) <=
  3 * u64 * sqrt (B2R a * B2R a + B2R b * B2R b) + 2 * tau64.
Proof.
  intros Fa Fb Ha Hb.
  pose proof u64_pos as Hu. pose proof u64_small as Hu'.
  pose proof eta64_pos as He.
  assert (bpow 1000 + bpow 1000 = bpow 1001) as H1001.
  { replace 1001%Z with (1000 + 1)%Z by lia. rewrite bpow_succ. lra. }
  assert (bpow 1001 <= bpow 1002) as H1002 by (apply bpow_le; lia).
  assert (bpow 1002 <= bpow 1023) as H1023 by (apply bpow_le; lia).
  assert (eta64 <= bpow 1000) as Heta by (apply bpow_le; lia).
  pose proof (bpow_pos 1000) as Hp1000.
  assert (Rabs (B2R a * B2R a) <= bpow 1000) as Haa
      by (apply (Rabs_le_bpow_mul _ _ 500 500); [assumption | assumption | lia]).
  assert (Rabs (B2R b * B2R b) <= bpow 1000) as Hbb
      by (apply (Rabs_le_bpow_mul _ _ 500 500); [assumption | assumption | lia]).
  destruct (mul_rounded a a Fa Fa ltac:(lra)) as [Faa [Eaa [_ [Paa _]]]].
  destruct (mul_rounded b b Fb Fb ltac:(lra)) as [Fbb [Ebb [_ [Pbb _]]]].
  assert (0 <= B2R a * B2R a) as Ha2 by nra.
  assert (0 <= B2R b * B2R b) as Hb2 by nra.
  specialize (Paa Ha2). specialize (Pbb Hb2).
  assert (Rabs (B2R (a * a)%float + B2R (b * b)%float) <= bpow 1023) as Hsum.
  { rewrite Rabs_pos_eq by lra.
    apply Rabs_le_inv in Eaa. apply Rabs_le_inv in Ebb.
    rewrite (Rabs_pos_eq _ Ha2) in *. rewrite (Rabs_pos_eq _ Hb2) in *.
    assert (8 * bpow 1000 <= bpow 1023) as H8.
    { assert (bpow 3 = 8) as <- by (rewrite bpow_IZR by lia; reflexivity).
      rewrite <- bpow_add. apply bpow_le. lia. }
    assert (u64 * (B2R a * B2R a) <= 1 * (B2R a * B2R a))
      by (apply Rmult_le_compat_r; lra).
    assert (u64 * (B2R b * B2R b) <= 1 * (B2R b * B2R b))
      by (apply Rmult_le_compat_r; lra).
    lra. }
  destruct (add_rounded _ _ Faa Fbb Hsum) as [Fs [Es [Ps _]]].
  specialize (Ps ltac:(lra)).
  destruct (sqrt_rounded _ Fs Ps) as [Fm [Em _]].
  split; [exact Fm |].
  apply (magnitude_real (B2R a) (B2R b) (B2R (a * a)%float) (B2R (b * b)%float)
           (B2R (a * a + b * b)%float)); assumption.
Qed.

End ErrorAnalysis.

Section Approximation.
Local Open Scope R_scope.

Lemma Rabs_le_add (a A e M : R) : Rabs (a - A) <= e -> Rabs A <= M -> Rabs a <= M + e.
Proof.
  intros H1 H2. replace a with (A + (a - A)) by ring.
  eapply Rle_trans; [apply Rabs_triang |]. lra.
Qed.

Lemma Rabs_mul_le (a b Ma Mb : R) :
  Rabs a <= Ma -> Rabs b <= Mb -> Rabs (a * b) <= Ma * Mb.
Proof.
  intros Ha Hb. rewrite Rabs_mult.
  pose proof (Rabs_pos a). pose proof (Rabs_pos b).
  apply Rmult_le_compat; assumption.
Qed.

(** A product of two approximations. *)
Lemma approx_mul (a b : float) (A B ea eb MA MB : R) :
  finite a -> Rabs (B2R a - A) <= ea ->
  finite b -> Rabs (B2R b - B) <= eb ->
  Rabs A <= MA -> Rabs B <= MB ->
  (MA + ea) * (MB + eb) <= bpow 1023 ->
  finite (a * b)%float /\
  Rabs (B2R (a * b)%float - A * B) <=
  ea * (MB + eb) + MA * eb + u64 * ((MA + ea) * (MB + eb)) + eta64.
Proof.
  intros Fa Ea Fb Eb HA HB Hov.
  pose proof (Rabs_le_add _ _ _ _ Ea HA) as Ha.
  pose proof (Rabs_le_add _ _ _ _ Eb HB) as Hb.
  pose proof (Rabs_mul_le _ _ _ _ Ha Hb) as Hab.
  destruct (mul_rounded a b Fa Fb ltac:(lra)) as [Fab [Eab _]].
  split; [exact Fab |].
  replace (B2R (a * b)%float - A * B)
    with ((B2R (a * b)%float - B2R a * B2R b) +
          ((B2R a - A) * B2R b + A * (B2R b - B))) by ring.
  eapply Rle_trans; [apply Rabs_triang |].
  assert (Rabs ((B2R a - A) * B2R b + A * (B2R b - B)) <= ea * (MB + eb) + MA * eb) as H1.
  { eapply Rle_trans; [apply Rabs_triang |].
    apply Rplus_le_compat; apply Rabs_mul_le; assumption. }
  assert (u64 * Rabs (B2R a * B2R b) <= u64 * ((MA + ea) * (MB + eb))) as H2
      by (apply Rmult_le_compat_l; [pose proof u64_pos; lra | exact Hab]).
  lra.
Qed.

(** A sum and a difference of two approximations. *)
Lemma approx_add (a b : float) (A B ea eb M : R) :
  finite a -> Rabs (B2R a - A) <= ea ->
  finite b -> Rabs (B2R b - B) <= eb ->
  Rabs (A + B) <= M ->
  M + ea + eb <= bpow 1023 ->
  finite (a + b)%float /\
  Rabs (B2R (a + b)%float - (A + B)) <= ea + eb + u64 * (M + ea + eb).
Proof.
  intros Fa Ea Fb Eb HM Hov.
  assert (Rabs (B2R a + B2R b - (A + B)) <= ea + eb) as Hd.
  { replace (B2R a + B2R b - (A + B)) with ((B2R a - A) + (B2R b - B)) by ring.
    eapply Rle_trans; [apply Rabs_triang |]. lra. }
  pose proof (Rabs_le_add _ _ _ _ Hd HM) as Hs.
  destruct (add_rounded a b Fa Fb ltac:(lra)) as [Fab [Eab _]].
  split; [exact Fab |].
  replace (B2R (a + b)%float - (A + B))
    with ((B2R (a + b)%float - (B2R a + B2R b)) + (B2R a + B2R b - (A + B))) by ring.
  eapply Rle_trans; [apply Rabs_triang |].
  assert (u64 * Rabs (B2R a + B2R b) <= u64 * (M + (ea + eb))) as H2
      by (apply Rmult_le_compat_l; [pose proof u64_pos; lra | exact Hs]).
  lra.
Qed.

Lemma approx_sub (a b : float) (A B ea eb M : R) :
  finite a -> Rabs (B2R a - A) <= ea ->
  finite b -> Rabs (B2R b - B) <= eb ->
  Rabs (A - B) <= M ->
  M + ea + eb <= bpow 1023 ->
  finite (a - b)%float /\
  Rabs (B2R (a - b)%float - (A - B)) <= ea + eb + u64 * (M + ea + eb).
Proof.
  intros Fa Ea Fb Eb HM Hov.
  assert (Rabs (B2R a - B2R b - (A - B)) <= ea + eb) as Hd.
  { replace (B2R a - B2R b - (A - B)) with ((B2R a - A) + - (B2R b - B)) by ring.
    eapply Rle_trans; [apply Rabs_triang |]. rewrite Rabs_Ropp. lra. }
  pose proof (Rabs_le_add _ _ _ _ Hd HM) as Hs.
  destruct (sub_rounded a b Fa Fb ltac:(lra)) as [Fab [Eab _]].
  split; [exact Fab |].
  replace (B2R (a - b)%float - (A - B))
    with ((B2R (a - b)%float - (B2R a - B2R b)) + (B2R a - B2R b - (A - B))) by ring.
  eapply Rle_trans; [apply Rabs_triang |].
  assert (u64 * Rabs (B2R a - B2R b) <= u64 * (M + (ea + eb))) as H2
      by (apply Rmult_le_compat_l; [pose proof u64_pos; lra | exact Hs]).
  lra.
Qed.

Lemma norm2_pos (a b : R) : 0 <= norm2 a b.
Proof. apply sqrt_pos. Qed.

Lemma norm2_square (a b : R) : norm2 a b * norm2 a b = a * a + b * b.
Proof. apply sqrt_sqrt. nra. Qed.

Lemma norm2_ge_l (a b : R) : Rabs a <= norm2 a b.
Proof.
  apply sqrt_ge_intro; [apply Rabs_pos |].
  rewrite <- Rabs_mult, Rabs_pos_eq by nra. nra.
Qed.

Lemma norm2_ge_r (a b : R) : Rabs b <= norm2 a b.
Proof.
  apply sqrt_ge_intro; [apply Rabs_pos |].
  rewrite <- Rabs_mult, Rabs_pos_eq by nra. nra.
Qed.

Lemma norm2_le_sum (a b : R) : norm2 a b <= Rabs a + Rabs b.
Proof.
  pose proof (Rabs_pos a). pose proof (Rabs_pos b).
  apply sqrt_le_intro; [lra |].
  assert (Rabs a * Rabs a = a * a) as Ha.
  { rewrite <- Rabs_mult. apply Rabs_pos_eq. nra. }
  assert (Rabs b * Rabs b = b * b) as Hb.
  { rewrite <- Rabs_mult. apply Rabs_pos_eq. nra. }
  nra.
Qed.

Lemma cauchy_schwarz (a b f g : R) : a * f + b * g <= norm2 a b * norm2 f g.
Proof.
  pose proof (norm2_pos a b). pose proof (norm2_pos f g).
  pose proof (norm2_square a b) as H1. pose proof (norm2_square f g) as H2.
  set (N := norm2 a b) in *. set (F := norm2 f g) in *.
  assert (0 <= N * F) as HNF by (apply Rmult_le_pos; assumption).
  assert ((a * f + b * g) * (a * f + b * g) <= (N * F) * (N * F)) as Hsq.
  { replace (N * F * (N * F)) with ((N * N) * (F * F)) by ring.
    rewrite H1, H2.
    assert ((a * a + b * b) * (f * f + g * g) - (a * f + b * g) * (a * f + b * g) =
            (a * g - b * f) * (a * g - b * f)) as Hid by ring.
    pose proof (Rle_0_sqr (a * g - b * f)) as Hsq. unfold Rsqr in Hsq. lra. }
  destruct (Rle_lt_dec (a * f + b * g) (N * F)) as [Hle | Hgt]; [exact Hle |].
  assert (N * F * (N * F) < (a * f + b * g) * (a * f + b * g)).
  { apply Rmult_le_0_lt_compat; lra. }
  lra.
Qed.

Lemma norm2_triangle (a b f g : R) :
  norm2 (a + f) (b + g) <= norm2 a b + norm2 f g.
Proof.
  pose proof (norm2_pos a b). pose proof (norm2_pos f g).
  pose proof (norm2_square a b) as H1. pose proof (norm2_square f g) as H2.
  pose proof (cauchy_schwarz a b f g) as Hcs.
  unfold norm2 at 1. apply sqrt_le_intro; [lra |].
  replace ((norm2 a b + norm2 f g) * (norm2 a b + norm2 f g))
    with (norm2 a b * norm2 a b + 2 * (norm2 a b * norm2 f g) + norm2 f g * norm2 f g)
    by ring.
  rewrite H1, H2. nra.
Qed.

Lemma norm2_perturbed (a b a' b' ea eb : R) :
  Rabs (a' - a) <= ea -> Rabs (b' - b) <= eb ->
  Rabs (norm2 a' b' - norm2 a b) <= ea + eb.
Proof.
  intros Ha Hb.
  assert (norm2 (a' - a) (b' - b) <= ea + eb) as Hf.
  { eapply Rle_trans; [apply norm2_le_sum |]. lra. }
  assert (norm2 (a - a') (b - b') = norm2 (a' - a) (b' - b)) as Hsym.
  { unfold norm2. f_equal. ring. }
  pose proof (norm2_triangle a b (a' - a) (b' - b)) as H1.
  replace (a + (a' - a)) with a' in H1 by ring.
  replace (b + (b' - b)) with b' in H1 by ring.
  pose proof (norm2_triangle a' b' (a - a') (b - b')) as H2.
  replace (a' + (a - a')) with a in H2 by ring.
  replace (b' + (b - b')) with b in H2 by ring.
  rewrite Hsym in H2.
  apply Rabs_le. lra.
Qed.

End Approximation.

Section UnitVectors.
Local Open Scope R_scope.

Lemma eta64_small : eta64 <= u64 * bpow (-1022).
Proof. unfold eta64, u64. rewrite <- bpow_add. apply bpow_le. lia. Qed.

(** Above [2^-400] the absolute errors [eta64] and [tau64] are small
    fractions of the relative ones. *)
Lemma absorbed (V : R) :
  bpow (-400) <= V ->
  eta64 <= / 1000 * (u64 * V) /\ tau64 <= / 1000 * (u64 * V).
Proof.
  intros HV. pose proof u64_pos as Hu.
  assert (bpow (-483) <= / 1000 * bpow (-400)) as H1.
  { replace (-400)%Z with (10 + -410)%Z by lia. rewrite bpow_add.
    assert (bpow 10 = 1024) as -> by (rewrite bpow_IZR by lia; reflexivity).
    assert (bpow (-483) <= bpow (-410)) by (apply bpow_le; lia).
    pose proof (bpow_pos (-410)). lra. }
  assert (bpow (-1022) <= bpow (-483)) as H2 by (apply bpow_le; lia).
  pose proof eta64_small as He. pose proof tau64_small as Ht.
  pose proof (bpow_pos (-1022)). pose proof (bpow_pos (-400)).
  assert (u64 * bpow (-483) <= u64 * (/ 1000 * V)) as H3
      by (apply Rmult_le_compat_l; lra).
  assert (u64 * bpow (-1022) <= u64 * bpow (-483)) as H4
      by (apply Rmult_le_compat_l; lra).
  split; lra.
Qed.

Lemma unit_real (A N M H : R) :
  0 < N -> Rabs A <= N ->
  Rabs (M - N) <= 301 / 100 * (u64 * N) ->
  Rabs (H - A / M) <= u64 * Rabs (A / M) + eta64 ->
  Rabs (H - A / N) <= 5 * u64.
Proof.
  intros HN HA HM HH.
  pose proof u64_pos as Hu. pose proof u64_small as Hu'.
  pose proof eta64_pos as He.
  assert (eta64 <= / 2 * u64) as He'.
  { pose proof eta64_small. assert (bpow (-1022) <= bpow (-1)) by (apply bpow_le; lia).
    assert (bpow (-1) = / 2) as Hb.
    { change (-1)%Z with (Z.opp 1). rewrite bpow_opp, bpow_1. reflexivity. }
    rewrite Hb in *. nra. }
  apply Rabs_le_inv in HM.
  assert (0 <= u64 * N) as HuN by nra.
  assert (u64 * N <= / 1000 * N) as HuN' by nra.
  assert (99 / 100 * N <= M) as HMlo by lra.
  assert (0 < M) as HMpos by lra.
  set (q := A / M) in *.
  assert (q * M = A) as Hq by (unfold q; field; lra).
  assert (Rabs q <= 102 / 100) as Hqb.
  { assert (Rabs q * M = Rabs A) as Hqa.
    { rewrite <- Hq, Rabs_mult, (Rabs_pos_eq M) by lra. reflexivity. }
    pose proof (Rabs_pos q).
    destruct (Rle_lt_dec (Rabs q) (102 / 100)) as [Hle | Hgt]; [exact Hle |].
    assert (102 / 100 * M < Rabs q * M) by (apply Rmult_lt_compat_r; lra).
    lra. }
  set (r := (M - N) / N).
  assert (Rabs r <= 301 / 100 * u64) as Hr.
  { unfold r. apply Rabs_le. split.
    - apply Rmult_le_reg_r with N; [lra |].
      replace ((M - N) / N * N) with (M - N) by (field; lra). lra.
    - apply Rmult_le_reg_r with N; [lra |].
      replace ((M - N) / N * N) with (M - N) by (field; lra). lra. }
  assert (A / N = q + q * r) as Hsplit.
  { unfold r. rewrite <- Hq. field. lra. }
  rewrite Hsplit.
  replace (H - (q + q * r)) with ((H - q) - q * r) by ring.
  eapply Rle_trans; [apply Rabs_triang |]. rewrite Rabs_Ropp, Rabs_mult.
  pose proof (Rabs_pos q). pose proof (Rabs_pos r).
  assert (Rabs q * Rabs r <= 102 / 100 * (301 / 100 * u64))
    by (apply Rmult_le_compat; lra).
  assert (u64 * Rabs q <= u64 * (102 / 100))
    by (apply Rmult_le_compat_l; lra).
  lra.
Qed.

Lemma unitVector_error (a b : float) :
  finite a -> finite b ->
  Rabs (B2R a) <= bpow 500 -> Rabs (B2R b) <= bpow 500 ->
  bpow (-400) <= norm2 (B2R a) (B2R b) ->
  finite (a / PrimFloat.sqrt (a * a + b * b))%float /\
  finite (b / PrimFloat.sqrt (a * a + b * b))%float /\
  Rabs (B2R (a / PrimFloat.sqrt (a * a + b * b))%float -
        B2R a / norm2 (B2R a) (B2R b)) <= 5 * u64 /\
  Rabs (B2R (b / PrimFloat.sqrt (a * a + b * b))%float -
        B2R b / norm2 (B2R a) (B2R b)) <= 5 * u64.
Proof.
  intros Fa Fb Ha Hb HN.
  destruct (magnitude_error a b Fa Fb Ha Hb) as [Fm Em].
  fold (norm2 (B2R a) (B2R b)) in Em.
  set (N := norm2 (B2R a) (B2R b)) in *.
  set (m := PrimFloat.sqrt (a * a + b * b)%float) in *.
  pose proof u64_pos as Hu. pose proof u64_small as Hu'.
  destruct (absorbed N HN) as [_ Htau].
  pose proof (bpow_pos (-400)) as Hp.
  assert (0 < N) as HNpos by lra.
  assert (0 <= u64 * N) as HuN by nra.
  assert (Rabs (B2R m - N) <= 301 / 100 * (u64 * N)) as Em' by lra.
  assert (99 / 100 * N <= B2R m) as Hmlo.
  { apply Rabs_le_inv in Em'. assert (u64 * N <= / 1000 * N) by nra. lra. }
  assert (B2R m <> 0) as Hm0 by lra.
  assert (forall c : R, Rabs c <= N -> Rabs (c / B2R m) <= bpow 1023) as Hov.
  { intros c Hc. unfold Rdiv. rewrite Rabs_mult, Rabs_inv, (Rabs_pos_eq (B2R m)) by lra.
    assert (bpow 1 <= bpow 1023) by (apply bpow_le; lia). rewrite bpow_1 in *.
    apply Rle_trans with 2; [| lra].
    apply Rmult_le_reg_r with (B2R m); [lra |].
    rewrite Rmult_assoc, Rinv_l, Rmult_1_r by lra. lra. }
  pose proof (norm2_ge_l (B2R a) (B2R b)) as Hal.
  pose proof (norm2_ge_r (B2R a) (B2R b)) as Hbl.
  fold N in Hal, Hbl.
  destruct (div_rounded a m Fa Fm Hm0 (Hov _ Hal)) as [Fqa [Eqa _]].
  destruct (div_rounded b m Fb Fm Hm0 (Hov _ Hbl)) as [Fqb [Eqb _]].
  split; [exact Fqa |]. split; [exact Fqb |]. split.
  - apply (unit_real (B2R a) N (B2R m)); assumption.
  - apply (unit_real (B2R b) N (B2R m)); assumption.
Qed.

Lemma B2R_two : B2R 2%float = 2 /\ finite 2%float.
Proof.
  split; [| reflexivity]. unfold B2R.
  change (Prim2SF 2%float) with (S754_finite false 4503599627370496 (-51)).
  cbn [SF2R cond_Zopp]. unfold F2R.
  change 4503599627370496%Z with (2 ^ 52)%Z.
  rewrite <- bpow_IZR by lia. rewrite <- bpow_add. apply bpow_1.
Qed.

End UnitVectors.

Section Reflection.
Local Open Scope R_scope.

Lemma approx_exact (a : float) : Rabs (B2R a - B2R a) <= 0.
Proof. rewrite Rminus_diag, Rabs_R0. lra. Qed.

(** One coordinate of the reflected velocity [v - 2 (v . n) n], computed
    with a normal [n] that is within [5 u64] of a unit vector. *)
Lemma reflect_component_error
  (vx vy nx ny vk nk : float) (V NhX NhY Nk : R) :
  finite vx -> finite vy -> finite nx -> finite ny -> finite vk -> finite nk ->
  Rabs (B2R vx) <= V -> Rabs (B2R vy) <= V -> Rabs (B2R vk) <= V ->
  bpow (-400) <= V -> V <= bpow 401 ->
  Rabs (B2R nx - NhX) <= 5 * u64 -> Rabs (B2R ny - NhY) <= 5 * u64 ->
  Rabs (B2R nk - Nk) <= 5 * u64 ->
  Rabs NhX <= 1 -> Rabs NhY <= 1 -> Rabs Nk <= 1 ->
  Rabs (B2R vx * NhX + B2R vy * NhY) <= V ->
  finite (vk - 2 * (vx * nx + vy * ny) * nk)%float /\
  Rabs (B2R (vk - 2 * (vx * nx + vy * ny) * nk)%float -
        (B2R vk - 2 * (B2R vx * NhX + B2R vy * NhY) * Nk)) <= 45 * (u64 * V).
Proof.
  intros Fvx Fvy Fnx Fny Fvk Fnk Hvx Hvy Hvk HVlo HVhi Enx Eny Enk Hnx Hny Hnk Hdot.
  pose proof u64_pos as Hu. pose proof u64_small as Hu'.
  pose proof eta64_pos as He.
  destruct (absorbed V HVlo) as [Heta _].
  pose proof (bpow_pos (-400)) as Hp400.
  assert (0 < V) as HV by lra.
  set (w := u64 * V) in *.
  assert (0 < w) as Hw by (unfold w; nra).
  assert (u64 * w <= / 1000000 * w) as Huw by nra.
  assert (w <= / 1000000 * V) as HwV by (unfold w; nra).
  assert (1000 * bpow 401 <= bpow 1023) as Hbig.
  { assert (1000 <= bpow 10) by (rewrite bpow_IZR by lia; simpl; lra).
    assert (bpow 10 * bpow 401 <= bpow 1023) by (rewrite <- bpow_add; apply bpow_le; lia).
    pose proof (bpow_pos 401). nra. }
  (* the two products of the dot product *)
  destruct (approx_mul vx nx (B2R vx) NhX 0 (5 * u64) V 1
              Fvx (approx_exact vx) Fnx Enx Hvx Hnx ltac:(nra)) as [Fp1 Ep1].
  destruct (approx_mul vy ny (B2R vy) NhY 0 (5 * u64) V 1
              Fvy (approx_exact vy) Fny Eny Hvy Hny ltac:(nra)) as [Fp2 Ep2].
  assert (0 * (1 + 5 * u64) + V * (5 * u64) + u64 * ((V + 0) * (1 + 5 * u64)) + eta64
          <= 61 / 10 * w) as Hb1 by (unfold w in *; nra).
  assert (Rabs (B2R (vx * nx)%float - B2R vx * NhX) <= 61 / 10 * w) as Ep1' by lra.
  assert (Rabs (B2R (vy * ny)%float - B2R vy * NhY) <= 61 / 10 * w) as Ep2' by lra.
  clear Ep1 Ep2 Hb1.
  (* their sum *)
  destruct (approx_add _ _ _ _ _ _ V Fp1 Ep1' Fp2 Ep2' Hdot ltac:(lra)) as [Fd Ed].
  assert (Rabs (B2R (vx * nx + vy * ny)%float - (B2R vx * NhX + B2R vy * NhY))
          <= 133 / 10 * w) as Ed'.
  { eapply Rle_trans; [exact Ed |]. unfold w in *. nra. }
  clear Ed.
  (* twice the sum *)
  destruct B2R_two as [Htwo Ftwo].
  assert (Rabs (B2R 2%float - 2) <= 0) as Etwo
      by (rewrite Htwo, Rminus_diag, Rabs_R0; lra).
  assert (Rabs 2 <= 2) as Htwo' by (rewrite Rabs_pos_eq; lra).
  destruct (approx_mul 2%float _ 2 _ 0 _ 2 V Ftwo Etwo Fd Ed' Htwo' Hdot ltac:(nra))
    as [Ft Et].
  assert (Rabs (B2R (2 * (vx * nx + vy * ny))%float -
                2 * (B2R vx * NhX + B2R vy * NhY)) <= 287 / 10 * w) as Et'.
  { eapply Rle_trans; [exact Et |]. unfold w in *. nra. }
  clear Et.
  (* times the coordinate of the normal *)
  assert (Rabs (2 * (B2R vx * NhX + B2R vy * NhY)) <= 2 * V) as Hdot2.
  { rewrite Rabs_mult, (Rabs_pos_eq 2) by lra. lra. }
  destruct (approx_mul _ nk _ Nk _ (5 * u64) (2 * V) 1 Ft Et' Fnk Enk Hdot2 Hnk
              ltac:(nra)) as [Fw Ew].
  assert (Rabs (B2R (2 * (vx * nx + vy * ny) * nk)%float -
                2 * (B2R vx * NhX + B2R vy * NhY) * Nk) <= 408 / 10 * w) as Ew'.
  { eapply Rle_trans; [exact Ew |]. unfold w in *. nra. }
  clear Ew.
  (* and the difference *)
  assert (Rabs (B2R vk - 2 * (B2R vx * NhX + B2R vy * NhY) * Nk) <= 3 * V) as Hres.
  { replace (B2R vk - 2 * (B2R vx * NhX + B2R vy * NhY) * Nk)
      with (B2R vk + - (2 * (B2R vx * NhX + B2R vy * NhY) * Nk)) by ring.
    eapply Rle_trans; [apply Rabs_triang |]. rewrite Rabs_Ropp.
    assert (Rabs (2 * (B2R vx * NhX + B2R vy * NhY) * Nk) <= 2 * V * 1)
      by (apply Rabs_mul_le; assumption).
    lra. }
  destruct (approx_sub vk _ _ _ 0 _ (3 * V) Fvk (approx_exact vk) Fw Ew' Hres
              ltac:(lra)) as [Fr Er].
  split; [exact Fr |].
  eapply Rle_trans; [exact Er |]. unfold w in *. nra.
Qed.

(** The exact reflection in a unit vector keeps the norm. *)
Lemma reflection_norm (vx vy nx ny : R) :
  nx * nx + ny * ny = 1 ->
  norm2 (vx - 2 * (vx * nx + vy * ny) * nx) (vy - 2 * (vx * nx + vy * ny) * ny) =
  norm2 vx vy.
Proof.
  intros Hn. unfold norm2. f_equal.
  set (d := vx * nx + vy * ny).
  replace ((vx - 2 * d * nx) * (vx - 2 * d * nx) + (vy - 2 * d * ny) * (vy - 2 * d * ny))
    with (vx * vx + vy * vy - 4 * d * (vx * nx + vy * ny) + 4 * d * d * (nx * nx + ny * ny))
    by ring.
  rewrite Hn. unfold d. ring.
Qed.

Lemma unit_quotients (a b : R) :
  0 < norm2 a b ->
  (a / norm2 a b) * (a / norm2 a b) + (b / norm2 a b) * (b / norm2 a b) = 1 /\
  Rabs (a / norm2 a b) <= 1 /\ Rabs (b / norm2 a b) <= 1.
Proof.
  intros HN. pose proof (norm2_square a b) as Hsq.
  pose proof (norm2_ge_l a b) as Hl. pose proof (norm2_ge_r a b) as Hr.
  set (N := norm2 a b) in *.
  split; [| split].
  - replace (a / N * (a / N) + b / N * (b / N)) with ((a * a + b * b) / (N * N))
      by (field; lra).
    rewrite <- Hsq. field. lra.
  - unfold Rdiv. rewrite Rabs_mult, Rabs_inv, (Rabs_pos_eq N) by lra.
    apply Rmult_le_reg_r with N; [lra |].
    rewrite Rmult_assoc, Rinv_l, Rmult_1_r by lra. lra.
  - unfold Rdiv. rewrite Rabs_mult, Rabs_inv, (Rabs_pos_eq N) by lra.
    apply Rmult_le_reg_r with N; [lra |].
    rewrite Rmult_assoc, Rinv_l, Rmult_1_r by lra. lra.
Qed.

End Reflection.

Section SpeedAndLength.
Local Open Scope R_scope.

Lemma cauchy_schwarz_abs (a b f g : R) :
  Rabs (a * f + b * g) <= norm2 a b * norm2 f g.
Proof.
  apply Rabs_le. split.
  - pose proof (cauchy_schwarz (- a) (- b) f g) as H.
    assert (norm2 (- a) (- b) = norm2 a b) as Hn by (unfold norm2; f_equal; ring).
    rewrite Hn in H. lra.
  - apply cauchy_schwarz.
Qed.

Lemma bpow_m46 : bpow (-46) = 128 * u64.
Proof.
  unfold u64. replace (-46)%Z with (7 + -53)%Z by lia. rewrite bpow_add.
  rewrite (bpow_IZR 7) by lia. reflexivity.
Qed.

Lemma bpow_m48 : bpow (-48) = 32 * u64.
Proof.
  unfold u64. replace (-48)%Z with (5 + -53)%Z by lia. rewrite bpow_add.
  rewrite (bpow_IZR 5) by lia. reflexivity.
Qed.

(** The speed after the reflection in the unit vector along [(dx, dy)]. *)
Lemma reflection_speed_error (dx dy vx vy : float) :
  finite dx -> finite dy -> finite vx -> finite vy ->
  bpow (-400) <= norm2 (B2R dx) (B2R dy) <= bpow 400 ->
  bpow (-400) <= norm2 (B2R vx) (B2R vy) <= bpow 400 ->
  let nx := (dx / PrimFloat.sqrt (dx * dx + dy * dy))%float in
  let ny := (dy / PrimFloat.sqrt (dx * dx + dy * dy))%float in
  let rx := (vx - 2 * (vx * nx + vy * ny) * nx)%float in
  let ry := (vy - 2 * (vx * nx + vy * ny) * ny)%float in
  finite (PrimFloat.sqrt (rx * rx + ry * ry))%float /\
  finite (PrimFloat.sqrt (vx * vx + vy * vy))%float /\
  Rabs (B2R (PrimFloat.sqrt (rx * rx + ry * ry))%float -
        B2R (PrimFloat.sqrt (vx * vx + vy * vy))%float) <=
  bpow (-46) * B2R (PrimFloat.sqrt (vx * vx + vy * vy))%float.
Proof.
  intros Fdx Fdy Fvx Fvy [HDlo HDhi] [HVlo HVhi] nx ny rx ry.
  pose proof u64_pos as Hu. pose proof u64_small as Hu'.
  pose proof (bpow_pos (-400)) as Hp400.
  assert (bpow 400 <= bpow 401) as H401 by (apply bpow_le; lia).
  assert (bpow 401 <= / 1000 * bpow 500) as H500.
  { replace 500%Z with (10 + 490)%Z by lia. rewrite bpow_add.
    assert (bpow 10 = 1024) as -> by (rewrite bpow_IZR by lia; reflexivity).
    assert (bpow 401 <= bpow 490) by (apply bpow_le; lia).
    pose proof (bpow_pos 490). lra. }
  pose proof (bpow_pos 401) as Hp401.
  (* the normal *)
  pose proof (norm2_ge_l (B2R dx) (B2R dy)) as Hdl.
  pose proof (norm2_ge_r (B2R dx) (B2R dy)) as Hdr.
  destruct (unitVector_error dx dy Fdx Fdy ltac:(lra) ltac:(lra) HDlo)
    as [Fnx [Fny [Enx Eny]]].
  fold nx in Fnx, Enx. fold ny in Fny, Eny.
  destruct (unit_quotients (B2R dx) (B2R dy) ltac:(lra)) as [Hunit [Hnx Hny]].
  set (NhX := B2R dx / norm2 (B2R dx) (B2R dy)) in *.
  set (NhY := B2R dy / norm2 (B2R dx) (B2R dy)) in *.
  (* the velocity *)
  pose proof (norm2_ge_l (B2R vx) (B2R vy)) as Hvl.
  pose proof (norm2_ge_r (B2R vx) (B2R vy)) as Hvr.
  set (V := norm2 (B2R vx) (B2R vy)) in *.
  assert (Rabs (B2R vx * NhX + B2R vy * NhY) <= V) as Hdot.
  { eapply Rle_trans; [apply cauchy_schwarz_abs |]. fold V.
    assert (norm2 NhX NhY = 1) as ->.
    { unfold norm2. rewrite Hunit. apply sqrt_1. }
    lra. }
  destruct (reflect_component_error vx vy nx ny vx nx V NhX NhY NhX
              Fvx Fvy Fnx Fny Fvx Fnx Hvl Hvr Hvl HVlo ltac:(lra)
              Enx Eny Enx Hnx Hny Hnx Hdot) as [Frx Erx].
  destruct (reflect_component_error vx vy nx ny vy ny V NhX NhY NhY
              Fvx Fvy Fnx Fny Fvy Fny Hvl Hvr Hvr HVlo ltac:(lra)
              Enx Eny Eny Hnx Hny Hny Hdot) as [Fry Ery].
  fold rx in Frx, Erx. fold ry in Fry, Ery.
  set (d := B2R vx * NhX + B2R vy * NhY) in *.
  pose proof (reflection_norm (B2R vx) (B2R vy) NhX NhY Hunit) as Hrefl.
  fold d in Hrefl. fold V in Hrefl.
  pose proof (norm2_perturbed _ _ _ _ _ _ Erx Ery) as Hpert.
  rewrite Hrefl in Hpert.
  set (w := u64 * V) in *.
  assert (0 < V) as HV by lra.
  assert (0 < w) as Hw by (unfold w; nra).
  assert (w <= / 1000000 * V) as HwV by (unfold w; nra).
  assert (u64 * w <= / 1000000 * w) as Huw by nra.
  destruct (absorbed V HVlo) as [_ Htau]. fold w in Htau.
  (* the two magnitudes *)
  pose proof (norm2_ge_l (B2R rx) (B2R ry)) as Hrl.
  pose proof (norm2_ge_r (B2R rx) (B2R ry)) as Hrr.
  apply Rabs_le_inv in Hpert.
  destruct (magnitude_error rx ry Frx Fry ltac:(lra) ltac:(lra)) as [Fm' Em'].
  destruct (magnitude_error vx vy Fvx Fvy ltac:(lra) ltac:(lra)) as [Fm Em].
  fold (norm2 (B2R rx) (B2R ry)) in Em'. fold (norm2 (B2R vx) (B2R vy)) in Em. fold V in Em.
  split; [exact Fm' |]. split; [exact Fm |].
  rewrite bpow_m46.
  apply Rabs_le_inv in Em'. apply Rabs_le_inv in Em.
  set (R' := norm2 (B2R rx) (B2R ry)) in *.
  set (M := B2R (PrimFloat.sqrt (vx * vx + vy * vy))%float) in *.
  unfold w in *. clear w.
  assert (u64 * R' <= u64 * (V + 90 * (u64 * V))) as H1
      by (apply Rmult_le_compat_l; lra).
  assert (0 <= R') as HR' by apply norm2_pos.
  assert (0 <= u64 * R') as H2 by (apply Rmult_le_pos; lra).
  assert (u64 * (99 / 100 * V) <= u64 * M) as H3 by (apply Rmult_le_compat_l; lra).
  apply Rabs_le. split; lra.
Qed.

(** One coordinate of the vector from the second end of a line to the
    first. *)
Lemma endpoint_gap_error (h len c : float) (Hh : R) :
  finite h -> finite len -> finite c ->
  Rabs (B2R h - Hh) <= 5 * u64 -> Rabs Hh <= 1 ->
  bpow (-400) <= Rabs (B2R len) <= bpow 400 ->
  Rabs (B2R c) <= bpow 400 ->
  finite ((c + h * len / 2) - (c - h * len / 2))%float /\
  Rabs (B2R ((c + h * len / 2) - (c - h * len / 2))%float - Hh * B2R len) <=
  10 * (u64 * Rabs (B2R len)) + 3 * (u64 * Rabs (B2R c)).
Proof.
  intros Fh Fl Fc Eh Hh1 [HLlo HLhi] Hc.
  pose proof u64_pos as Hu. pose proof u64_small as Hu'.
  pose proof eta64_pos as He.
  pose proof (bpow_pos (-400)) as Hp400.
  destruct (absorbed _ HLlo) as [Heta _].
  set (L := Rabs (B2R len)) in *. set (C := Rabs (B2R c)) in *.
  assert (0 <= C) as HC by apply Rabs_pos.
  set (w := u64 * L) in *.
  assert (0 < w) as Hw by (unfold w; nra).
  assert (u64 * w <= / 1000000 * w) as Huw by nra.
  assert (w <= / 1000000 * L) as HwL by (unfold w; nra).
  assert (0 <= u64 * C) as HuC by nra.
  assert (u64 * (u64 * C) <= / 1000000 * (u64 * C)) as HuuC by nra.
  assert (1000 * bpow 400 <= bpow 1023) as Hbig.
  { assert (1000 <= bpow 10) by (rewrite bpow_IZR by lia; simpl; lra).
    assert (bpow 10 * bpow 400 <= bpow 1023) by (rewrite <- bpow_add; apply bpow_le; lia).
    pose proof (bpow_pos 400). nra. }
  (* the offset *)
  destruct (approx_mul h len Hh (B2R len) (5 * u64) 0 1 L
              Fh Eh Fl (approx_exact len) Hh1 (Rle_refl _) ltac:(nra)) as [Fp Ep].
  assert (Rabs (B2R (h * len)%float - Hh * B2R len) <= 61 / 10 * w) as Ep'.
  { eapply Rle_trans; [exact Ep |]. unfold w in *. nra. }
  clear Ep.
  assert (Rabs (Hh * B2R len) <= L) as HhL.
  { rewrite Rabs_mult. fold L. pose proof (Rabs_pos Hh). nra. }
  pose proof (Rabs_le_add _ _ _ _ Ep' HhL) as Hp.
  destruct B2R_two as [Htwo Ftwo].
  assert (Rabs (B2R (h * len)%float / B2R 2%float) <= bpow 1023) as Hov.
  { rewrite Htwo. unfold Rdiv. rewrite Rabs_mult, (Rabs_pos_eq (/ 2)) by lra. lra. }
  destruct (div_rounded _ _ Fp Ftwo ltac:(rewrite Htwo; lra) Hov) as [Fo [Eo _]].
  rewrite Htwo in Eo.
  assert (Rabs (B2R (h * len / 2)%float - Hh * B2R len / 2) <= 36 / 10 * w) as Eo'.
  { replace (B2R (h * len / 2)%float - Hh * B2R len / 2)
      with ((B2R (h * len / 2)%float - B2R (h * len)%float / 2) +
            (B2R (h * len)%float - Hh * B2R len) / 2) by field.
    eapply Rle_trans; [apply Rabs_triang |].
    assert (Rabs ((B2R (h * len)%float - Hh * B2R len) / 2) <= 61 / 10 * w / 2) as H1.
    { unfold Rdiv. rewrite Rabs_mult, (Rabs_pos_eq (/ 2)) by lra. lra. }
    assert (Rabs (B2R (h * len)%float / 2) <= (L + 61 / 10 * w) / 2) as H2.
    { unfold Rdiv. rewrite Rabs_mult, (Rabs_pos_eq (/ 2)) by lra. lra. }
    assert (u64 * Rabs (B2R (h * len)%float / 2) <= u64 * ((L + 61 / 10 * w) / 2))
      by (apply Rmult_le_compat_l; lra).
    unfold w in *. nra. }
  clear Eo.
  assert (Rabs (Hh * B2R len / 2) <= L / 2) as Hoff.
  { unfold Rdiv. rewrite Rabs_mult, (Rabs_pos_eq (/ 2)) by lra. lra. }
  (* the two ends *)
  assert (Rabs (B2R c + Hh * B2R len / 2) <= C + L / 2) as Hs1.
  { eapply Rle_trans; [apply Rabs_triang |]. fold C. lra. }
  assert (Rabs (B2R c - Hh * B2R len / 2) <= C + L / 2) as Hs2.
  { replace (B2R c - Hh * B2R len / 2) with (B2R c + - (Hh * B2R len / 2)) by ring.
    eapply Rle_trans; [apply Rabs_triang |]. rewrite Rabs_Ropp. fold C. lra. }
  destruct (approx_add c _ _ _ 0 _ _ Fc (approx_exact c) Fo Eo' Hs1 ltac:(lra))
    as [Fe1 Ee1].
  destruct (approx_sub c _ _ _ 0 _ _ Fc (approx_exact c) Fo Eo' Hs2 ltac:(lra))
    as [Fe2 Ee2].
  assert (0 + 36 / 10 * w + u64 * (C + L / 2 + 0 + 36 / 10 * w)
          <= 42 / 10 * w + 101 / 100 * (u64 * C)) as Hb by (unfold w in *; nra).
  assert (Rabs (B2R (c + h * len / 2)%float - (B2R c + Hh * B2R len / 2))
          <= 42 / 10 * w + 101 / 100 * (u64 * C)) as Ee1' by lra.
  assert (Rabs (B2R (c - h * len / 2)%float - (B2R c - Hh * B2R len / 2))
          <= 42 / 10 * w + 101 / 100 * (u64 * C)) as Ee2' by lra.
  clear Ee1 Ee2 Hb.
  (* their difference *)
  assert (Rabs ((B2R c + Hh * B2R len / 2) - (B2R c - Hh * B2R len / 2)) <= L) as Hd.
  { replace ((B2R c + Hh * B2R len / 2) - (B2R c - Hh * B2R len / 2))
      with (Hh * B2R len) by field. exact HhL. }
  destruct (approx_sub _ _ _ _ _ _ _ Fe1 Ee1' Fe2 Ee2' Hd ltac:(nra)) as [Fd Ed].
  split; [exact Fd |].
  replace (Hh * B2R len)
    with ((B2R c + Hh * B2R len / 2) - (B2R c - Hh * B2R len / 2)) by field.
  eapply Rle_trans; [exact Ed |]. unfold w in *. nra.
Qed.

(** The distance between the two ends of a line whose heading is the unit
    vector along [(c, s)]. *)
Lemma endpoints_distance_error (c s len cx cy : float) :
  finite c -> finite s -> finite len -> finite cx -> finite cy ->
  / 2 <= norm2 (B2R c) (B2R s) <= 2 ->
  bpow (-400) <= Rabs (B2R len) <= bpow 400 ->
  Rabs (B2R cx) <= bpow 400 -> Rabs (B2R cy) <= bpow 400 ->
  let hx := (c / PrimFloat.sqrt (c * c + s * s))%float in
  let hy := (s / PrimFloat.sqrt (c * c + s * s))%float in
  let dx := ((cx + hx * len / 2) - (cx - hx * len / 2))%float in
  let dy := ((cy + hy * len / 2) - (cy - hy * len / 2))%float in
  finite (PrimFloat.sqrt (dx * dx + dy * dy))%float /\
  Rabs (B2R (PrimFloat.sqrt (dx * dx + dy * dy))%float - Rabs (B2R len)) <=
  bpow (-48) * (Rabs (B2R len) + Rabs (B2R cx) + Rabs (B2R cy)).
Proof.
  intros Fc Fs Fl Fcx Fcy [HNlo HNhi] [HLlo HLhi] Hcx Hcy hx hy dx dy.
  pose proof u64_pos as Hu. pose proof u64_small as Hu'.
  pose proof (bpow_pos (-400)) as Hp400.
  assert (bpow (-400) <= / 2) as Hhalf.
  { assert (bpow (-400) <= bpow (-1)) by (apply bpow_le; lia).
    assert (bpow (-1) = / 2) as Hb.
    { change (-1)%Z with (Z.opp 1). rewrite bpow_opp, bpow_1. reflexivity. }
    lra. }
  assert (2 <= bpow 500) as H2.
  { rewrite <- bpow_1. apply bpow_le. lia. }
  assert (1000 * bpow 400 <= bpow 500) as H500.
  { assert (1000 <= bpow 10) by (rewrite bpow_IZR by lia; simpl; lra).
    assert (bpow 10 * bpow 400 <= bpow 500) by (rewrite <- bpow_add; apply bpow_le; lia).
    pose proof (bpow_pos 400). nra. }
  pose proof (norm2_ge_l (B2R c) (B2R s)) as Hcl.
  pose proof (norm2_ge_r (B2R c) (B2R s)) as Hcr.
  destruct (unitVector_error c s Fc Fs ltac:(lra) ltac:(lra) ltac:(lra))
    as [Fhx [Fhy [Ehx Ehy]]].
  fold hx in Fhx, Ehx. fold hy in Fhy, Ehy.
  destruct (unit_quotients (B2R c) (B2R s) ltac:(lra)) as [Hunit [Hhx Hhy]].
  set (HX := B2R c / norm2 (B2R c) (B2R s)) in *.
  set (HY := B2R s / norm2 (B2R c) (B2R s)) in *.
  destruct (endpoint_gap_error hx len cx HX Fhx Fl Fcx Ehx Hhx (conj HLlo HLhi) Hcx)
    as [Fdx Edx].
  destruct (endpoint_gap_error hy len cy HY Fhy Fl Fcy Ehy Hhy (conj HLlo HLhi) Hcy)
    as [Fdy Edy].
  fold dx in Fdx, Edx. fold dy in Fdy, Edy.
  set (L := Rabs (B2R len)) in *.
  set (CX := Rabs (B2R cx)) in *. set (CY := Rabs (B2R cy)) in *.
  assert (0 <= CX) as HCX by apply Rabs_pos.
  assert (0 <= CY) as HCY by apply Rabs_pos.
  assert (norm2 (HX * B2R len) (HY * B2R len) = L) as Hexact.
  { unfold norm2.
    replace (HX * B2R len * (HX * B2R len) + HY * B2R len * (HY * B2R len))
      with ((HX * HX + HY * HY) * (B2R len * B2R len)) by ring.
    rewrite Hunit, Rmult_1_l. unfold L. rewrite <- sqrt_Rsqr_abs. reflexivity. }
  pose proof (norm2_perturbed _ _ _ _ _ _ Edx Edy) as Hpert.
  rewrite Hexact in Hpert. apply Rabs_le_inv in Hpert.
  destruct (absorbed L HLlo) as [_ Htau].
  set (w := u64 * L) in *.
  assert (0 < w) as Hw by (unfold w; nra).
  assert (0 <= u64 * CX) as HuCX by nra.
  assert (0 <= u64 * CY) as HuCY by nra.
  assert (w <= / 1000000 * L) as HwL by (unfold w; nra).
  assert (u64 * CX <= / 1000000 * CX) as HuCX' by nra.
  assert (u64 * CY <= / 1000000 * CY) as HuCY' by nra.
  pose proof (norm2_ge_l (B2R dx) (B2R dy)) as Hdl.
  pose proof (norm2_ge_r (B2R dx) (B2R dy)) as Hdr.
  pose proof (bpow_pos 400) as Hp.
  destruct (magnitude_error dx dy Fdx Fdy ltac:(lra) ltac:(lra)) as [Fm Em].
  fold (norm2 (B2R dx) (B2R dy)) in Em.
  split; [exact Fm |].
  rewrite bpow_m48. apply Rabs_le_inv in Em.
  set (D := norm2 (B2R dx) (B2R dy)) in *.
  assert (0 <= D) as HD by apply norm2_pos.
  assert (u64 * w <= / 1000000 * w) as Huw by nra.
  assert (u64 * (u64 * CX) <= / 1000000 * (u64 * CX)) as HuuCX by nra.
  assert (u64 * (u64 * CY) <= / 1000000 * (u64 * CY)) as HuuCY by nra.
  unfold w in *. clear w.
  assert (u64 * D <=
          u64 * (L + (10 * (u64 * L) + 3 * (u64 * CX) + (10 * (u64 * L) + 3 * (u64 * CY)))))
    as H1 by (apply Rmult_le_compat_l; lra).
  assert (0 <= u64 * D) as H0 by (apply Rmult_le_pos; lra).
  apply Rabs_le. split; lra.
Qed.

End SpeedAndLength.
(** * The program on binary64 numbers, up to rounding *)

Section UpToRounding.
Context {E : Engine}.
#[local] Existing Instance double.
Local Open Scope R_scope.

Lemma B2R_opp (a : float) : B2R (- a)%float = - B2R a /\ (finite a -> finite (- a)%float).
Proof.
  unfold B2R, finite. rewrite opp_spec.
  destruct (Prim2SF a) as [s | s | | s m e]; cbn [SFopp is_finite_SF];
    (split; [| auto]); try (cbn [SF2R]; lra).
  rewrite !SF2R_finite_sign. destruct s; cbn [negb]; lra.
Qed.

(** ** The magnitude of a vector and the unit vector along it *)

(** X24.  The magnitude that the program computes for a finite vector with
    coordinates of at most [2^500] is finite and within three units
    roundoff, relatively, and [2^-535] of its Euclidean norm; so is the
    distance between two points whose difference is such a vector. *)
Theorem magnitude_near_norm (v : Vec) :
  finiteVec v ->
  Rabs (B2R (x v)) <= bpow 500 -> Rabs (B2R (y v)) <= bpow 500 ->
  finite (trig.magnitude v) /\
  Rabs (B2R (trig.magnitude v) - norm v) <= 3 * u64 * norm v + 2 * tau64 /\
  forall p q : Vec,
    trig.vectorBetween q p = v ->
    trig.distance p q = trig.magnitude v.
Proof.
  intros [Fx Fy] Hx Hy.
  destruct (magnitude_error (x v) (y v) Fx Fy Hx Hy) as [Fm Em].
  split; [exact Fm |]. split; [exact Em |].
  intros p q <-. reflexivity.
Qed.

(** X25.  The unit vector that the program computes along a finite vector
    whose norm lies between [2^-400] and [2^500] is finite, and each of its
    coordinates is within five units roundoff of the coordinate of the exact
    unit vector. *)
Theorem unitVector_near_unit (v : Vec) :
  finiteVec v ->
  bpow (-400) <= norm v <= bpow 500 ->
  finiteVec (trig.unitVector v) /\
  Rabs (B2R (x (trig.unitVector v)) - B2R (x v) / norm v) <= 5 * u64 /\
  Rabs (B2R (y (trig.unitVector v)) - B2R (y v) / norm v) <= 5 * u64.
Proof.
  intros [Fx Fy] [Hlo Hhi]. unfold norm in *.
  pose proof (norm2_ge_l (B2R (x v)) (B2R (y v))) as Hl.
  pose proof (norm2_ge_r (B2R (x v)) (B2R (y v))) as Hr.
  cbn [num double] in *.
  destruct (unitVector_error (x v) (y v) Fx Fy ltac:(lra) ltac:(lra) Hlo)
    as [F1 [F2 [E1 E2]]].
  split; [split; assumption |]. split; assumption.
Qed.

(** ** The speed after a bounce (C3) *)

Lemma reflected_speed (v d : VecOf float) :
  finiteVec v -> finiteVec d ->
  bpow (-400) <= norm v <= bpow 400 ->
  bpow (-400) <= norm d <= bpow 400 ->
  finite (trig.magnitude (reflected v (trig.unitVector d))) /\
  finite (trig.magnitude v) /\
  Rabs (B2R (trig.magnitude (reflected v (trig.unitVector d))) -
        B2R (trig.magnitude v)) <=
  bpow (-46) * B2R (trig.magnitude v).
Proof.
  intros [Fvx Fvy] [Fdx Fdy] Hv Hd.
  unfold reflected, trig.unitVector, trig.magnitude.
  cbn [num lit add sub mul div neg ltb leb Math_sqrt Math_cos Math_sin double x y].
  change (double_lit 2) with 2%float.
  exact (reflection_speed_error (x d) (y d) (x v) (y v) Fdx Fdy Fvx Fvy Hd Hv).
Qed.

(** C3 (amended).  A bounce keeps the speed up to rounding.  The velocity
    that [physics.bounceCircle] returns is [v - 2 (v . n) n] as the program
    computes it, with [v] the velocity before and [n] the unit vector from
    the contact point to the center.  When [v] and the vector from the
    contact point to the center are finite and their lengths lie between
    [2^-400] and [2^400], the magnitude of the velocity after, as the
    program computes it, differs from the magnitude of the velocity before
    by at most [2^-46] times that magnitude; the two need not be equal
    ([reflection_changes_the_speed]). *)
Theorem bounceCircle_keeps_the_speed
  (fuel : nat) (circle circle' : Circle.t) (line : Line.t) :
  physics.bounceCircle fuel circle line = Done circle' ->
  finiteVec (Circle.velocity circle) ->
  finiteVec (circleToClosestPointOnLineVector circle line) ->
  bpow (-400) <= norm (Circle.velocity circle) <= bpow 400 ->
  bpow (-400) <= norm (circleToClosestPointOnLineVector circle line) <= bpow 400 ->
  Circle.velocity circle' =
  reflected (Circle.velocity circle)
            (trig.unitVector (circleToClosestPointOnLineVector circle line)) /\
  finite (trig.magnitude (Circle.velocity circle')) /\
  Rabs (B2R (trig.magnitude (Circle.velocity circle')) -
        B2R (trig.magnitude (Circle.velocity circle))) <=
  bpow (-46) * B2R (trig.magnitude (Circle.velocity circle)).
Proof.
  intros Hb Fv Fd Hv Hd.
  rewrite (bounceCircle_reflects_the_velocity _ _ _ _ Hb).
  change (physics.bounceLineNormal circle line)
    with (trig.unitVector (circleToClosestPointOnLineVector circle line)).
  destruct (reflected_speed _ _ Fv Fd Hv Hd) as [F1 [_ H]].
  split; [reflexivity |]. split; assumption.
Qed.

(** ** The distance between the ends of a line (C8) *)

(** C8 (amended).  The ends of a line are at the distance of its length up
    to rounding.  When the heading that the engine computes is finite and of
    a length between 1/2 and 2, the length of the line is finite and between
    [2^-400] and [2^400], and the coordinates of the center are finite and
    at most [2^400], the distance between the two ends, as the program
    computes it, differs from the length by at most [2^-48] times the sum of
    the length and the two coordinates of the center; it need not equal the
    length ([lineEndPoints_distance_is_rounded]). *)
Theorem lineEndPoints_distance_near_length (line : Line.t) :
  finiteVec (headingVector line) ->
  / 2 <= norm (headingVector line) <= 2 ->
  finite (Line.len line) ->
  bpow (-400) <= Rabs (B2R (Line.len line)) <= bpow 400 ->
  finiteVec (Line.center line) ->
  Rabs (B2R (x (Line.center line))) <= bpow 400 ->
  Rabs (B2R (y (Line.center line))) <= bpow 400 ->
  finite (trig.distance (fst (trig.lineEndPoints line)) (snd (trig.lineEndPoints line))) /\
  Rabs (B2R (trig.distance (fst (trig.lineEndPoints line))
                           (snd (trig.lineEndPoints line))) -
        Rabs (B2R (Line.len line))) <=
  bpow (-48) * (Rabs (B2R (Line.len line)) +
                Rabs (B2R (x (Line.center line))) +
                Rabs (B2R (y (Line.center line)))).
Proof.
  intros [Fc Fs] Hh Fl Hl [Fcx Fcy] Hcx Hcy.
  unfold trig.distance, trig.lineEndPoints, trig.unitVector, trig.magnitude.
  unfold headingVector, norm in *.
  cbn [num lit add sub mul div neg ltb leb Math_sqrt Math_cos Math_sin double
       x y fst snd] in *.
  change (double_lit 2) with 2%float.
  exact (endpoints_distance_error _ _ _ _ _ Fc Fs Fl Fcx Fcy Hh Hl Hcx Hcy).
Qed.

(** ** The two tests, read on the real numbers *)

(** X21.  On binary64 numbers the collision test is the comparison of the
    computed distance with the radius: when both are finite it succeeds
    exactly when the real number that the distance denotes is less than the
    one that the radius denotes; it fails when the two are the same number,
    and when one of them is [NaN]. *)
Theorem isLineIntersectingCircle_on_doubles :
  (forall (circle : Circle.t) (line : Line.t),
      finite (trig.distance (Circle.center circle)
                            (trig.pointOnLineClosestToCircle circle line)) ->
      finite (Circle.radius circle) ->
      (trig.isLineIntersectingCircle circle line = true <->
       B2R (trig.distance (Circle.center circle)
                          (trig.pointOnLineClosestToCircle circle line)) <
       B2R (Circle.radius circle))) /\
  (forall (circle : Circle.t) (line : Line.t),
      trig.distance (Circle.center circle)
                    (trig.pointOnLineClosestToCircle circle line) =
      Circle.radius circle ->
      trig.isLineIntersectingCircle circle line = false) /\
  (forall (circle : Circle.t) (line : Line.t),
      trig.distance (Circle.center circle)
                    (trig.pointOnLineClosestToCircle circle line) = nan \/
      Circle.radius circle = nan ->
      trig.isLineIntersectingCircle circle line = false).
Proof.
  split; [| split].
  - intros circle line Fd Fr. unfold trig.isLineIntersectingCircle.
    cbn [ltb double]. apply ltb_B2R; assumption.
  - intros circle line Heq. unfold trig.isLineIntersectingCircle.
    cbn [ltb double]. rewrite Heq. apply ltb_irrefl.
  - intros circle line [H | H]; unfold trig.isLineIntersectingCircle;
      cbn [ltb double]; rewrite H; [apply ltb_nan_l | apply ltb_nan_r].
Qed.

(** X22.  On binary64 numbers the in-world test of a body with finite center
    and radius, in a world whose dimensions plus the radius are finite,
    succeeds exactly when the center lies strictly between minus the radius
    and the computed sums [width + radius] and [height + radius], read as
    real numbers.  It fails for a center on the border: a coordinate that is
    minus the radius or one of the computed sums. *)
Theorem isCircleInWorld_on_doubles :
  (forall (circle : Circle.t) (dimensions : Vec),
      finiteVec (Circle.center circle) ->
      finite (Circle.radius circle) ->
      finite (x dimensions + Circle.radius circle)%float ->
      finite (y dimensions + Circle.radius circle)%float ->
      (isCircleInWorld circle dimensions = true <->
       - B2R (Circle.radius circle) < B2R (x (Circle.center circle)) /\
       B2R (x (Circle.center circle)) < B2R (x dimensions + Circle.radius circle)%float /\
       - B2R (Circle.radius circle) < B2R (y (Circle.center circle)) /\
       B2R (y (Circle.center circle)) < B2R (y dimensions + Circle.radius circle)%float)) /\
  (forall (circle : Circle.t) (dimensions : Vec),
      x (Circle.center circle) = (- Circle.radius circle)%float \/
      x (Circle.center circle) = (x dimensions + Circle.radius circle)%float \/
      y (Circle.center circle) = (- Circle.radius circle)%float \/
      y (Circle.center circle) = (y dimensions + Circle.radius circle)%float ->
      isCircleInWorld circle dimensions = false).
Proof.
  split.
  - intros circle dimensions [Fx Fy] Fr Fw Fh. unfold isCircleInWorld, gtb.
    cbn [num add neg ltb double].
    destruct (B2R_opp (Circle.radius circle)) as [Hopp Fopp]. specialize (Fopp Fr).
    rewrite !andb_true_iff.
    rewrite (ltb_B2R _ _ Fopp Fx), (ltb_B2R _ _ Fx Fw),
            (ltb_B2R _ _ Fopp Fy), (ltb_B2R _ _ Fy Fh), Hopp.
    tauto.
  - intros circle dimensions H. unfold isCircleInWorld, gtb.
    cbn [num add neg ltb double] in *.
    destruct H as [H | [H | [H | H]]]; rewrite H, ltb_irrefl;
      rewrite ?andb_false_r; reflexivity.
Qed.

(** ** Binary64 numbers given by their digits *)

(** A finite number of binade [k] lies between [2^(k-1)] and [2^k] in
    absolute value. *)
Lemma B2R_binade (f : float) (k : Z) :
  binade f = Some k -> finite f /\ bpow (k - 1) <= Rabs (B2R f) <= bpow k.
Proof.
  unfold binade, B2R, finite.
  destruct (Prim2SF f) as [s | s | | s m e]; try discriminate.
  intros H. injection H as Hk. change (Zdigits2 (Zpos m) + e = k)%Z in Hk.
  split; [reflexivity |].
  rewrite SF2R_finite_abs. unfold F2R.
  destruct (Zdigits2_bpow (Zpos m) ltac:(lia)) as [Hlo Hhi].
  assert (bpow (k - 1) = bpow (Zdigits2 (Zpos m) - 1) * bpow e) as ->.
  { rewrite <- bpow_add. f_equal. lia. }
  assert (bpow k = bpow (Zdigits2 (Zpos m)) * bpow e) as ->.
  { rewrite <- bpow_add. f_equal. lia. }
  pose proof (bpow_pos e). split; nra.
Qed.

Lemma B2R_zero (f : float) (s : bool) :
  Prim2SF f = S754_zero s -> B2R f = 0 /\ finite f.
Proof. intros Hf. unfold B2R, finite. rewrite Hf. split; reflexivity. Qed.

Lemma binade_le (f : float) (k hi : Z) :
  binade f = Some k -> (k <= hi)%Z -> Rabs (B2R f) <= bpow hi.
Proof.
  intros Hf Hk. destruct (B2R_binade f k Hf) as [_ [_ H]].
  apply Rle_trans with (bpow k); [exact H | apply bpow_le; exact Hk].
Qed.

Lemma binade_ge (f : float) (k lo : Z) :
  binade f = Some k -> (lo < k)%Z -> bpow lo <= Rabs (B2R f).
Proof.
  intros Hf Hk. destruct (B2R_binade f k Hf) as [_ [H _]].
  apply Rle_trans with (bpow (k - 1)); [apply bpow_le; lia | exact H].
Qed.

Lemma zero_le (f : float) (s : bool) (hi : Z) :
  Prim2SF f = S754_zero s -> Rabs (B2R f) <= bpow hi.
Proof.
  intros Hf. destruct (B2R_zero f s Hf) as [-> _]. rewrite Rabs_R0.
  pose proof (bpow_pos hi). lra.
Qed.

Lemma norm_between (v : VecOf float) (lo hi : Z) :
  bpow lo <= Rabs (B2R (x v)) \/ bpow lo <= Rabs (B2R (y v)) ->
  Rabs (B2R (x v)) <= bpow hi -> Rabs (B2R (y v)) <= bpow hi ->
  (-400 <= lo)%Z -> (hi < 400)%Z ->
  bpow (-400) <= norm v <= bpow 400.
Proof.
  intros Hlo Hx Hy Hl Hh. unfold norm.
  pose proof (norm2_ge_l (B2R (x v)) (B2R (y v))) as H1.
  pose proof (norm2_ge_r (B2R (x v)) (B2R (y v))) as H2.
  pose proof (norm2_le_sum (B2R (x v)) (B2R (y v))) as H3.
  assert (bpow (-400) <= bpow lo) by (apply bpow_le; lia).
  assert (bpow (hi + 1) <= bpow 400) by (apply bpow_le; lia).
  rewrite bpow_succ in *.
  split; [destruct Hlo; lra | lra].
Qed.

(** ** The body that [createNewCircleIfDue] makes, on binary64 numbers *)

Lemma B2R_five : B2R 5%float = 5 /\ finite 5%float.
Proof.
  split; [| reflexivity]. unfold B2R.
  change (Prim2SF 5%float) with (S754_finite false 5629499534213120 (-50)).
  cbn [SF2R cond_Zopp]. unfold F2R.
  change 5629499534213120%Z with (5 * 2 ^ 50)%Z.
  rewrite mult_IZR, <- bpow_IZR by lia. rewrite Rmult_assoc, <- bpow_add.
  change (bpow (50 + -50)) with (bpow 0). rewrite bpow_0. lra.
Qed.

Lemma nonneg_bounded (f : float) (k : Z) :
  (0 <=? f)%float = true -> binade f = Some k -> (k <= 1000)%Z ->
  finite f /\ 0 <= B2R f <= bpow 1000.
Proof.
  intros Hs Hk Hle. destruct (B2R_binade f k Hk) as [Ff _].
  destruct (B2R_zero 0%float false eq_refl) as [H0 F0].
  split; [exact Ff |]. split.
  - rewrite <- H0. apply leb_B2R; assumption.
  - apply Rle_trans with (Rabs (B2R f)); [apply Rle_abs |].
    apply (binade_le f k); assumption.
Qed.

(** X26.  On binary64 numbers too the body that [createNewCircleIfDue] makes
    fails the in-world test as it is made, because [-5 > -5] is false, and
    passes it after its first step of gravity and motion, on every canvas
    with finite, non-negative dimensions of at most [2^1000]. *)
Theorem new_circle_enters_the_world_on_doubles (width height : float) :
  finite width -> finite height ->
  0 <= B2R width <= bpow 1000 -> 0 <= B2R height <= bpow 1000 ->
  isCircleInWorld
    (makeCircle {| x := (width / lit 2)%js; y := (- lit 5)%js |})
    {| x := width; y := height |} = false /\
  isCircleInWorld
    (fall (makeCircle {| x := (width / lit 2)%js; y := (- lit 5)%js |}))
    {| x := width; y := height |} = true.
Proof.
  intros Fw Fh [Hw0 Hw1] [Hh0 Hh1].
  unfold isCircleInWorld, fall, physics.applyGravity, physics.moveCircle, makeCircle, gtb.
  cbn [num lit add sub mul div neg ltb leb double x y
       Circle.center Circle.velocity Circle.radius].
  change (double_lit 2) with 2%float. change (double_lit 5) with 5%float.
  change (double_lit 0) with 0%float.
  split.
  - rewrite ltb_irrefl, andb_false_r. reflexivity.
  - pose proof u64_pos as Hu. pose proof u64_small as Hu'.
    pose proof eta64_pos as He.
    assert (eta64 <= u64) as He'.
    { unfold eta64, u64. apply bpow_le. lia. }
    assert (bpow 1000 + 5 <= bpow 1023) as Hbig.
    { assert (bpow 3 = 8) as H8 by (rewrite bpow_IZR by lia; reflexivity).
      assert (bpow 3 <= bpow 1000) by (apply bpow_le; lia).
      assert (bpow 1001 <= bpow 1023) by (apply bpow_le; lia).
      replace 1001%Z with (1000 + 1)%Z in * by lia. rewrite bpow_succ in *. lra. }
    destruct B2R_two as [H2 F2]. destruct B2R_five as [H5 F5].
    destruct (B2R_opp 5%float) as [Hm5 Fm5]. specialize (Fm5 F5). rewrite H5 in Hm5.
    destruct (B2R_zero 0%float false eq_refl) as [H0 F0].
    (* half the width *)
    assert (Rabs (B2R width / B2R 2%float) <= bpow 1023) as Hov1.
    { rewrite H2, Rabs_pos_eq by lra. lra. }
    destruct (div_rounded width 2%float Fw F2 ltac:(rewrite H2; lra) Hov1)
      as [Fq [Eq1 [_ [Pq _]]]].
    rewrite H2 in *. specialize (Pq ltac:(lra)).
    rewrite (Rabs_pos_eq (B2R width / 2)) in Eq1 by lra.
    apply Rabs_le_inv in Eq1.
    assert (Rabs (B2R (width / 2)%float + B2R 0%float) <= bpow 1023) as Hov2.
    { rewrite H0, Rplus_0_r, Rabs_pos_eq by lra. nra. }
    destruct (add_rounded _ _ Fq F0 Hov2) as [Fr [Er [Pr _]]].
    rewrite H0, Rplus_0_r in *. specialize (Pr Pq).
    rewrite (Rabs_pos_eq _ Pq) in Er. apply Rabs_le_inv in Er.
    (* the width and the height plus the radius *)
    assert (Rabs (B2R width + B2R 5%float) <= bpow 1023) as Hov3.
    { rewrite H5, Rabs_pos_eq by lra. lra. }
    destruct (add_rounded _ _ Fw F5 Hov3) as [Fs [Es _]].
    assert (Rabs (B2R height + B2R 5%float) <= bpow 1023) as Hov4.
    { rewrite H5, Rabs_pos_eq by lra. lra. }
    destruct (add_rounded _ _ Fh F5 Hov4) as [Ft [Et _]].
    rewrite H5 in *.
    rewrite (Rabs_pos_eq (B2R width + 5)) in Es by lra.
    rewrite (Rabs_pos_eq (B2R height + 5)) in Et by lra.
    apply Rabs_le_inv in Es. apply Rabs_le_inv in Et.
    (* the height of the body after its first step *)
    assert (finite (- (5) + (0 + double_lit 0.06))%float) as Fy
        by (vm_compute; reflexivity).
    assert (B2R (- (5) + (0 + double_lit 0.06))%float < 0) as Hy.
    { rewrite <- H0. apply ltb_B2R; [exact Fy | exact F0 |].
      vm_compute. reflexivity. }
    assert ((- (5) <? - (5) + (0 + double_lit 0.06))%float = true) as T3
        by (vm_compute; reflexivity).
    rewrite T3.
    assert ((- (5) <? width / 2 + 0)%float = true) as ->.
    { apply ltb_B2R; [assumption | assumption |]. lra. }
    assert ((width / 2 + 0 <? width + 5)%float = true) as ->.
    { apply ltb_B2R; [assumption | assumption |].
      assert (u64 * B2R (width / 2)%float <= u64 * (B2R width / 2 + (u64 * (B2R width / 2) + eta64)))
        by (apply Rmult_le_compat_l; lra).
      assert (0 <= u64 * (B2R width / 2)) by nra.
      assert (u64 * (u64 * (B2R width / 2)) <= / 1000 * (u64 * (B2R width / 2))) by nra.
      assert (u64 * eta64 <= eta64) by nra.
      assert (u64 * (B2R width / 2) <= / 1000 * (B2R width / 2)) by nra.
      assert (u64 * (B2R width + 5) <= / 1000 * (B2R width + 5)) by nra.
      lra. }
    assert ((- (5) + (0 + double_lit 0.06) <? height + 5)%float = true) as ->.
    { apply ltb_B2R; [assumption | assumption |].
      assert (u64 * (B2R height + 5) <= / 1000 * (B2R height + 5)) by nra.
      lra. }
    reflexivity.
Qed.

End UpToRounding.

(** ** The program run on binary64 numbers

    The lines are at the angle 0, where every engine computes the same
    ([bounceCircle_same] and the lemmas before it); the engine is [taylor]. *)

Section OnDoubles.
#[local] Existing Instance taylor.
#[local] Existing Instance double.
Local Open Scope float_scope.
Set Warnings "-inexact-float".

Ltac differ :=
  let H := fresh in
  intros H; apply (f_equal Prim2SF) in H; vm_compute in H; discriminate.


(** The end-to-end scenario of the specification: a body of radius 5 falls
    with velocity [(0, 2)] on the middle of the horizontal line centered at
    [(100, 100)].  At [(100, 95)] it is tangent to the line, at distance 5,
    and does not collide. *)
Example scenario_tangent_is_no_collision :
  trig.pointOnLineClosestToCircle
    (Circle.make (vec 100 95) (vec 0 2) 5) (makeLine (vec 100 100)) = vec 100 100 /\
  trig.distance (vec 100 95) (vec 100 100) = 5 /\
  trig.isLineIntersectingCircle
    (Circle.make (vec 100 95) (vec 0 2) 5) (makeLine (vec 100 100)) = false.
Proof. repeat split; vm_compute; reflexivity. Qed.

(** One step later, at [(100, 96)], it intersects the line; the normal is
    [(0, -1)], the velocity is reflected to [(0, -2)] and one move clears
    the line. *)
Example scenario_bounce :
  trig.isLineIntersectingCircle
    (Circle.make (vec 100 96) (vec 0 2) 5) (makeLine (vec 100 100)) = true /\
  physics.bounceLineNormal
    (Circle.make (vec 100 96) (vec 0 2) 5) (makeLine (vec 100 100)) = vec 0 (-1) /\
  physics.bounceCircle 2
    (Circle.make (vec 100 96) (vec 0 2) 5) (makeLine (vec 100 100)) =
  Done (Circle.make (vec 100 94) (vec 0 (-2)) 5).
Proof. repeat split; vm_compute; reflexivity. Qed.


(** C3, the counterexample.  A body at [(138, 103)] with velocity
    [(-1, -2)] overlaps the first end [(135, 100)] of the line; the contact
    point is not its center.  The reflection turns the velocity into
    [(2.0000000000000004, 1.0000000000000004)], and the speed from
    [2.23606797749979] into [2.2360679774997902]. *)
Lemma reflection_changes_the_speed :
  trig.isLineIntersectingCircle
    (Circle.make (vec 138 103) (vec (-1) (-2)) 5) (makeLine (vec 100 100)) = true /\
  trig.pointOnLineClosestToCircle
    (Circle.make (vec 138 103) (vec (-1) (-2)) 5) (makeLine (vec 100 100)) =
  vec 135 100 /\
  physics.bounceCircle 2
    (Circle.make (vec 138 103) (vec (-1) (-2)) 5) (makeLine (vec 100 100)) =
  Done (Circle.make (vec 140 104) (vec 2.0000000000000004 1.0000000000000004) 5) /\
  trig.magnitude (vec (-1) (-2)) = 2.23606797749979 /\
  trig.magnitude (vec 2.0000000000000004 1.0000000000000004) = 2.2360679774997902 /\
  trig.magnitude (vec 2.0000000000000004 1.0000000000000004) <>
  trig.magnitude (vec (-1) (-2)).
Proof.
  repeat split; try (vm_compute; reflexivity). differ.
Qed.


(** The separation need not grow while the loop runs.  A circle that
    overlaps the line while it moves away from it is reflected towards the
    line, and the first move of the loop takes it closer: from distance 4 to
    distance 3. *)
Example separation_can_decrease :
  trig.isLineIntersectingCircle
    (Circle.make (vec 100 96) (vec 0 (-1)) 5) (makeLine (vec 100 100)) = true /\
  physics.reflectVelocity
    (Circle.make (vec 100 96) (vec 0 (-1)) 5) (makeLine (vec 100 100)) =
  Circle.make (vec 100 96) (vec 0 1) 5 /\
  trig.distance (vec 100 96)
    (trig.pointOnLineClosestToCircle
       (Circle.make (vec 100 96) (vec 0 1) 5) (makeLine (vec 100 100))) = 4 /\
  physics.moveCircle (Circle.make (vec 100 96) (vec 0 1) 5) =
  Circle.make (vec 100 97) (vec 0 1) 5 /\
  trig.distance (vec 100 97)
    (trig.pointOnLineClosestToCircle
       (Circle.make (vec 100 97) (vec 0 1) 5) (makeLine (vec 100 100))) = 3.
Proof. repeat split; vm_compute; reflexivity. Qed.

(** C6, the counterexample.  A body centered on a line intersects it, so
    [updateCircles] calls [physics.bounceCircle], and
    [physics.bounceLineNormal] calls [trig.unitVector] on the zero vector.
    And for a line of length [1e-14] centered at [(100, 100)] both ends are
    computed as the center, so [trig.pointOnLineClosestToCircle] calls it on
    the zero vector too. *)
Lemma bounceLineNormal_unguarded :
  trig.isLineIntersectingCircle
    (Circle.make (vec 100 100) (vec 0 2) 5) (makeLine (vec 100 100)) = true /\
  circleToClosestPointOnLineVector
    (Circle.make (vec 100 100) (vec 0 2) 5) (makeLine (vec 100 100)) = vec 0 0 /\
  physics.bounceLineNormal
    (Circle.make (vec 100 100) (vec 0 2) 5) (makeLine (vec 100 100)) = vec nan nan /\
  trig.lineEndPoints (Line.make (vec 100 100) 1e-14 0 0.5) =
  (vec 100 100, vec 100 100) /\
  lineVector (Line.make (vec 100 100) 1e-14 0 0.5) = vec 0 0 /\
  lineUnitVector (Line.make (vec 100 100) 1e-14 0 0.5) = vec nan nan.
Proof. repeat split; vm_compute; reflexivity. Qed.

(** C8, the counterexample.  The ends of the horizontal line of length 70
    centered at [(101.3, 99.7)] are computed at a distance of
    [70.00000000000001]. *)
Lemma lineEndPoints_distance_is_rounded :
  trig.lineEndPoints (Line.make (vec 101.3 99.7) 70 0 0.5) =
  (vec 136.3 99.7, vec 66.3 99.7) /\
  trig.distance (vec 136.3 99.7) (vec 66.3 99.7) = 70.00000000000001 /\
  trig.distance
    (fst (trig.lineEndPoints (Line.make (vec 101.3 99.7) 70 0 0.5)))
    (snd (trig.lineEndPoints (Line.make (vec 101.3 99.7) 70 0 0.5))) <>
  Line.len (Line.make (vec 101.3 99.7) 70 0 0.5).
Proof.
  split; [vm_compute; reflexivity |].
  split; [vm_compute; reflexivity |].
  differ.
Qed.

(** One pass of [updateCircles] over three bodies and no line, in a world of
    300 by 150: the middle body falls below the bottom edge and is spliced
    out, the two others are stepped once each and stay in their order. *)
Example updateCircles_removes_the_middle_body :
  updateCircles 0
    (World.make
       [ Circle.make (vec 10 10) (vec 0 0) 5;
         Circle.make (vec 150 154) (vec 0 1) 5;
         Circle.make (vec 20 20) (vec 1 0) 5 ]
       [] (vec 300 150) 0) =
  Done
    (World.make
       [ Circle.make (vec 10 10.06) (vec 0 0.06) 5;
         Circle.make (vec 21 20.06) (vec 1 0.06) 5 ]
       [] (vec 300 150) 0).
Proof. vm_compute. reflexivity. Qed.

(** The first tick of the simulation, one second after the epoch of the
    clock, on a canvas of 300 by 150: there is no body to step, the first
    body is made at the top of the canvas, and every line has turned by half
    a degree. *)
Example update_first_tick :
  update 0 1000 (initialWorld (vec 300 150)) =
  Done
    (World.make
       [ Circle.make (vec 150 (-5)) (vec 0 0) 5 ]
       (map (fun center => Line.make center 70 0.5 0.5)
            [ vec 100 100; vec 200 100; vec 150 150; vec 100 200; vec 220 200 ])
       (vec 300 150) 1000).
Proof. vm_compute. reflexivity. Qed.

(** *** The theorems at work *)

Lemma bounceCircle_clears_line_witness :
  physics.bounceCircle 2
    (Circle.make (vec 100 96) (vec 0 2) 5) (makeLine (vec 100 100)) =
  Done (Circle.make (vec 100 94) (vec 0 (-2)) 5) /\
  trig.isLineIntersectingCircle
    (Circle.make (vec 100 94) (vec 0 (-2)) 5) (makeLine (vec 100 100)) = false.
Proof.
  split; [exact (proj2 (proj2 scenario_bounce)) |].
  eapply (bounceCircle_clears_line (N := double)).
  exact (proj2 (proj2 scenario_bounce)).
Defined.

Lemma bounceCircle_fewest_moves_witness :
  physics.bounceCircle 2
    (Circle.make (vec 100 96) (vec 0 2) 5) (makeLine (vec 100 100)) =
  Done (Circle.make (vec 100 94) (vec 0 (-2)) 5) /\
  exists k : nat,
    (k < 2)%nat /\
    Circle.make (vec 100 94) (vec 0 (-2)) 5 =
    Nat.iter k physics.moveCircle
      (physics.reflectVelocity
         (Circle.make (vec 100 96) (vec 0 2) 5) (makeLine (vec 100 100))) /\
    trig.isLineIntersectingCircle
      (Circle.make (vec 100 94) (vec 0 (-2)) 5) (makeLine (vec 100 100)) = false /\
    forall j : nat,
      (j < k)%nat ->
      trig.isLineIntersectingCircle
        (Nat.iter j physics.moveCircle
           (physics.reflectVelocity
              (Circle.make (vec 100 96) (vec 0 2) 5) (makeLine (vec 100 100))))
        (makeLine (vec 100 100)) = true.
Proof.
  split; [exact (proj2 (proj2 scenario_bounce)) |].
  apply (bounceCircle_fewest_moves (N := double)).
  exact (proj2 (proj2 scenario_bounce)).
Defined.

Lemma updateCircle_free_witness :
  Forall
    (fun line =>
       trig.isLineIntersectingCircle (Circle.make (vec 10 10) (vec 0 0) 5) line = false)
    [makeLine (vec 100 100)] /\
  updateCircle 0 [makeLine (vec 100 100)] (Circle.make (vec 10 10) (vec 0 0) 5) =
  Done (fall (Circle.make (vec 10 10) (vec 0 0) 5)).
Proof.
  assert (Forall
            (fun line =>
               trig.isLineIntersectingCircle
                 (Circle.make (vec 10 10) (vec 0 0) 5) line = false)
            [makeLine (vec 100 100)]) as Hfree
      by (constructor; [vm_compute; reflexivity | constructor]).
  split; [exact Hfree |].
  apply (updateCircle_free (N := double)).
  exact Hfree.
Defined.

Lemma ticks_turn_the_lines_witness :
  ticks 0 [1000%Z] (initialWorld (vec 300 150)) =
  Done
    (World.make
       [ Circle.make (vec 150 (-5)) (vec 0 0) 5 ]
       (map (fun center => Line.make center 70 0.5 0.5)
            [ vec 100 100; vec 200 100; vec 150 150; vec 100 200; vec 220 200 ])
       (vec 300 150) 1000) /\
  map (fun center => Line.make center 70 0.5 0.5)
      [ vec 100 100; vec 200 100; vec 150 150; vec 100 200; vec 220 200 ] =
  map (turned 1) (World.lines (initialWorld (vec 300 150))).
Proof.
  assert (ticks 0 [1000%Z] (initialWorld (vec 300 150)) =
          Done
            (World.make
               [ Circle.make (vec 150 (-5)) (vec 0 0) 5 ]
               (map (fun center => Line.make center 70 0.5 0.5)
                    [ vec 100 100; vec 200 100; vec 150 150;
                      vec 100 200; vec 220 200 ])
               (vec 300 150) 1000)) as H
      by (vm_compute; reflexivity).
  split; [exact H |].
  exact (proj1 (ticks_turn_the_lines (N := double) 0 [1000%Z] _ _ H)).
Defined.

Lemma body_centered_on_line_is_lost_witness :
  trig.pointOnLineClosestToCircle
    (Circle.make (vec 120 100) (vec 0 2) 5) (makeLine (vec 100 100)) =
  Circle.center (Circle.make (vec 120 100) (vec 0 2) 5) /\
  trig.isLineIntersectingCircle
    (Circle.make (vec 120 100) (vec 0 2) 5) (makeLine (vec 100 100)) = true /\
  physics.bounceCircle 2
    (Circle.make (vec 120 100) (vec 0 2) 5) (makeLine (vec 100 100)) =
  Done (Circle.make (vec nan nan) (vec nan nan) 5) /\
  stepCircles 2 [makeLine (vec 100 100)] (vec 300 150)
    [Circle.make (vec 120 100) (vec 0 2) 5] = Done [].
Proof.
  assert (trig.pointOnLineClosestToCircle
            (Circle.make (vec 120 100) (vec 0 2) 5) (makeLine (vec 100 100)) =
          Circle.center (Circle.make (vec 120 100) (vec 0 2) 5)) as Hq
      by (vm_compute; reflexivity).
  assert (trig.isLineIntersectingCircle
            (Circle.make (vec 120 100) (vec 0 2) 5) (makeLine (vec 100 100)) = true)
    as Hi by (vm_compute; reflexivity).
  split; [exact Hq |]. split; [exact Hi |].
  exact (body_centered_on_line_is_lost
           (Circle.make (vec 120 100) (vec 0 2) 5) (makeLine (vec 100 100))
           [] (vec 300 150) 0 Hq Hi).
Defined.

Lemma lineEndPoints_of_the_initial_lines_witness :
  In (makeLine (vec 150 150)) (World.lines (initialWorld (vec 300 150))) /\
  trig.distance (fst (trig.lineEndPoints (makeLine (vec 150 150))))
                (snd (trig.lineEndPoints (makeLine (vec 150 150)))) = 70.
Proof.
  assert (In (makeLine (vec 150 150)) (World.lines (initialWorld (vec 300 150))))
    as H by (cbn; auto).
  split; [exact H |].
  exact (lineEndPoints_of_the_initial_lines (vec 300 150) _ H).
Defined.

Lemma magnitude_near_norm_witness :
  finiteVec (vec 3 4) /\
  trig.magnitude (vec 3 4) = 5 /\
  (Rabs (B2R (trig.magnitude (vec 3 4))%float - norm (vec 3 4)%float) <=
   3 * u64 * norm (vec 3 4)%float + 2 * tau64)%R.
Proof.
  assert (finiteVec (vec 3 4)) as Hf by (split; reflexivity).
  split; [exact Hf |]. split; [vm_compute; reflexivity |].
  refine (proj1 (proj2 (magnitude_near_norm (vec 3 4) Hf _ _))).
  - apply (binade_le _ 2); [reflexivity | lia].
  - apply (binade_le _ 3); [reflexivity | lia].
Defined.

Lemma unitVector_near_unit_witness :
  trig.unitVector (vec 3 4) = vec 0.6 0.8 /\
  (Rabs (B2R 0.6%float - B2R 3%float / norm (vec 3 4)%float) <= 5 * u64 /\
   Rabs (B2R 0.8%float - B2R 4%float / norm (vec 3 4)%float) <= 5 * u64)%R.
Proof.
  assert (trig.unitVector (vec 3 4) = vec 0.6 0.8) as Hu by (vm_compute; reflexivity).
  split; [exact Hu |].
  assert (finiteVec (vec 3 4)) as Hf by (split; reflexivity).
  assert (bpow (-400) <= norm (vec 3 4)%float <= bpow 500)%R as Hn.
  { assert (bpow (-400) <= norm (vec 3 4)%float <= bpow 400)%R as [H1 H2].
    { apply (norm_between _ 1 3); try lia.
      + left. apply (binade_ge _ 2); [reflexivity | lia].
      + apply (binade_le _ 2); [reflexivity | lia].
      + apply (binade_le _ 3); [reflexivity | lia]. }
    split; [exact H1 |].
    apply Rle_trans with (bpow 400); [exact H2 | apply bpow_le; lia]. }
  pose proof (proj2 (unitVector_near_unit (vec 3 4) Hf Hn)) as H.
  rewrite Hu in H. exact H.
Defined.

(** The bound on the speed at the bounce off the first end of a line, where
    the speed is not kept exactly. *)
Lemma bounceCircle_keeps_the_speed_witness :
  physics.bounceCircle 2
    (Circle.make (vec 138 103) (vec (-1) (-2)) 5) (makeLine (vec 100 100)) =
  Done (Circle.make (vec 140 104) (vec 2.0000000000000004 1.0000000000000004) 5) /\
  circleToClosestPointOnLineVector
    (Circle.make (vec 138 103) (vec (-1) (-2)) 5) (makeLine (vec 100 100)) = vec 3 3 /\
  (Rabs (B2R (trig.magnitude (vec 2.0000000000000004 1.0000000000000004))%float -
         B2R (trig.magnitude (vec (-1) (-2)))%float) <=
   bpow (-46) * B2R (trig.magnitude (vec (-1) (-2)))%float)%R.
Proof.
  assert (physics.bounceCircle 2
            (Circle.make (vec 138 103) (vec (-1) (-2)) 5) (makeLine (vec 100 100)) =
          Done (Circle.make (vec 140 104)
                  (vec 2.0000000000000004 1.0000000000000004) 5)) as Hb
      by (vm_compute; reflexivity).
  assert (circleToClosestPointOnLineVector
            (Circle.make (vec 138 103) (vec (-1) (-2)) 5) (makeLine (vec 100 100)) =
          vec 3 3) as Hd by (vm_compute; reflexivity).
  split; [exact Hb |]. split; [exact Hd |].
  refine (proj2 (proj2 (bounceCircle_keeps_the_speed 2 _ _ _ Hb _ _ _ _))).
  - split; reflexivity.
  - rewrite Hd. split; reflexivity.
  - apply (norm_between _ 0 2); try lia.
    + left. apply (binade_ge _ 1); [reflexivity | lia].
    + apply (binade_le _ 1); [reflexivity | lia].
    + apply (binade_le _ 2); [reflexivity | lia].
  - rewrite Hd. apply (norm_between _ 1 2); try lia.
    + left. apply (binade_ge _ 2); [reflexivity | lia].
    + apply (binade_le _ 2); [reflexivity | lia].
    + apply (binade_le _ 2); [reflexivity | lia].
Defined.

(** The bound on the distance between the ends for the line whose ends are
    not computed at the distance of its length. *)
Lemma lineEndPoints_distance_near_length_witness :
  headingVector (Line.make (vec 101.3 99.7) 70 0 0.5) = vec 1 0 /\
  (Rabs (B2R (trig.distance
                (fst (trig.lineEndPoints (Line.make (vec 101.3 99.7) 70 0 0.5)))
                (snd (trig.lineEndPoints (Line.make (vec 101.3 99.7) 70 0 0.5))))%float -
         Rabs (B2R 70%float)) <=
   bpow (-48) * (Rabs (B2R 70%float) + Rabs (B2R 101.3%float) + Rabs (B2R 99.7%float)))%R.
Proof.
  assert (headingVector (Line.make (vec 101.3 99.7) 70 0 0.5) = vec 1 0) as Hh
      by (vm_compute; reflexivity).
  split; [exact Hh |].
  refine (proj2 (lineEndPoints_distance_near_length
                   (Line.make (vec 101.3 99.7) 70 0 0.5) _ _ _ _ _ _ _)).
  - rewrite Hh. split; reflexivity.
  - rewrite Hh. unfold norm. cbn [x y].
    pose proof (norm2_ge_l (B2R 1) (B2R 0)) as H1.
    pose proof (norm2_le_sum (B2R 1) (B2R 0)) as H2.
    fold (norm2 (B2R 1) (B2R 0)).
    destruct (B2R_binade 1 1 eq_refl) as [_ [H3 H4]].
    destruct (B2R_zero 0 false eq_refl) as [H5 _].
    rewrite H5 in H1, H2 |- *. rewrite Rabs_R0 in H2. rewrite bpow_1 in H4.
    change (bpow (1 - 1)) with 1%R in H3. lra.
  - reflexivity.
  - cbn [Line.len]. split.
    + apply (binade_ge _ 7); [reflexivity | lia].
    + apply (binade_le _ 7); [reflexivity | lia].
  - split; reflexivity.
  - apply (binade_le _ 7); [reflexivity | lia].
  - apply (binade_le _ 7); [reflexivity | lia].
Defined.

Lemma isCircleInWorld_on_doubles_witness :
  isCircleInWorld (Circle.make (vec 10 10) (vec 0 0) 5) (vec 300 150) = true /\
  (- B2R 5%float < B2R 10%float /\ B2R 10%float < B2R (300 + 5)%float /\
   - B2R 5%float < B2R 10%float /\ B2R 10%float < B2R (150 + 5)%float)%R.
Proof.
  assert (isCircleInWorld (Circle.make (vec 10 10) (vec 0 0) 5) (vec 300 150) = true)
    as H by (vm_compute; reflexivity).
  split; [exact H |].
  refine (proj1 (proj1 isCircleInWorld_on_doubles
                   (Circle.make (vec 10 10) (vec 0 0) 5) (vec 300 150) _ _ _ _) H).
  - split; reflexivity.
  - reflexivity.
  - reflexivity.
  - reflexivity.
Defined.

Lemma new_circle_enters_the_world_on_doubles_witness :
  isCircleInWorld (Circle.make (vec 150 (-5)) (vec 0 0) 5) (vec 300 150) = false /\
  isCircleInWorld (fall (Circle.make (vec 150 (-5)) (vec 0 0) 5)) (vec 300 150) = true.
Proof.
  destruct (nonneg_bounded 300 9 eq_refl eq_refl ltac:(lia)) as [Fw Hw].
  destruct (nonneg_bounded 150 8 eq_refl eq_refl ltac:(lia)) as [Fh Hh].
  exact (new_circle_enters_the_world_on_doubles 300 150 Fw Fh Hw Hh).
Defined.

End OnDoubles.

(** * Properties in exact arithmetic

    What follows is stated for [ideal]: for real coordinates, with nothing
    rounded.  Each statement compares numbers that a margin separates or
    tests an order, and so does not rest on an equation that rounding
    breaks. *)

Section ExactArithmetic.
#[local] Existing Instance ideal.
Local Open Scope R_scope.

(** Reduces record projections and the arithmetic of numbers that are not
    [NaN], and nothing else. *)
Ltac js_simpl :=
  unfold trig.vectorBetween, trig.dotProduct, point in *;
  cbn [x y fst snd Circle.center Circle.velocity Circle.radius
       Line.center Line.len Line.angle Line.rotateSpeed
       num lit add sub mul div neg ltb leb Math_sqrt Math_cos Math_sin ideal
       Ideal.add Ideal.sub Ideal.mul Ideal.lift2 Ideal.neg
       Ideal.cos Ideal.sin Qden Qnum] in *.

(** Reduces the comparisons and the literals to those of [Ideal]. *)
Ltac js_ops :=
  cbn [num lit add sub mul div neg ltb leb Math_sqrt Math_cos Math_sin ideal
       Qden Qnum] in *.

(** Reduces an equation between records of numbers to equations between the
    real numbers in them. *)
Ltac num_eq :=
  repeat match goal with
    | |- Ideal.Num _ = Ideal.Num _ => f_equal
    | |- vec _ _ = vec _ _ => f_equal
    | |- Circle.make _ _ _ = Circle.make _ _ _ => f_equal
    | |- Line.make _ _ _ _ = Line.make _ _ _ _ => f_equal
    | |- (_, _) = (_, _) => f_equal
    | |- _ :: _ = _ :: _ => f_equal
    | |- World.make _ _ _ _ = World.make _ _ _ _ => f_equal
    | |- Done _ = Done _ => f_equal
    end.

(** ** Arithmetic on numbers that are not [NaN] *)

Lemma ltb_Num (u v : R) : Ideal.ltb (Num u) (Num v) = true <-> u < v.
Proof.
  unfold Ideal.ltb. destruct (Rlt_dec u v); split; intros; auto; discriminate.
Qed.

Lemma leb_Num (u v : R) : Ideal.leb (Num u) (Num v) = true <-> u <= v.
Proof.
  unfold Ideal.leb. destruct (Rle_dec u v); split; intros; auto; discriminate.
Qed.

Lemma ltb_true_inv (a b : Ideal.num) :
  Ideal.ltb a b = true -> exists u v, a = Num u /\ b = Num v /\ u < v.
Proof.
  intros H. destruct a as [|u], b as [|v]; try (simpl in H; discriminate).
  exists u, v. apply ltb_Num in H. auto.
Qed.


Lemma leb_Num_false (u v : R) : Ideal.leb (Num u) (Num v) = false <-> v < u.
Proof.
  unfold Ideal.leb. destruct (Rle_dec u v); split; intros; try lra; auto; discriminate.
Qed.

Lemma div_Num (u v : R) : v <> 0 -> Ideal.div (Num u) (Num v) = Num (u / v).
Proof.
  intros H. unfold Ideal.div. destruct (Req_dec_T v 0); [contradiction | reflexivity].
Qed.

Lemma sqrt_Num (u : R) : 0 <= u -> Ideal.sqrt (Num u) = Num (sqrt u).
Proof.
  intros H. unfold Ideal.sqrt. destruct (Rlt_dec u 0); [lra | reflexivity].
Qed.

Lemma sum_sq_nonneg (a b : R) : 0 <= a * a + b * b.
Proof. nra. Qed.

Lemma sqrt_sum_sq_pos (a b : R) : a * a + b * b <> 0 -> 0 < sqrt (a * a + b * b).
Proof.
  intros H. apply sqrt_lt_R0. pose proof (sum_sq_nonneg a b). lra.
Qed.

Lemma sqrt_of_square (a u : R) : 0 <= a -> u = a * a -> sqrt u = a.
Proof. intros Ha ->. apply sqrt_square, Ha. Qed.

Lemma abs_le_sqrt_sum_sq (u w : R) : Rabs u <= sqrt (u * u + w * w).
Proof.
  rewrite <- sqrt_Rsqr_abs. apply sqrt_le_1; unfold Rsqr; nra.
Qed.

Lemma Rabs_neg_val (u w : R) : u <= 0 -> w = - u -> Rabs u = w.
Proof. intros Hu ->. apply Rabs_left1, Hu. Qed.

(** ** Vector math on finite vectors *)

Lemma magnitude_Num (a b : R) :
  trig.magnitude (vec (Num a) (Num b)) = Num (sqrt (a * a + b * b)).
Proof.
  unfold trig.magnitude. js_simpl. apply sqrt_Num, sum_sq_nonneg.
Qed.

Lemma distance_Num (a b c d : R) :
  trig.distance (vec (Num a) (Num b)) (vec (Num c) (Num d)) =
  Num (sqrt ((a - c) * (a - c) + (b - d) * (b - d))).
Proof.
  unfold trig.distance. js_simpl. apply sqrt_Num, sum_sq_nonneg.
Qed.

Lemma unitVector_Num (a b : R) :
  a * a + b * b <> 0 ->
  trig.unitVector (vec (Num a) (Num b)) =
  vec (Num (a / sqrt (a * a + b * b))) (Num (b / sqrt (a * a + b * b))).
Proof.
  intros H. unfold trig.unitVector. rewrite magnitude_Num. js_simpl.
  pose proof (sqrt_sum_sq_pos a b H).
  rewrite !div_Num by lra. reflexivity.
Qed.

(** ** Segment geometry on finite data *)

Lemma heading_norm (a : R) :
  headingX a * headingX a + headingY a * headingY a = 1.
Proof.
  unfold headingX, headingY.
  pose proof (sin2_cos2 (a * 0.01745)) as H. unfold Rsqr in H. lra.
Qed.

Lemma headingX_bound (a : R) : -1 <= headingX a <= 1.
Proof. pose proof (heading_norm a). split; nra. Qed.

Lemma headingY_bound (a : R) : -1 <= headingY a <= 1.
Proof. pose proof (heading_norm a). split; nra. Qed.

Section FiniteLine.

Variables (lx ly L a : R) (rs : Ideal.num).

Local Abbreviation line := (Line.make (point lx ly) (Num L) (Num a) rs).
Local Abbreviation hx := (headingX a).
Local Abbreviation hy := (headingY a).

Lemma lineEndPoints_Num :
  trig.lineEndPoints line =
  (point (lx + hx * L / 2) (ly + hy * L / 2),
   point (lx - hx * L / 2) (ly - hy * L / 2)).
Proof.
  unfold trig.lineEndPoints, point. js_simpl.
  fold (headingX a) (headingY a).
  rewrite unitVector_Num by (rewrite heading_norm; lra).
  rewrite heading_norm, sqrt_1. js_simpl. rewrite !div_Num by lra.
  js_simpl. num_eq; field.
Qed.

Lemma endpoints_gap_sq :
  (lx - hx * L / 2 - (lx + hx * L / 2)) * (lx - hx * L / 2 - (lx + hx * L / 2)) +
  (ly - hy * L / 2 - (ly + hy * L / 2)) * (ly - hy * L / 2 - (ly + hy * L / 2)) =
  L * L.
Proof.
  transitivity (L * L * (headingX a * headingX a + headingY a * headingY a));
    [field | rewrite heading_norm; ring].
Qed.

(** For a line of positive length the unit vector along it is the opposite
    of the heading: it runs from the first end to the second. *)
Lemma lineUnitVector_Num :
  0 < L ->
  trig.unitVector
    (trig.vectorBetween (fst (trig.lineEndPoints line)) (snd (trig.lineEndPoints line))) =
  point (- hx) (- hy).
Proof.
  intros HL. rewrite lineEndPoints_Num. unfold point. js_simpl.
  rewrite unitVector_Num by (rewrite endpoints_gap_sq; nra).
  rewrite endpoints_gap_sq.
  rewrite (sqrt_of_square L (L * L)) by (lra || reflexivity).
  f_equal; f_equal; field; lra.
Qed.

End FiniteLine.

Section FiniteCircleAndLine.

Variables (lx ly L a : R) (rs : Ideal.num) (px py : R) (v : Vec) (r : Ideal.num).

Local Abbreviation line := (Line.make (point lx ly) (Num L) (Num a) rs).
Local Abbreviation circle := (Circle.make (point px py) v r).
Local Abbreviation hx := (headingX a).
Local Abbreviation hy := (headingY a).

(** The coordinate of the circle's center along the heading of the line,
    measured from the center of the line. *)
Local Abbreviation along := ((px - lx) * hx + (py - ly) * hy).

Hypothesis L_pos : 0 < L.

Lemma projection_Num : projection circle line = Num (L / 2 - along).
Proof.
  unfold projection, lineUnitVector.
  rewrite lineUnitVector_Num by exact L_pos.
  rewrite lineEndPoints_Num. js_simpl. f_equal.
  transitivity
    (L / 2 * (headingX a * headingX a + headingY a * headingY a)
     - ((px - lx) * headingX a + (py - ly) * headingY a));
    [field | rewrite heading_norm; field].
Qed.

Lemma closest_end1 :
  L / 2 <= along ->
  trig.pointOnLineClosestToCircle circle line =
  point (lx + hx * L / 2) (ly + hy * L / 2).
Proof.
  intros H. rewrite pointOnLineClosestToCircle_eq, projection_Num. js_ops.
  replace (Ideal.leb (Num (L / 2 - along)) (Num 0)) with true
    by (symmetry; apply leb_Num; lra).
  rewrite lineEndPoints_Num. reflexivity.
Qed.

Lemma closest_end2 :
  along <= - L / 2 ->
  trig.pointOnLineClosestToCircle circle line =
  point (lx - hx * L / 2) (ly - hy * L / 2).
Proof.
  intros H. rewrite pointOnLineClosestToCircle_eq, projection_Num. js_ops.
  replace (Ideal.leb (Num (L / 2 - along)) (Num 0)) with false
    by (symmetry; apply leb_Num_false; lra).
  unfold geb. rewrite lineEndPoints_Num. js_simpl.
  replace (Ideal.leb (Num L) (Num (L / 2 - along))) with true
    by (symmetry; apply leb_Num; lra).
  reflexivity.
Qed.

Lemma closest_inner :
  - L / 2 < along < L / 2 ->
  trig.pointOnLineClosestToCircle circle line =
  point (lx + along * hx) (ly + along * hy).
Proof.
  intros H. rewrite pointOnLineClosestToCircle_eq, projection_Num. js_ops.
  replace (Ideal.leb (Num (L / 2 - along)) (Num 0)) with false
    by (symmetry; apply leb_Num_false; lra).
  unfold geb. unfold lineUnitVector.
  rewrite lineUnitVector_Num by exact L_pos.
  rewrite lineEndPoints_Num. js_simpl.
  replace (Ideal.leb (Num L) (Num (L / 2 - along))) with false
    by (symmetry; apply leb_Num_false; lra).
  f_equal; f_equal; field.
Qed.

(** The closest point is a finite point, no further from the center of the
    line than half its length in each coordinate. *)
Lemma closest_in_box :
  exists qx qy,
    trig.pointOnLineClosestToCircle circle line = point qx qy /\
    Rabs (qx - lx) <= L / 2 /\ Rabs (qy - ly) <= L / 2.
Proof.
  pose proof (headingX_bound a) as Hx. pose proof (headingY_bound a) as Hy.
  destruct (Rle_dec (L / 2) along) as [H1 | H1].
  - exists (lx + hx * L / 2), (ly + hy * L / 2).
    split; [apply closest_end1, H1 |].
    split; apply Rabs_le; split; nra.
  - destruct (Rle_dec along (- L / 2)) as [H2 | H2].
    + exists (lx - hx * L / 2), (ly - hy * L / 2).
      split; [apply closest_end2, H2 |].
      split; apply Rabs_le; split; nra.
    + exists (lx + along * hx), (ly + along * hy).
      split; [apply closest_inner; lra |].
      split; apply Rabs_le; split; nra.
Qed.

End FiniteCircleAndLine.

(** ** Collision detection (C2) *)

Lemma isLineIntersectingCircle_true_iff (circle : Circle.t) (line : Line.t) :
  trig.isLineIntersectingCircle circle line = true <->
  exists d rho : R,
    trig.distance (Circle.center circle)
                  (trig.pointOnLineClosestToCircle circle line) = Num d /\
    Circle.radius circle = Num rho /\
    d < rho.
Proof.
  unfold trig.isLineIntersectingCircle. js_ops. split.
  - intros H. apply ltb_true_inv in H. exact H.
  - intros [d [rho [Hd [Hr Hlt]]]]. rewrite Hd, Hr. apply ltb_Num, Hlt.
Qed.




(** ** Circles far from a line *)

Section Far.

Variables (lx ly L a : R) (rs : Ideal.num).
Hypothesis L_pos : 0 < L.

Local Abbreviation line := (Line.make (point lx ly) (Num L) (Num a) rs).

(** A circle that intersects the line has a real radius and a center within
    the radius plus half the length of the line from the center of the line,
    in each coordinate. *)
Lemma intersecting_near (px py : R) (v : Vec) (r : Ideal.num) :
  trig.isLineIntersectingCircle (Circle.make (point px py) v r) line = true ->
  exists rho : R,
    r = Num rho /\
    Rabs (px - lx) < rho + L / 2 /\ Rabs (py - ly) < rho + L / 2.
Proof.
  intros H. apply isLineIntersectingCircle_true_iff in H.
  destruct H as [d [rho [Hd [Hr Hlt]]]]. cbn [Circle.center Circle.radius] in *.
  destruct (closest_in_box lx ly L a rs px py v r L_pos) as [qx [qy [Hq [Hx Hy]]]].
  rewrite Hq in Hd. unfold point in Hd. rewrite distance_Num in Hd.
  injection Hd as Hd.
  exists rho. split; [exact Hr |].
  pose proof (abs_le_sqrt_sum_sq (px - qx) (py - qy)) as Hax.
  pose proof (abs_le_sqrt_sum_sq (py - qy) (px - qx)) as Hay.
  rewrite (Rplus_comm ((py - qy) * (py - qy))) in Hay.
  pose proof (Rabs_triang (px - qx) (qx - lx)) as Htx.
  pose proof (Rabs_triang (py - qy) (qy - ly)) as Hty.
  replace (px - qx + (qx - lx)) with (px - lx) in Htx by ring.
  replace (py - qy + (qy - ly)) with (py - ly) in Hty by ring.
  split; lra.
Qed.

Lemma far_circle_clear (px py : R) (v : Vec) (r : Ideal.num) :
  (forall rho : R,
      r = Num rho ->
      rho + L / 2 <= Rabs (px - lx) \/ rho + L / 2 <= Rabs (py - ly)) ->
  trig.isLineIntersectingCircle (Circle.make (point px py) v r) line = false.
Proof.
  intros Hfar.
  destruct (trig.isLineIntersectingCircle _ _) eqn:Hi; [| reflexivity].
  apply intersecting_near in Hi. destruct Hi as [rho [Hr [Hx Hy]]].
  destruct (Hfar rho Hr); lra.
Qed.

End Far.

(** ** The in-world test (C10) *)

Lemma isCircleInWorld_Num (cx cy : R) (v : Vec) (rho wx wy : R) :
  isCircleInWorld (Circle.make (point cx cy) v (Num rho)) (point wx wy) = true <->
  (- rho < cx < wx + rho) /\ (- rho < cy < wy + rho).
Proof.
  unfold isCircleInWorld, gtb. js_simpl.
  rewrite !andb_true_iff, !ltb_Num. tauto.
Qed.



(** ** The body that [createNewCircleIfDue] makes *)

(** The body that [createNewCircleIfDue] makes on a canvas of real width. *)
Lemma new_circle_exact (width : R) :
  makeCircle {| x := (Num width / lit 2)%js; y := (- lit 5)%js |} =
  makeCircle {| x := (Num width / Num 2)%js; y := Num (-5) |}.
Proof.
  reflexivity.
Qed.

(** X12.  The body that [createNewCircleIfDue] makes sits on the border of
    the world: the in-world test would reject it as it is made.  After its
    first step of gravity and motion the test accepts it, on any canvas. *)
Theorem new_circle_enters_the_world (width height : R) :
  0 <= width -> 0 <= height ->
  isCircleInWorld
    (makeCircle {| x := (Num width / Num 2)%js; y := Num (-5) |})
    (point width height) = false /\
  isCircleInWorld
    (fall (makeCircle {| x := (Num width / Num 2)%js; y := Num (-5) |}))
    (point width height) = true.
Proof.
  intros Hw Hh. js_ops. rewrite div_Num by lra. unfold makeCircle. js_ops. split.
  - apply not_true_is_false. intros H.
    apply (isCircleInWorld_Num (width / 2) (-5)) in H. lra.
  - unfold fall, physics.applyGravity, physics.moveCircle. js_simpl.
    apply (isCircleInWorld_Num (width / 2 + 0) (-5 + (0 + 0.06))). lra.
Qed.

Lemma new_circle_enters_the_world_witness :
  0 <= 300 /\ 0 <= 150 /\
  isCircleInWorld
    (makeCircle {| x := (Num 300 / Num 2)%js; y := Num (-5) |})
    (point 300 150) = false /\
  isCircleInWorld
    (fall (makeCircle {| x := (Num 300 / Num 2)%js; y := Num (-5) |}))
    (point 300 150) = true.
Proof.
  split; [lra |]. split; [lra |].
  apply (new_circle_enters_the_world 300 150); lra.
Defined.

Lemma turned_Num (n : nat) (center : Vec) (L a rs : R) :
  turned n (Line.make center (Num L) (Num a) (Num rs)) =
  Line.make center (Num L) (Num (a + INR n * rs)) (Num rs).
Proof.
  unfold turned. induction n as [| n IH].
  - simpl. num_eq; lra.
  - rewrite Nat.iter_succ, IH, S_INR. unfold rotateLine. js_simpl.
    num_eq; ring.
Qed.

(** X20.  The only bodies that the program makes at rest are those of
    [createNewCircleIfDue], five units above the top of the canvas.  Such a
    body intersects none of the five lines of [start], however many times
    they have turned and whatever the width of the canvas: it is never
    bounced while at rest. *)
Theorem new_circle_is_clear_of_the_lines (n : nat) (canvas : Vec) (width : R) :
  Forall
    (fun line =>
       trig.isLineIntersectingCircle
         (makeCircle {| x := (Num width / Num 2)%js; y := Num (-5) |}) line = false)
    (map (turned n) (World.lines (initialWorld canvas))).
Proof.
  js_ops. rewrite div_Num by lra. unfold initialWorld, makeLine, makeCircle.
  cbn [World.lines map]. js_ops. rewrite !turned_Num.
  repeat constructor;
    (apply far_circle_clear; [lra |]);
    intros rho Hr; injection Hr as <-; right;
    match goal with
    | |- _ <= Rabs (?u - ?w) => rewrite (Rabs_neg_val (u - w) (w - u)); lra
    end.
Qed.

End ExactArithmetic.
